(** * Frame-compositing and timing core of the educational video pipeline

    A shallow embedding of
    - [animation_generator/animation_engine.py]   (class [AnimationEngine]),
    - [animation_generator/transition_effects.py] (class [TransitionEffects]),
    - [video_assembler/compositor.py]             (class [VideoCompositor]),
    - [animation_generator/animation_styles.py], the keys of [config.py] that
      these classes read, and steps 6 and 7 of [main.py],
    followed by the properties of the specification that concern them and by
    further properties of the same code.

    Modelling conventions.
    - Python [int] is [Z]; Python [float] is modelled by exact rationals [Q]
      (no rounding error, no NaN, no infinities).
    - A Pillow image is a mode, a size and a pixel function; only the modes
      RGB and RGBA occur.  In an RGB image the fourth channel is 255.
    - Image objects that are shared between calls (the two caches of the
      engine) live in an explicit heap of locations; images that never leave
      the function that creates them are plain values.
    - The file system is a finite map from paths to files.  [frame.save] always
      succeeds; [Image.open] raises on a missing or undecodable file.
    - Exceptions are a [Raise] result threaded through a state monad whose
      state survives the exception, as in Python.
    - Only WARNING and ERROR log records are kept (DEBUG and INFO records have
      no influence on behaviour); a record is the f-string's constructor
      applied to the interpolated values. *)

From Stdlib Require Import ZArith QArith Qround Lia Lqa List Bool
  Sorting.Sorted Sorting.Permutation.
From stdpp Require Import gmap strings list fin_maps pretty.

Local Open Scope Z_scope.

(** ** Python numbers *)

Module Py.

(** [int(x)] on a float: truncation toward zero. *)
Definition int (x : Q) : Z := Z.quot (Qnum x) (Z.pos (Qden x)).

(** [round(x)] on a float, without [ndigits]: nearest integer, ties to the
    even neighbour. *)
Definition round (x : Q) : Z :=
  let f := Qfloor x in
  match (x - inject_Z f ?= 1 # 2)%Q with
  | Lt => f
  | Gt => f + 1
  | Eq => if Z.even f then f else f + 1
  end.

(** [max(a, b)]: the first argument unless the second is strictly greater. *)
Definition max (a b : Q) : Q := if Qlt_le_dec a b then b else a.

(** [a < b] on floats. *)
Definition lt (a b : Q) : bool := negb (Qle_bool b a).

(** [sum(xs)] on floats: left to right, starting from 0. *)
Definition sum (xs : list Q) : Q := fold_left Qplus xs 0%Q.

(** [sum(xs)] on ints. *)
Definition sumz (xs : list Z) : Z := fold_left Z.add xs 0.

(** [range(n)]. *)
Definition range (n : Z) : list Z := map Z.of_nat (seq 0 (Z.to_nat n)).

(** [enumerate(xs)]. *)
Definition enumerate {A} (xs : list A) : list (Z * A) :=
  combine (range (Z.of_nat (length xs))) xs.

(** [next((x for x in xs if p(x)), None)]. *)
Definition next_or_none {A} (p : A -> bool) (xs : list A) : option A :=
  List.find p xs.

(** [sorted(xs, key=key)]: the stable sort, here by insertion. *)
Fixpoint insert_by {A} (key : A -> Z) (x : A) (l : list A) : list A :=
  match l with
  | [] => [x]
  | y :: l' => if key x <=? key y then x :: y :: l' else y :: insert_by key x l'
  end.

Definition sorted {A} (key : A -> Z) (xs : list A) : list A :=
  foldr (insert_by key) [] xs.

(** [f"{n:05d}"] for a non-negative [n]. *)
Definition fmt_05d (n : Z) : string :=
  let s := pretty n in
  String.concat EmptyString (replicate (5 - String.length s)%nat "0"%string) +:+ s.

(** [os.path.join(a, b)] for a relative [b]. *)
Definition path_join (a b : string) : string := a +:+ "/" +:+ b.

End Py.

(** ** Pillow images *)

Inductive mode := RGB | RGBA.

Definition pixel : Type := Z * Z * Z * Z.

Definition alpha_of (p : pixel) : Z := snd p.

Record image := Image {
  im_mode : mode;
  im_size : Z * Z;
  getpixel : Z -> Z -> pixel
}.

Definition mode_eqb (a b : mode) : bool :=
  match a, b with RGB, RGB | RGBA, RGBA => true | _, _ => false end.

Definition size_eqb (a b : Z * Z) : bool :=
  (fst a =? fst b) && (snd a =? snd b).

Definition white : pixel := (255, 255, 255, 255).
Definition transparent_white : pixel := (255, 255, 255, 0).

(** [Image.new(mode, size, color)]. *)
Definition Image_new (m : mode) (size : Z * Z) (color : pixel) : image :=
  Image m size (fun _ _ => color).

(** [img.copy()] on a value. *)
Definition copy (img : image) : image := img.

(** [img.convert("RGBA")]. *)
Definition convert_RGBA (img : image) : image :=
  match im_mode img with
  | RGBA => img
  | RGB => Image RGBA (im_size img)
             (fun x y => let '(r, g, b, _) := getpixel img x y in (r, g, b, 255))
  end.

(** [img.split()[-1]] of an RGBA image: its alpha band. *)
Definition alpha_band (img : image) : Z -> Z -> Z :=
  fun x y => alpha_of (getpixel img x y).

(** Pillow's 8-bit blend [(mask*in + (255-mask)*out) / 255], rounded, as its C
    macro computes it. *)
Definition blend8 (mask out inp : Z) : Z :=
  let tmp := mask * inp + (255 - mask) * out + 128 in
  Z.shiftr (Z.shiftr tmp 8 + tmp) 8.

Definition in_box (x y px py w h : Z) : bool :=
  (px <=? x) && (x <? px + w) && (py <=? y) && (y <? py + h).

(** [dst.paste(src, (px, py))] and [dst.paste(src, (px, py), mask=m)], as the
    new value of [dst].  The part of [src] outside [dst] is clipped. *)
Definition paste (dst src : image) (box : Z * Z) (mask : option (Z -> Z -> Z))
  : image :=
  Image (im_mode dst) (im_size dst) (fun x y =>
    let px := fst box in
    let py := snd box in
    let d := getpixel dst x y in
    if in_box x y px py (fst (im_size src)) (snd (im_size src)) then
      let s := getpixel src (x - px) (y - py) in
      let '(dr, dg, db, da) := d in
      let '(sr, sg, sb, sa) := s in
      let '(r, g, b, a) :=
        match mask with
        | None => (sr, sg, sb, sa)
        | Some m =>
            let k := m (x - px) (y - py) in
            (blend8 k dr sr, blend8 k dg sg, blend8 k db sb, blend8 k da sa)
        end in
      match im_mode dst with
      | RGB => (r, g, b, 255)
      | RGBA => (r, g, b, a)
      end
    else d).

(** [Image.blend(im1, im2, alpha)] for [0 <= alpha <= 1]; Pillow raises
    [ValueError] when modes or sizes differ. *)
Definition blend_channel (alpha : Q) (a b : Z) : Z :=
  Py.int (inject_Z a + alpha * (inject_Z b - inject_Z a))%Q.

Definition Image_blend (im1 im2 : image) (alpha : Q) : option image :=
  if mode_eqb (im_mode im1) (im_mode im2) && size_eqb (im_size im1) (im_size im2)
  then
    Some (if Qeq_bool alpha 0 then copy im1
          else if Qeq_bool alpha 1 then copy im2
          else Image (im_mode im1) (im_size im1) (fun x y =>
                 let '(r1, g1, b1, a1) := getpixel im1 x y in
                 let '(r2, g2, b2, a2) := getpixel im2 x y in
                 (blend_channel alpha r1 r2, blend_channel alpha g1 g2,
                  blend_channel alpha b1 b2, blend_channel alpha a1 a2)))
  else None.

(** ** Exceptions, log records and the world *)

Inductive exn :=
| OSError (path : option string)
    (* [Image.open] on [None], a missing file or an undecodable file *)
| ValueError_invalid_sizes (src target : Z * Z)
    (* raised by [_resize_image_to_fit] *)
| ValueError_images_do_not_match
    (* raised by [Image.blend] *)
| ResizeError
    (* the resampling filter failed *)
| IndexError
    (* a list index out of range *)
| DanglingReference (l : positive).
    (* a location without an object; excluded by [wf_world] *)

Inductive result (A : Type) :=
| Ok (a : A)
| Raise (e : exn).
Arguments Ok {A} a.
Arguments Raise {A} e.

Inductive level := WARNING | ERROR.

Inductive message :=
| No_audio_segment_found_for_section (n : Z)
| Failed_to_prepare_base_image_for_section (n : Z) (e : exn)
| Error_creating_section_animation (e : exn)
| No_slide_found_for_section (n : Z)
| No_page_found_for_section (n : Z)
| No_visual_content_found_for_section (n : Z)
| Error_processing_visual_content (e : exn)
| Error_creating_transition_animation (e : exn)
| Error_creating_fade_transition (e : exn)
| Error_creating_slide_transition (e : exn)
| No_audio_found_for_section (n : Z).

Definition log_record : Type := level * message.

Inductive file :=
| ImageFile (img : image)
| OtherFile.

(** Image objects are named by locations, which are [positive] numbers. *)

Record world := World {
  disk : gmap string file;
  heap : gmap positive image;
  _loaded_cache : gmap (option string) positive;
  _fitted_cache : gmap (option string * Z * Z) positive;
  log : list log_record
}.

Definition M (A : Type) : Type := world -> world * result A.

Definition ret {A} (a : A) : M A := fun w => (w, Ok a).

Definition raise {A} (e : exn) : M A := fun w => (w, Raise e).

Definition bind {A B} (m : M A) (k : A -> M B) : M B :=
  fun w =>
    match m w with
    | (w', Ok a) => k a w'
    | (w', Raise e) => (w', Raise e)
    end.

(** [try: m  except Exception as e: h e]. *)
Definition try_except {A} (m : M A) (h : exn -> M A) : M A :=
  fun w =>
    match m w with
    | (w', Ok a) => (w', Ok a)
    | (w', Raise e) => h e w'
    end.

Notation "x <~ c ;~ k" := (bind c (fun x => k))
  (at level 20, c at level 100, k at level 200, only parsing).

Definition lift {A} (r : result A) : M A := fun w => (w, r).

(** The world after the records [l] have been logged. *)
Definition add_log (w : world) (l : list log_record) : world :=
  World (disk w) (heap w) (_loaded_cache w) (_fitted_cache w) (log w ++ l).

Definition logger (lv : level) (msg : message) : M unit :=
  fun w => (add_log w [(lv, msg)], Ok tt).

(** A new image object. *)
Definition alloc (img : image) : M positive :=
  fun w =>
    let l := fresh (dom (heap w)) in
    (World (disk w) (<[l := img]> (heap w)) (_loaded_cache w) (_fitted_cache w)
           (log w), Ok l).

(** The current value of an image object. *)
Definition deref (l : positive) : M image :=
  fun w =>
    match heap w !! l with
    | Some img => (w, Ok img)
    | None => (w, Raise (DanglingReference l))
    end.

(** [Image.open(path)] followed by [load()]. *)
Definition Image_open (path : option string) : M image :=
  fun w =>
    match path with
    | Some p =>
        match disk w !! p with
        | Some (ImageFile img) => (w, Ok img)
        | _ => (w, Raise (OSError path))
        end
    | None => (w, Raise (OSError None))
    end.

(** [img.save(path, "PNG")]. *)
Definition save (path : string) (img : image) : M unit :=
  fun w => (World (<[path := ImageFile img]> (disk w)) (heap w)
                  (_loaded_cache w) (_fitted_cache w) (log w), Ok tt).

(** [os.path.exists(path)]. *)
Definition os_path_exists (path : string) : M bool :=
  fun w => (w, Ok (bool_decide (is_Some (disk w !! path)))).

Fixpoint mapM {A B} (f : A -> M B) (xs : list A) : M (list B) :=
  match xs with
  | [] => ret []
  | x :: xs' => y <~ f x ;~ ys <~ mapM f xs' ;~ ret (y :: ys)
  end.

(** A [for] loop that appends one value per iteration, except where the
    body takes [continue] ([None]). *)
Fixpoint collectM {A B} (f : A -> M (option B)) (xs : list A) : M (list B) :=
  match xs with
  | [] => ret []
  | x :: xs' =>
      r <~ f x ;~
      rs <~ collectM f xs' ;~
      ret (match r with Some y => y :: rs | None => rs end)
  end.

(** ** Records exchanged between the components *)

Record visual := Visual { v_path : option string }.

Record visuals_t := Visuals {
  slides : option (list visual);
  pages : option (list visual)
}.

Record section := Section_ { s_title : string }.

(** A record [{section_idx, path, duration}] of the audio segment lists. *)
Record audio_segment := AudioSegment {
  a_section_idx : Z;
  a_path : string;
  a_duration : Q
}.

Record audio_segments_t := AudioSegments {
  audio_sections : list audio_segment;
  audio_transitions : list audio_segment
}.

Record style_params := StyleParams {
  sp_complexity : option string;
  sp_transition_type : option string;
  sp_transition_duration : option Q
}.

Record section_animation := SectionAnimation {
  sa_section_idx : Z;
  sa_frames_dir : string;
  sa_frame_count : Z;
  sa_frame_paths : list string;
  sa_duration : Q;
  sa_fps : Z;
  sa_style : string
}.

Record transition_animation := TransitionAnimation {
  ta_from_section_idx : Z;
  ta_to_section_idx : Z;
  ta_frames_dir : string;
  ta_frame_count : Z;
  ta_frame_paths : list string;
  ta_duration : Q;
  ta_fps : Z;
  ta_transition_type : string
}.

Record animation_metadata := AnimationMetadata {
  md_total_duration : Q;
  md_section_count : Z;
  md_resolution : Z * Z;
  md_fps : Z
}.

Record animation_data := AnimationData {
  ad_sections : list section_animation;
  ad_transitions : list transition_animation;
  ad_style : string;
  ad_metadata : animation_metadata
}.

Record TransitionEffects := {
  te_output_resolution : Z * Z
}.

Record AnimationEngine := {
  config_ANIMATION_COMPLEXITY : option string;
  animation_style : string;
  output_resolution : Z * Z;
  fps : Z;
  animation_preset : style_params;
  temp_dir : string;
  (** [self._RESAMPLE], used as [img.resize(size, resample=self._RESAMPLE)];
      [None] when the resize raises. *)
  _RESAMPLE : image -> Z * Z -> option image
}.

(** [self.transitions = TransitionEffects(config)]: [__init__] gives it the
    [OUTPUT_RESOLUTION] of the same configuration. *)
Definition transitions (e : AnimationEngine) : TransitionEffects :=
  {| te_output_resolution := output_resolution e |}.

Definition Image_resize (e : AnimationEngine) (img : image) (size : Z * Z)
  : result image :=
  match _RESAMPLE e img size with
  | Some r => Ok r
  | None => Raise ResizeError
  end.

(** ** animation_engine.py: image caching and fitting *)

(** [_load_image]: the cached object itself is returned, not a copy. *)
Definition _load_image (path : option string) : M positive :=
  fun w =>
    match _loaded_cache w !! path with
    | Some l => (w, Ok l)
    | None =>
        (img <~ Image_open path ;~
         l <~ alloc img ;~
         fun w' =>
           (World (disk w') (heap w') (<[path := l]> (_loaded_cache w'))
                  (_fitted_cache w') (log w'), Ok l)) w
    end.

(** [min(a, b)] on floats: the first argument unless the second is smaller. *)
Definition py_min (a b : Q) : Q := if Qlt_le_dec b a then b else a.

Definition _resize_image_to_fit (e : AnimationEngine) (img : image)
  (target_size : Z * Z) : result image :=
  let '(sw, sh) := im_size img in
  let '(tw, th) := target_size in
  if (sw <=? 0) || (sh <=? 0) || (tw <=? 0) || (th <=? 0) then
    Raise (ValueError_invalid_sizes (im_size img) target_size)
  else
    let scale := py_min (inject_Z tw / inject_Z sw) (inject_Z th / inject_Z sh) in
    let nw := Z.max 1 (Py.round (inject_Z sw * scale)) in
    let nh := Z.max 1 (Py.round (inject_Z sh * scale)) in
    match (if size_eqb (nw, nh) (sw, sh) then Ok (copy img)
           else Image_resize e img (nw, nh)) with
    | Raise ex => Raise ex
    | Ok resized =>
        let canvas := Image_new RGB (tw, th) white in
        let px := (tw - nw) / 2 in
        let py := (th - nh) / 2 in
        Ok (match im_mode resized with
            | RGBA => paste canvas resized (px, py) (Some (alpha_band resized))
            | RGB => paste canvas resized (px, py) None
            end)
    end.

(** [_get_fitted_canvas]: the cache keeps [fitted]; every caller receives a
    new object made by [copy()]. *)
Definition _get_fitted_canvas (e : AnimationEngine) (path : option string)
  (target_size : Z * Z) : M positive :=
  let key := (path, fst target_size, snd target_size) in
  fun w =>
    match _fitted_cache w !! key with
    | Some cached => (img <~ deref cached ;~ alloc (copy img)) w
    | None =>
        (src <~ _load_image path ;~
         src_img <~ deref src ;~
         fitted_img <~ lift (_resize_image_to_fit e src_img target_size) ;~
         fitted <~ alloc fitted_img ;~
         _ <~ (fun w' =>
                 (World (disk w') (heap w') (_loaded_cache w')
                        (<[key := fitted]> (_fitted_cache w')) (log w'), Ok tt)) ;~
         alloc (copy fitted_img)) w
    end.

Definition _center_image (img_size target_size : Z * Z) : Z * Z :=
  let '(iw, ih) := img_size in
  let '(tw, th) := target_size in
  ((tw - iw) / 2, (th - ih) / 2).

(** ** animation_engine.py: effects *)

Definition _apply_alpha (img : image) (alpha : Z) : image :=
  let alpha := Z.max 0 (Z.min 255 alpha) in
  let img := match im_mode img with RGBA => img | RGB => convert_RGBA img end in
  Image RGBA (im_size img)
    (fun x y => let '(r, g, b, _) := getpixel img x y in (r, g, b, alpha)).

Definition _apply_zoom (e : AnimationEngine) (img : image) (zoom_factor : Q)
  : result image :=
  let '(w, h) := im_size img in
  let nw := Z.max 1 (Py.round (inject_Z w * zoom_factor)) in
  let nh := Z.max 1 (Py.round (inject_Z h * zoom_factor)) in
  match Image_resize e img (nw, nh) with
  | Raise ex => Raise ex
  | Ok resized =>
      let bg_color := match im_mode resized with
                      | RGBA => transparent_white
                      | RGB => white
                      end in
      let res := Image_new (im_mode resized) (w, h) bg_color in
      let px := (w - nw) / 2 in
      let py := (h - nh) / 2 in
      Ok (match im_mode resized with
          | RGBA => paste res resized (px, py) (Some (alpha_band resized))
          | RGB => paste res resized (px, py) None
          end)
  end.

Definition _apply_offset (img : image) (offset : Z * Z) : image :=
  let '(w, h) := im_size img in
  let bg_color := match im_mode img with
                  | RGBA => transparent_white
                  | RGB => white
                  end in
  let res := Image_new (im_mode img) (w, h) bg_color in
  match im_mode img with
  | RGBA => paste res img offset (Some (alpha_band img))
  | RGB => paste res img offset None
  end.

Definition complexity_of (sp : style_params) : string :=
  default "medium"%string (sp_complexity sp).

Definition _apply_animation_effects (e : AnimationEngine) (img : image)
  (time_pos : Q) (sp : style_params) : result image :=
  let complexity := complexity_of sp in
  if String.eqb complexity "low" then
    if Py.lt time_pos (1 # 10) then
      let alpha := Py.int (255 * (time_pos / (1 # 10)))%Q in
      Ok (_apply_alpha img alpha)
    else Ok img
  else if String.eqb complexity "medium" then
    if Py.lt time_pos (2 # 10) then
      let alpha := Py.int (255 * (time_pos / (2 # 10)))%Q in
      let img := _apply_alpha img alpha in
      let zoom_factor := ((95 # 100) + (time_pos / (2 # 10)) * (5 # 100))%Q in
      _apply_zoom e img zoom_factor
    else Ok img
  else if String.eqb complexity "high" then
    if Py.lt time_pos (3 # 10) then
      let alpha := Py.int (255 * (time_pos / (3 # 10)))%Q in
      let img := _apply_alpha img alpha in
      let zoom_factor := ((90 # 100) + (time_pos / (3 # 10)) * (10 # 100))%Q in
      match _apply_zoom e img zoom_factor with
      | Raise ex => Raise ex
      | Ok img =>
          let offset_x := Py.int (10 * (1 - time_pos / (3 # 10)))%Q in
          let offset_y := Py.int (5 * (1 - time_pos / (3 # 10)))%Q in
          Ok (_apply_offset img (offset_x, offset_y))
      end
    else Ok img
  else Ok img.

(** ** animation_engine.py: frames of a section *)

(** [os.path.join(output_dir, f"frame_{frame_idx:05d}.png")]. *)
Definition frame_file (output_dir : string) (frame_idx : Z) : string :=
  Py.path_join output_dir ("frame_" +:+ Py.fmt_05d frame_idx +:+ ".png").

(** The body of the [try] block of [_generate_frame]; its value is the image
    that the block leaves in the variable [frame]. *)
Definition _generate_frame_try (e : AnimationEngine) (visual : visual)
  (time_pos : Q) (sp : style_params) (fitted_base : option positive) : M image :=
  let path := v_path visual in
  base <~ match fitted_base with
          | Some fb => img <~ deref fb ;~ ret (copy img)
          | None =>
              l <~ _get_fitted_canvas e path (output_resolution e) ;~ deref l
          end ;~
  let img := copy base in
  img <~ lift (_apply_animation_effects e img time_pos sp) ;~
  if size_eqb (im_size img) (output_resolution e) then
    match im_mode img with
    | RGBA =>
        let bg := Image_new RGB (output_resolution e) white in
        ret (paste bg img (0, 0) (Some (alpha_band img)))
    | RGB => ret img
    end
  else
    let frame := Image_new RGB (output_resolution e) white in
    let pos := _center_image (im_size img) (output_resolution e) in
    match im_mode img with
    | RGBA => ret (paste frame img pos (Some (alpha_band img)))
    | RGB => ret (paste frame img pos None)
    end.

Definition _generate_frame (e : AnimationEngine) (visual_content : list visual)
  (time_pos : Q) (sp : style_params) (output_dir : string) (frame_idx : Z)
  (fitted_base : option positive) : M string :=
  let frame_path := frame_file output_dir frame_idx in
  let frame := Image_new RGB (output_resolution e) white in
  frame <~ match visual_content with
           | [] => ret frame
           | visual :: _ =>
               try_except
                 (_generate_frame_try e visual time_pos sp fitted_base)
                 (fun ex =>
                    _ <~ logger ERROR (Error_processing_visual_content ex) ;~
                    ret frame)
           end ;~
  _ <~ save frame_path frame ;~
  ret frame_path.

Definition _generate_section_frames (e : AnimationEngine)
  (visual_content : list visual) (audio_segment : audio_segment)
  (sp : style_params) (output_dir : string) (fitted_base : option positive)
  : M (list string) :=
  let duration := a_duration audio_segment in
  let frame_count := Z.max 1 (Py.round (duration * inject_Z (fps e))) in
  mapM (fun frame_idx =>
          let time_pos :=
            if 1 <? frame_count
            then (inject_Z frame_idx / inject_Z (frame_count - 1))%Q
            else 0%Q in
          _generate_frame e visual_content time_pos sp output_dir frame_idx
            fitted_base)
       (Py.range frame_count).

Definition _create_section_animation (e : AnimationEngine) (sec : section)
  (section_idx : Z) (visuals : list visual) (audio_segment : audio_segment)
  (sp : style_params) (fitted_base : option positive) : M section_animation :=
  try_except
    (let frames_dir :=
       Py.path_join (temp_dir e)
         ("section_" +:+ pretty (section_idx + 1) +:+ "_frames") in
     frames <~ _generate_section_frames e visuals audio_segment sp frames_dir
                 fitted_base ;~
     ret {| sa_section_idx := section_idx;
            sa_frames_dir := frames_dir;
            sa_frame_count := Z.of_nat (length frames);
            sa_frame_paths := frames;
            sa_duration := a_duration audio_segment;
            sa_fps := fps e;
            sa_style := animation_style e |})
    (fun ex =>
       _ <~ logger ERROR (Error_creating_section_animation ex) ;~ raise ex).

Definition _get_section_visuals (sec : section) (section_idx : Z)
  (visuals : visuals_t) : M (list visual) :=
  match slides visuals with
  | Some sl =>
      match (if (0 <=? section_idx) && (section_idx <? Z.of_nat (length sl))
             then sl !! Z.to_nat section_idx else None) with
      | Some v => ret [v]
      | None =>
          _ <~ logger WARNING (No_slide_found_for_section (section_idx + 1)) ;~
          ret []
      end
  | None =>
      match pages visuals with
      | Some pg =>
          match (if (0 <=? section_idx) && (section_idx <? Z.of_nat (length pg))
                 then pg !! Z.to_nat section_idx else None) with
          | Some v => ret [v]
          | None =>
              _ <~ logger WARNING (No_page_found_for_section (section_idx + 1)) ;~
              ret []
          end
      | None =>
          _ <~ logger WARNING
                 (No_visual_content_found_for_section (section_idx + 1)) ;~
          ret []
      end
  end.

(** ** transition_effects.py *)

(** [Image.open(paths[i])] when the segment has frames, a blank canvas
    otherwise; [pick] is [paths[-1]] or [paths[0]]. *)
Definition boundary_frame (te : TransitionEffects) (pick : option string)
  : M image :=
  match pick with
  | Some p => Image_open (Some p)
  | None => ret (Image_new RGB (te_output_resolution te) white)
  end.

Definition fade_transition (te : TransitionEffects)
  (from_segment to_segment : section_animation) (duration : Q) (fps : Z)
  (output_dir : string) : M (list string) :=
  try_except
    (let frame_count := Py.int (duration * inject_Z fps) in
     from_img <~ boundary_frame te (last (sa_frame_paths from_segment)) ;~
     to_img <~ boundary_frame te (head (sa_frame_paths to_segment)) ;~
     mapM (fun frame_idx =>
             let alpha :=
               if 1 <? frame_count
               then (inject_Z frame_idx / inject_Z (frame_count - 1))%Q
               else 1%Q in
             match Image_blend from_img to_img alpha with
             | None => raise ValueError_images_do_not_match
             | Some blended_frame =>
                 let frame_path := frame_file output_dir frame_idx in
                 _ <~ save frame_path blended_frame ;~
                 ret frame_path
             end)
          (Py.range frame_count))
    (fun ex => _ <~ logger ERROR (Error_creating_fade_transition ex) ;~ raise ex).

Definition slide_transition (te : TransitionEffects)
  (from_segment to_segment : section_animation) (duration : Q) (fps : Z)
  (output_dir : string) : M (list string) :=
  try_except
    (let frame_count := Py.int (duration * inject_Z fps) in
     from_img <~ boundary_frame te (last (sa_frame_paths from_segment)) ;~
     to_img <~ boundary_frame te (head (sa_frame_paths to_segment)) ;~
     let '(width, height) := te_output_resolution te in
     mapM (fun frame_idx =>
             let slide_pos :=
               if 1 <? frame_count
               then (inject_Z frame_idx / inject_Z (frame_count - 1))%Q
               else 1%Q in
             let frame := Image_new RGB (width, height) white in
             let from_x := Py.int (inject_Z (- width) * slide_pos) in
             let to_x := Py.int (inject_Z width * (1 - slide_pos)) in
             let frame := paste frame from_img (from_x, 0) None in
             let frame := paste frame to_img (to_x, 0) None in
             let frame_path := frame_file output_dir frame_idx in
             _ <~ save frame_path frame ;~
             ret frame_path)
          (Py.range frame_count))
    (fun ex => _ <~ logger ERROR (Error_creating_slide_transition ex) ;~ raise ex).

(** ** animation_engine.py: transitions and the whole run *)

Definition _create_transition_animation (e : AnimationEngine)
  (from_segment to_segment : section_animation) (sp : style_params)
  : M transition_animation :=
  try_except
    (let transition_duration := default 1%Q (sp_transition_duration sp) in
     let transition_dir :=
       Py.path_join (temp_dir e)
         ("transition_" +:+ pretty (sa_section_idx from_segment) +:+ "_to_"
          +:+ pretty (sa_section_idx to_segment) +:+ "_frames") in
     let ttype := default "fade"%string (sp_transition_type sp) in
     frames <~ (if String.eqb ttype "fade" then
                  fade_transition (transitions e) from_segment to_segment
                    transition_duration (fps e) transition_dir
                else if String.eqb ttype "slide" then
                  slide_transition (transitions e) from_segment to_segment
                    transition_duration (fps e) transition_dir
                else
                  fade_transition (transitions e) from_segment to_segment
                    transition_duration (fps e) transition_dir) ;~
     ret {| ta_from_section_idx := sa_section_idx from_segment;
            ta_to_section_idx := sa_section_idx to_segment;
            ta_frames_dir := transition_dir;
            ta_frame_count := Z.of_nat (length frames);
            ta_frame_paths := frames;
            ta_duration := transition_duration;
            ta_fps := fps e;
            ta_transition_type := ttype |})
    (fun ex =>
       _ <~ logger ERROR (Error_creating_transition_animation ex) ;~ raise ex).

(** Every preset of the catalog defines its complexity, so the lookup
    [style_params['complexity']] of the log line cannot fail. *)
Definition apply_animation_style (e : AnimationEngine) : style_params :=
  let sp := animation_preset e in
  match config_ANIMATION_COMPLEXITY e with
  | Some c =>
      if String.eqb c EmptyString then sp
      else StyleParams (Some c) (sp_transition_type sp)
             (sp_transition_duration sp)
  | None => sp
  end.

(** The base image of a section: [None] unless the first visual has a
    non-empty path that exists and can be fitted. *)
Definition prepare_fitted_base (e : AnimationEngine) (section_idx : Z)
  (visual_content : list visual) : M (option positive) :=
  match visual_content with
  | [] => ret None
  | v :: _ =>
      match v_path v with
      | None => ret None
      | Some p =>
          if String.eqb p EmptyString then ret None
          else
            ex <~ os_path_exists p ;~
            if (ex : bool) then
              try_except
                (l <~ _get_fitted_canvas e (Some p) (output_resolution e) ;~
                 ret (Some l))
                (fun err =>
                   _ <~ logger ERROR
                          (Failed_to_prepare_base_image_for_section
                             (section_idx + 1) err) ;~
                   ret None)
            else ret None
      end
  end.

(** One iteration of the first loop of [create_animations]; [None] is the
    [continue]. *)
Definition create_animations_section (e : AnimationEngine) (visuals : visuals_t)
  (audio_section_segments : list audio_segment) (sp : style_params)
  (section_idx : Z) (sec : section) : M (option section_animation) :=
  match Py.next_or_none (fun seg => a_section_idx seg =? section_idx)
          audio_section_segments with
  | None =>
      _ <~ logger WARNING (No_audio_segment_found_for_section (section_idx + 1)) ;~
      ret None
  | Some audio_segment =>
      visual_content <~ _get_section_visuals sec section_idx visuals ;~
      fitted_base <~ prepare_fitted_base e section_idx visual_content ;~
      section_animation <~
        _create_section_animation e sec section_idx visual_content
          audio_segment sp fitted_base ;~
      ret (Some section_animation)
  end.

Definition create_animations_sections (e : AnimationEngine) (visuals : visuals_t)
  (audio_section_segments : list audio_segment) (sp : style_params)
  (sections : list section) : M (list section_animation) :=
  collectM (fun '(section_idx, sec) =>
              create_animations_section e visuals audio_section_segments sp
                section_idx sec)
           (Py.enumerate sections).

(** [xs[i]]; an index outside the list is an [IndexError], which the loop of
    [create_animations] never meets. *)
Definition index {A} (xs : list A) (i : Z) : M A :=
  match (if 0 <=? i then xs !! Z.to_nat i else None) with
  | Some x => ret x
  | None => raise IndexError
  end.

Definition create_animations (e : AnimationEngine) (visuals : visuals_t)
  (content_sections : list section) (audio_segments : audio_segments_t)
  : M animation_data :=
  let sections := content_sections in
  let audio_section_segments := audio_sections audio_segments in
  let sp := apply_animation_style e in
  animation_segments <~
    create_animations_sections e visuals audio_section_segments sp sections ;~
  transition_segments <~
    mapM (fun section_idx =>
            a <~ index animation_segments section_idx ;~
            b <~ index animation_segments (section_idx + 1) ;~
            _create_transition_animation e a b sp)
         (Py.range (Z.of_nat (length animation_segments) - 1)) ;~
  ret {| ad_sections := animation_segments;
         ad_transitions := transition_segments;
         ad_style := animation_style e;
         ad_metadata :=
           {| md_total_duration := Py.sum (map sa_duration animation_segments);
              md_section_count := Z.of_nat (length animation_segments);
              md_resolution := output_resolution e;
              md_fps := fps e |} |}.

(** ** compositor.py *)

Record VideoCompositor := {
  vc_output_resolution : Z * Z;
  vc_fps : Z;
  vc_temp_dir : string
}.

Record segment_composition := SegmentComposition {
  sc_section_idx : Z;
  sc_animation : section_animation;
  sc_audio : audio_segment;
  sc_composition_file : string;
  sc_composition_dir : string;
  sc_duration : Q;
  sc_frame_count : Z;
  sc_fps : Z
}.

Record transition_composition := TransitionComposition {
  tc_transition_idx : Z;
  tc_from_section_idx : Z;
  tc_to_section_idx : Z;
  tc_animation : transition_animation;
  tc_audio : option audio_segment;
  tc_composition_file : string;
  tc_composition_dir : string;
  tc_duration : Q;
  tc_frame_count : Z;
  tc_fps : Z
}.

(** An entry of the list [composition_elements]. *)
Inductive element :=
| SegmentElement (s : segment_composition)
| TransitionElement (t : transition_composition).

Definition element_duration (el : element) : Q :=
  match el with
  | SegmentElement s => sc_duration s
  | TransitionElement t => tc_duration t
  end.

Definition element_frame_count (el : element) : Z :=
  match el with
  | SegmentElement s => sc_frame_count s
  | TransitionElement t => tc_frame_count t
  end.

Record final_composition := FinalComposition {
  fc_elements : list element;
  fc_segment_count : Z;
  fc_transition_count : Z;
  fc_total_duration : Q;
  fc_total_frame_count : Z;
  fc_composition_dir : string;
  fc_fps : Z;
  fc_resolution : Z * Z
}.

Definition _create_segment_composition (c : VideoCompositor)
  (animation : section_animation) (audio : audio_segment) (section_idx : Z)
  (output_dir : string) : segment_composition :=
  let segment_dir :=
    Py.path_join output_dir ("segment_" +:+ pretty (section_idx + 1)) in
  let composition_file := Py.path_join segment_dir "composition.json" in
  {| sc_section_idx := section_idx;
     sc_animation := animation;
     sc_audio := audio;
     sc_composition_file := composition_file;
     sc_composition_dir := segment_dir;
     sc_duration := Py.max (sa_duration animation) (a_duration audio);
     sc_frame_count := sa_frame_count animation;
     sc_fps := vc_fps c |}.

Definition _create_transition_composition (c : VideoCompositor)
  (animation : transition_animation) (audio : option audio_segment)
  (transition_idx : Z) (output_dir : string) : transition_composition :=
  let transition_dir :=
    Py.path_join output_dir ("transition_" +:+ pretty (transition_idx + 1)) in
  let composition_file := Py.path_join transition_dir "composition.json" in
  let duration :=
    match audio with
    | Some a => Py.max (ta_duration animation) (a_duration a)
    | None => ta_duration animation
    end in
  {| tc_transition_idx := transition_idx;
     tc_from_section_idx := ta_from_section_idx animation;
     tc_to_section_idx := ta_to_section_idx animation;
     tc_animation := animation;
     tc_audio := audio;
     tc_composition_file := composition_file;
     tc_composition_dir := transition_dir;
     tc_duration := duration;
     tc_frame_count := ta_frame_count animation;
     tc_fps := vc_fps c |}.

Definition assemble_video_segments (c : VideoCompositor)
  (segments : list segment_composition)
  (transitions : list transition_composition) (output_dir : string)
  : final_composition :=
  let final_dir := Py.path_join output_dir "final" in
  let segments := Py.sorted sc_section_idx segments in
  let transitions := Py.sorted tc_transition_idx transitions in
  let composition_elements :=
    match segments with
    | s0 :: _ => [SegmentElement s0]
    | [] => []
    end
    ++ flat_map (fun '(i, t) =>
                   TransitionElement t ::
                   match segments !! Z.to_nat (i + 1) with
                   | Some s => [SegmentElement s]
                   | None => []
                   end)
                (Py.enumerate transitions) in
  let total_duration := Py.sum (map element_duration composition_elements) in
  let total_frame_count :=
    Py.sumz (map element_frame_count composition_elements) in
  {| fc_elements := composition_elements;
     fc_segment_count := Z.of_nat (length segments);
     fc_transition_count := Z.of_nat (length transitions);
     fc_total_duration := total_duration;
     fc_total_frame_count := total_frame_count;
     fc_composition_dir := final_dir;
     fc_fps := vc_fps c;
     fc_resolution := vc_output_resolution c |}.

(** One iteration of the first loop of [sync_audio_with_visuals]. *)
Definition sync_section (c : VideoCompositor) (audio_sections : list audio_segment)
  (composition_dir : string) (section_idx : Z) (anim_section : section_animation)
  : M (option segment_composition) :=
  match Py.next_or_none
          (fun a => a_section_idx a =? sa_section_idx anim_section)
          audio_sections with
  | None =>
      _ <~ logger WARNING (No_audio_found_for_section (section_idx + 1)) ;~
      ret None
  | Some audio_section =>
      ret (Some (_create_segment_composition c anim_section audio_section
                   section_idx composition_dir))
  end.

(** One iteration of its second loop. *)
Definition sync_transition (c : VideoCompositor)
  (audio_transitions : list audio_segment) (composition_dir : string)
  (trans_idx : Z) (anim_trans : transition_animation)
  : M transition_composition :=
  let audio_trans :=
    Py.next_or_none
      (fun a => a_section_idx a =? ta_from_section_idx anim_trans)
      audio_transitions in
  ret (_create_transition_composition c anim_trans audio_trans trans_idx
         composition_dir).

Definition sync_audio_with_visuals (c : VideoCompositor)
  (animations : animation_data) (audio_segments : audio_segments_t)
  : M final_composition :=
  let composition_dir := Py.path_join (vc_temp_dir c) "composition" in
  let animation_sections := ad_sections animations in
  let animation_transitions := ad_transitions animations in
  segment_compositions <~
    collectM (fun '(section_idx, anim_section) =>
                sync_section c (audio_sections audio_segments) composition_dir
                  section_idx anim_section)
             (Py.enumerate animation_sections) ;~
  transition_compositions <~
    mapM (fun '(trans_idx, anim_trans) =>
            sync_transition c (audio_transitions audio_segments)
              composition_dir trans_idx anim_trans)
         (Py.enumerate animation_transitions) ;~
  ret (assemble_video_segments c segment_compositions transition_compositions
         composition_dir).

(** ** animation_engine.py: the remaining methods *)

Definition generate_slide_transitions (e : AnimationEngine)
  (animations : list section_animation) (sp : style_params)
  : M (list transition_animation) :=
  mapM (fun i =>
          a <~ index animations i ;~
          b <~ index animations (i + 1) ;~
          _create_transition_animation e a b sp)
       (Py.range (Z.of_nat (length animations) - 1)).

Definition render_animations (animations : list section_animation)
  (transitions : list transition_animation) (output_dir : string)
  : list string :=
  map sa_frames_dir animations ++ map ta_frames_dir transitions.

(** ** transition_effects.py: effects on images *)

(** [img.crop((left, top, right, bottom))] for [left <= right] and
    [top <= bottom]: the part of the box outside the image is zero. *)
Definition crop (img : image) (box : Z * Z * Z * Z) : image :=
  let '(left_, top, right_, bottom) := box in
  Image (im_mode img) (right_ - left_, bottom - top)
    (fun x y =>
       if in_box (x + left_) (y + top) 0 0 (fst (im_size img)) (snd (im_size img))
       then getpixel img (x + left_) (y + top)
       else match im_mode img with
            | RGB => (0, 0, 0, 255)
            | RGBA => (0, 0, 0, 0)
            end).

(** [zoom_effect], for a zoom factor that is not negative.  [LANCZOS] is
    [cropped.resize(size, Image.LANCZOS)], [None] when the resize raises. *)
Definition zoom_effect (LANCZOS : image -> Z * Z -> option image) (img : image)
  (zoom_factor : Q) : result image :=
  let '(width, height) := im_size img in
  let new_width := Py.int (inject_Z width * zoom_factor) in
  let new_height := Py.int (inject_Z height * zoom_factor) in
  let left_ := (width - new_width) / 2 in
  let top := (height - new_height) / 2 in
  let right_ := left_ + new_width in
  let bottom := top + new_height in
  let cropped := crop img (left_, top, right_, bottom) in
  match LANCZOS cropped (width, height) with
  | Some zoomed => Ok zoomed
  | None => Raise ResizeError
  end.

(** [_apply_opacity]: the alpha band is scaled by [opacity / 255], with the
    floor division of [a.point(lambda i: i * opacity // 255)]. *)
Definition _apply_opacity (img : image) (opacity : Z) : image :=
  let opacity := Z.max 0 (Z.min 255 opacity) in
  let img := match im_mode img with RGBA => img | RGB => convert_RGBA img end in
  Image RGBA (im_size img)
    (fun x y =>
       let '(r, g, b, a) := getpixel img x y in (r, g, b, a * opacity / 255)).

(** The WARNING records of [animation_styles.py] and of
    [create_transition_frames].  They are returned beside the value, since
    they depend on the arguments only. *)
Inductive notice :=
| Unknown_animation_style (style_name : string)
| Unknown_transition_type (transition_type : string).

(** The three loops of [create_transition_frames]. *)
Definition fade_frames (from_img to_img : image) (frame_count : Z)
  (output_dir : string) : M (list string) :=
  mapM (fun frame_idx =>
          let alpha :=
            if 1 <? frame_count
            then (inject_Z frame_idx / inject_Z (frame_count - 1))%Q
            else 1%Q in
          match Image_blend from_img to_img alpha with
          | None => raise ValueError_images_do_not_match
          | Some blended_frame =>
              let frame_path := frame_file output_dir frame_idx in
              _ <~ save frame_path blended_frame ;~
              ret frame_path
          end)
       (Py.range frame_count).

Definition slide_frames (from_img to_img : image) (frame_count : Z)
  (output_dir : string) : M (list string) :=
  let '(width, height) := im_size from_img in
  mapM (fun frame_idx =>
          let slide_pos :=
            if 1 <? frame_count
            then (inject_Z frame_idx / inject_Z (frame_count - 1))%Q
            else 1%Q in
          let frame := Image_new RGB (width, height) white in
          let from_x := Py.int (inject_Z (- width) * slide_pos) in
          let to_x := Py.int (inject_Z width * (1 - slide_pos)) in
          let frame := paste frame from_img (from_x, 0) None in
          let frame := paste frame to_img (to_x, 0) None in
          let frame_path := frame_file output_dir frame_idx in
          _ <~ save frame_path frame ;~
          ret frame_path)
       (Py.range frame_count).

Definition zoom_frames (LANCZOS : image -> Z * Z -> option image)
  (from_img to_img : image) (frame_count : Z) (output_dir : string)
  : M (list string) :=
  mapM (fun frame_idx =>
          let zoom_pos :=
            if 1 <? frame_count
            then (inject_Z frame_idx / inject_Z (frame_count - 1))%Q
            else 1%Q in
          frame <~ (if Py.lt zoom_pos (1 # 2) then
                      let zoom_factor := (1 - zoom_pos * (1 # 2))%Q in
                      frame <~ lift (zoom_effect LANCZOS from_img zoom_factor) ;~
                      let opacity := 255 - Py.int (zoom_pos * 2 * 255)%Q in
                      ret (_apply_opacity frame opacity)
                    else
                      let zoom_factor := ((1 # 2) + (zoom_pos - (1 # 2)) * 1)%Q in
                      frame <~ lift (zoom_effect LANCZOS to_img zoom_factor) ;~
                      let opacity := Py.int ((zoom_pos - (1 # 2)) * 2 * 255)%Q in
                      ret (_apply_opacity frame opacity)) ;~
          let frame_path := frame_file output_dir frame_idx in
          _ <~ save frame_path frame ;~
          ret frame_path)
       (Py.range frame_count).

(** [create_transition_frames]: the warning of the last branch, and the
    loop that runs.  The recursive call of the last branch takes the first
    branch. *)
Definition create_transition_frames (LANCZOS : image -> Z * Z -> option image)
  (from_img to_img : image) (transition_type : string) (frame_count : Z)
  (output_dir : string) : list (level * notice) * M (list string) :=
  if String.eqb transition_type "fade" then
    ([], fade_frames from_img to_img frame_count output_dir)
  else if String.eqb transition_type "slide" then
    ([], slide_frames from_img to_img frame_count output_dir)
  else if String.eqb transition_type "zoom" then
    ([], zoom_frames LANCZOS from_img to_img frame_count output_dir)
  else
    ([(WARNING, Unknown_transition_type transition_type)],
     fade_frames from_img to_img frame_count output_dir).

(** ** animation_styles.py *)

Record color_scheme := ColorScheme {
  cs_background : Z * Z * Z;
  cs_text : Z * Z * Z;
  cs_accent : Z * Z * Z
}.

(** A preset of the catalog; [zoom_factor] is absent from two of them. *)
Record preset := Preset {
  p_complexity : string;
  p_transition_type : string;
  p_transition_duration : Q;
  p_zoom_effect : bool;
  p_zoom_factor : option Q;
  p_fade_effect : bool;
  p_highlight_effect : bool;
  p_motion_effect : bool;
  p_color_scheme : color_scheme
}.

(** The entry [ANIMATION_PRESETS["standard"]]. *)
Definition standard_entry : preset :=
  Preset "medium" "fade" 1 true (Some (5 # 100)%Q) true true false
    (ColorScheme (255, 255, 255) (0, 0, 0) (41, 128, 185)).

(** The catalog, as the list of its items in the order of the source. *)
Definition ANIMATION_PRESETS : list (string * preset) :=
  [ ("standard"%string, standard_entry);
    ("minimal"%string,
     Preset "low" "fade" (8 # 10) false None true false false
       (ColorScheme (255, 255, 255) (0, 0, 0) (52, 73, 94)));
    ("dynamic"%string,
     Preset "high" "slide" (12 # 10) true (Some (1 # 10)%Q) true true true
       (ColorScheme (255, 255, 255) (0, 0, 0) (192, 57, 43)));
    ("professional"%string,
     Preset "medium" "fade" (9 # 10) true (Some (3 # 100)%Q) true true false
       (ColorScheme (250, 250, 250) (44, 62, 80) (52, 152, 219)));
    ("academic"%string,
     Preset "low" "fade" (7 # 10) false None true true false
       (ColorScheme (253, 254, 254) (40, 40, 40) (41, 128, 185)));
    ("energetic"%string,
     Preset "high" "slide" (15 # 10) true (Some (15 # 100)%Q) true true true
       (ColorScheme (255, 255, 255) (0, 0, 0) (230, 126, 34))) ].

(** [d.get(key)], and [key in d], on a dict written as the list of its items. *)
Definition dict_get {A} (d : list (string * A)) (key : string) : option A :=
  snd <$> List.find (fun kv => String.eqb (fst kv) key) d.

Definition get_animation_preset (style_name : string)
  : list (level * notice) * preset :=
  match dict_get ANIMATION_PRESETS style_name with
  | Some p => ([], p)
  | None => ([(WARNING, Unknown_animation_style style_name)], standard_entry)
  end.

(** ** config.py and the constructors of the two components *)

(** The keys of the configuration that the engine and the compositor read;
    [None] is a key that is not set. *)
Record Config := {
  OUTPUT_RESOLUTION : option (Z * Z);
  OUTPUT_FPS : option Z;
  DEFAULT_ANIMATION_STYLE : option string;
  ANIMATION_COMPLEXITY : option string
}.

Definition DEFAULT_CONFIG : Config :=
  {| OUTPUT_RESOLUTION := Some (1920, 1080);
     OUTPUT_FPS := Some 30;
     DEFAULT_ANIMATION_STYLE := Some "standard"%string;
     ANIMATION_COMPLEXITY := Some "medium"%string |}.

(** [Config(args)], as far as these keys go: [--animation-style] replaces
    the default style when it is given and not empty. *)
Definition Config_init (animation_style : option string) : Config :=
  match animation_style with
  | Some s =>
      if String.eqb s EmptyString then DEFAULT_CONFIG
      else {| OUTPUT_RESOLUTION := OUTPUT_RESOLUTION DEFAULT_CONFIG;
              OUTPUT_FPS := OUTPUT_FPS DEFAULT_CONFIG;
              DEFAULT_ANIMATION_STYLE := Some s;
              ANIMATION_COMPLEXITY := ANIMATION_COMPLEXITY DEFAULT_CONFIG |}
  | None => DEFAULT_CONFIG
  end.

(** The keys of a preset that the engine reads. *)
Definition style_params_of (p : preset) : style_params :=
  {| sp_complexity := Some (p_complexity p);
     sp_transition_type := Some (p_transition_type p);
     sp_transition_duration := Some (p_transition_duration p) |}.

(** [AnimationEngine(config)].  [created_temp_dir] is the directory that
    [create_temp_directory] makes and [resample] is Pillow's LANCZOS filter;
    the warning of [get_animation_preset] is returned beside the engine. *)
Definition AnimationEngine_init (config : Config) (created_temp_dir : string)
  (resample : image -> Z * Z -> option image)
  : list (level * notice) * AnimationEngine :=
  let style := default "standard"%string (DEFAULT_ANIMATION_STYLE config) in
  let '(warnings, p) := get_animation_preset style in
  (warnings,
   {| config_ANIMATION_COMPLEXITY := ANIMATION_COMPLEXITY config;
      animation_style := style;
      output_resolution := default (1920, 1080) (OUTPUT_RESOLUTION config);
      fps := default 30 (OUTPUT_FPS config);
      animation_preset := style_params_of p;
      temp_dir := created_temp_dir;
      _RESAMPLE := resample |}).

(** [VideoCompositor(config)]. *)
Definition VideoCompositor_init (config : Config) (created_temp_dir : string)
  : VideoCompositor :=
  {| vc_output_resolution := default (1920, 1080) (OUTPUT_RESOLUTION config);
     vc_fps := default 30 (OUTPUT_FPS config);
     vc_temp_dir := created_temp_dir |}.

(** ** main.py: steps 6 and 7 *)

(** The animations are created and then composed with the audio segments
    that they were created from. *)
Definition create_and_compose (e : AnimationEngine) (c : VideoCompositor)
  (visuals : visuals_t) (content_sections : list section)
  (audio_segments : audio_segments_t) : M final_composition :=
  animations <~ create_animations e visuals content_sections audio_segments ;~
  sync_audio_with_visuals c animations audio_segments.

(** * Auxiliary definitions for the statements *)

(** What one iteration of the first loop of [sync_audio_with_visuals]
    appends, and what it logs. *)
Definition find_audio (idx : Z) (audios : list audio_segment)
  : option audio_segment :=
  Py.next_or_none (fun a => a_section_idx a =? idx) audios.

Definition synced_section (c : VideoCompositor) (audios : list audio_segment)
  (dir : string) (item : Z * section_animation) : option segment_composition :=
  match find_audio (sa_section_idx (snd item)) audios with
  | Some a => Some (_create_segment_composition c (snd item) a (fst item) dir)
  | None => None
  end.

Definition synced_section_log (audios : list audio_segment)
  (item : Z * section_animation) : list log_record :=
  match find_audio (sa_section_idx (snd item)) audios with
  | Some _ => []
  | None => [(WARNING, No_audio_found_for_section (fst item + 1))]
  end.

Definition synced_transition (c : VideoCompositor) (audios : list audio_segment)
  (dir : string) (item : Z * transition_animation) : transition_composition :=
  _create_transition_composition c (snd item)
    (find_audio (ta_from_section_idx (snd item)) audios) (fst item) dir.

(** The duration of an element is the larger of its visual and audio
    durations; without audio it is the visual duration. *)
Definition reconciled (el : element) : Prop :=
  match el with
  | SegmentElement s =>
      sc_duration s = Py.max (sa_duration (sc_animation s)) (a_duration (sc_audio s))
  | TransitionElement t =>
      tc_duration t =
      match tc_audio t with
      | Some a => Py.max (ta_duration (tc_animation t)) (a_duration a)
      | None => ta_duration (tc_animation t)
      end
  end.

(** The transitions and the segments of an element list, in order. *)
Definition element_transitions (l : list element) : list transition_composition :=
  omap (fun el => match el with
                  | TransitionElement t => Some t
                  | SegmentElement _ => None
                  end) l.

Definition element_segments (l : list element) : list segment_composition :=
  omap (fun el => match el with
                  | SegmentElement s => Some s
                  | TransitionElement _ => None
                  end) l.

(** What the loop of [assemble_video_segments] appends for transition [i]. *)
Definition transition_step (segments : list segment_composition)
  (item : Z * transition_composition) : list element :=
  TransitionElement (snd item) ::
  match segments !! Z.to_nat (fst item + 1) with
  | Some s => [SegmentElement s]
  | None => []
  end.

(** The indices, among the first [n], that have an audio segment. *)
Definition has_audio (audios : list audio_segment) (i : Z) : bool :=
  match find_audio i audios with Some _ => true | None => false end.

Definition surviving (n : Z) (audios : list audio_segment) : list Z :=
  List.filter (has_audio audios) (Py.range n).

(** An image whose alpha is 0 at every pixel. *)
Definition fully_transparent (img : image) : Prop :=
  forall x y,
    0 <= x < fst (im_size img) -> 0 <= y < snd (im_size img) ->
    alpha_of (getpixel img x y) = 0.

(** What is used of Pillow's [resize] with a resampling filter: on a
    non-empty image and a positive size it returns an image of that size and
    of the same mode, and an image without any opacity stays so. *)
Definition pillow_resize (f : image -> Z * Z -> option image) : Prop :=
  forall img nw nh,
    0 < fst (im_size img) -> 0 < snd (im_size img) -> 0 < nw -> 0 < nh ->
    exists r,
      f img (nw, nh) = Some r /\ im_mode r = im_mode img /\
      im_size r = (nw, nh) /\ (fully_transparent img -> fully_transparent r).

(** The end of the fade-in window of each complexity tier. *)
Definition tier_threshold (tier : string) : option Q :=
  if String.eqb tier "low" then Some (1 # 10)%Q
  else if String.eqb tier "medium" then Some (2 # 10)%Q
  else if String.eqb tier "high" then Some (3 # 10)%Q
  else None.

(** Every location held by a cache has an object. *)
Definition wf_world (w : world) : Prop :=
  (forall k l, _fitted_cache w !! k = Some l -> is_Some (heap w !! l)) /\
  (forall p l, _loaded_cache w !! p = Some l -> is_Some (heap w !! l)).

(** The world after the caller has changed the image object [l] into [img]. *)
Definition mutate (l : positive) (img : image) (w : world) : world :=
  World (disk w) (<[l := img]> (heap w)) (_loaded_cache w) (_fitted_cache w)
        (log w).

(** The frame with which [_generate_frame] starts: a white canvas. *)
Definition blank_frame (e : AnimationEngine) : image :=
  Image_new RGB (output_resolution e) white.

(** Why a fitted canvas cannot be had for a pair: nothing is cached for it,
    and the source cannot be opened or cannot be fitted. *)
Definition unfittable (e : AnimationEngine) (path : option string)
  (target_size : Z * Z) (w : world) : Prop :=
  _fitted_cache w !! (path, fst target_size, snd target_size) = None /\
  match _loaded_cache w !! path with
  | Some l =>
      exists img ex,
        heap w !! l = Some img /\ _resize_image_to_fit e img target_size = Raise ex
  | None =>
      match path with
      | Some p =>
          match disk w !! p with
          | Some (ImageFile img) =>
              exists ex, _resize_image_to_fit e img target_size = Raise ex
          | _ => True
          end
      | None => True
      end
  end.

(** What every frame file holds: an RGB image of the output resolution. *)
Definition good_frame (e : AnimationEngine) (img : image) : Prop :=
  im_mode img = RGB /\ im_size img = output_resolution e.

(** From [w] to [w'] every file is as it was or holds a frame. *)
Definition disk_step (e : AnimationEngine) (w w' : world) : Prop :=
  forall p,
    disk w' !! p = disk w !! p \/
    exists img, disk w' !! p = Some (ImageFile img) /\ good_frame e img.

(** A computation that, whatever it returns, only writes frames. *)
Definition writes_frames (e : AnimationEngine) {A} (m : M A) : Prop :=
  forall w w' r, m w = (w', r) -> disk_step e w w'.

(** A computation that leaves the disk alone. *)
Definition keeps_disk {A} (m : M A) : Prop :=
  forall w w' r, m w = (w', r) -> disk w' = disk w.

(** The files [paths] hold frames. *)
Definition frames_on_disk (e : AnimationEngine) (paths : list string)
  (w : world) : Prop :=
  Forall (fun p => exists img,
            disk w !! p = Some (ImageFile img) /\ good_frame e img) paths.

(** A section animation that a transition can start from or end in: it has
    frames and they are on disk. *)
Definition section_ready (e : AnimationEngine) (w : world)
  (sa : section_animation) : Prop :=
  frames_on_disk e (sa_frame_paths sa) w /\ sa_frame_paths sa <> [].

(** A pixel with its alpha set to 255, as an RGB canvas stores it. *)
Definition opaque (p : pixel) : pixel :=
  let '(r, g, b, _) := p in (r, g, b, 255).

(** The record of the section [idx] narrated by [au], and the record of the
    transition between two section records, as the engine fills them in. *)
Definition section_record (e : AnimationEngine) (idx : Z) (au : audio_segment)
  : section_animation :=
  let dir :=
    Py.path_join (temp_dir e) ("section_" +:+ pretty (idx + 1) +:+ "_frames") in
  let n := Z.max 1 (Py.round (a_duration au * inject_Z (fps e))) in
  {| sa_section_idx := idx;
     sa_frames_dir := dir;
     sa_frame_count := n;
     sa_frame_paths := map (frame_file dir) (Py.range n);
     sa_duration := a_duration au;
     sa_fps := fps e;
     sa_style := animation_style e |}.

Definition transition_record (e : AnimationEngine) (sp : style_params)
  (a b : section_animation) : transition_animation :=
  let d := default 1%Q (sp_transition_duration sp) in
  let dir :=
    Py.path_join (temp_dir e)
      ("transition_" +:+ pretty (sa_section_idx a) +:+ "_to_"
       +:+ pretty (sa_section_idx b) +:+ "_frames") in
  let n := Py.int (d * inject_Z (fps e)) in
  {| ta_from_section_idx := sa_section_idx a;
     ta_to_section_idx := sa_section_idx b;
     ta_frames_dir := dir;
     ta_frame_count := Z.max 0 n;
     ta_frame_paths := map (frame_file dir) (Py.range n);
     ta_duration := d;
     ta_fps := fps e;
     ta_transition_type := default "fade"%string (sp_transition_type sp) |}.

(** The sections that have narration, and the transitions between each of
    them and the next. *)
Definition planned_sections (e : AnimationEngine) (n : Z)
  (audios : list audio_segment) : list section_animation :=
  omap (fun idx => section_record e idx <$> find_audio idx audios) (Py.range n).

Definition planned_transitions (e : AnimationEngine) (sp : style_params)
  (secs : list section_animation) : list transition_animation :=
  zip_with (transition_record e sp) secs (tail secs).

(** A string without the character [_]. *)
Definition no_underscore (s : string) : Prop :=
  forall a b : string, s <> a +:+ "_" +:+ b.

(** Every frame path that the records of a run name. *)
Definition run_frame_paths (d : animation_data) : list string :=
  concat (map sa_frame_paths (ad_sections d))
  ++ concat (map ta_frame_paths (ad_transitions d)).

(** The caches hold what the engine puts into them: loaded images that are
    not empty, and RGB canvases of the size of their key. *)
Definition caches_hold_images (w : world) : Prop :=
  (forall path tw th l,
     _fitted_cache w !! (path, tw, th) = Some l ->
     exists c, heap w !! l = Some c /\ im_mode c = RGB /\ im_size c = (tw, th)) /\
  (forall path l,
     _loaded_cache w !! path = Some l ->
     exists img,
       heap w !! l = Some img /\
       0 < fst (im_size img) /\ 0 < snd (im_size img)).

(** Every slide names a file that holds an image, and the image is not
    empty. *)
Definition readable_slides (sl : list visual) (w : world) : Prop :=
  Forall (fun v => exists p img,
            v_path v = Some p /\ p <> EmptyString /\
            disk w !! p = Some (ImageFile img) /\
            0 < fst (im_size img) /\ 0 < snd (im_size img)) sl.

(** A computation that leaves the image objects and the caches alone. *)
Definition keeps_objects {A} (m : M A) : Prop :=
  forall w w' r,
    m w = (w', r) ->
    heap w' = heap w /\ _loaded_cache w' = _loaded_cache w /\
    _fitted_cache w' = _fitted_cache w.

(** The record of a section without narration. *)
Definition audio_warning (i : Z) : log_record :=
  (WARNING, No_audio_segment_found_for_section (i + 1)).

(** * Concrete inputs

    Small inputs on which the definitions above are run. *)

(** A world with nothing on disk, and two sections without frames: the
    transition then runs between two blank canvases. *)
Definition empty_world : world := World ∅ ∅ ∅ ∅ [].

Definition small_effects : TransitionEffects := {| te_output_resolution := (4, 2) |}.

Definition frameless_section (idx : Z) : section_animation :=
  {| sa_section_idx := idx; sa_frames_dir := "tmp/section"; sa_frame_count := 0;
     sa_frame_paths := []; sa_duration := 0; sa_fps := 24; sa_style := "academic" |}.

Definition frames_returned (r : world * result (list string)) : option Z :=
  match snd r with
  | Ok frames => Some (Z.of_nat (length frames))
  | Raise _ => None
  end.

(** The shape that the specification gives to the element list: a first
    section, then [transition, section] pairs and nothing else. *)
Fixpoint transition_section_pairs (l : list element) : bool :=
  match l with
  | [] => true
  | TransitionElement _ :: SegmentElement _ :: l' => transition_section_pairs l'
  | _ => false
  end.

Definition first_section_then_pairs (l : list element) : bool :=
  match l with
  | SegmentElement _ :: l' => transition_section_pairs l'
  | _ => false
  end.

Definition small_compositor : VideoCompositor :=
  {| vc_output_resolution := (4, 2); vc_fps := 24; vc_temp_dir := "tmp" |}.

Definition plain_transition (i j : Z) : transition_animation :=
  {| ta_from_section_idx := i; ta_to_section_idx := j;
     ta_frames_dir := "tmp/transition"; ta_frame_count := 24;
     ta_frame_paths := []; ta_duration := 1; ta_fps := 24;
     ta_transition_type := "fade" |}.

Definition plain_audio (i : Z) : audio_segment :=
  {| a_section_idx := i; a_path := "a.mp3"; a_duration := 7 |}.

(** Three animated sections and their two transitions; the audio list handed
    to the compositor lacks the segment of section 1. *)
Definition three_sections : animation_data :=
  {| ad_sections := [frameless_section 0; frameless_section 1; frameless_section 2];
     ad_transitions := [plain_transition 0 1; plain_transition 1 2];
     ad_style := "academic";
     ad_metadata := {| md_total_duration := 0; md_section_count := 3;
                       md_resolution := (4, 2); md_fps := 24 |} |}.

Definition audio_without_section_1 : audio_segments_t :=
  {| audio_sections := [plain_audio 0; plain_audio 2]; audio_transitions := [] |}.

Definition two_segments : list segment_composition :=
  [ _create_segment_composition small_compositor (frameless_section 0)
      (plain_audio 0) 0 "tmp/composition";
    _create_segment_composition small_compositor (frameless_section 2)
      (plain_audio 2) 2 "tmp/composition" ].

Definition two_transitions : list transition_composition :=
  [ _create_transition_composition small_compositor (plain_transition 0 1) None
      0 "tmp/composition";
    _create_transition_composition small_compositor (plain_transition 1 2) None
      1 "tmp/composition" ].

Definition one_transition : list transition_composition :=
  [ _create_transition_composition small_compositor (plain_transition 0 2) None
      0 "tmp/composition" ].

(** Nearest-neighbour resampling, a stand-in for the engine's filter on the
    concrete runs. *)
Definition nearest_resample (img : image) (size : Z * Z) : option image :=
  let '(w, h) := im_size img in
  let '(nw, nh) := size in
  if (0 <? nw) && (0 <? nh) then
    Some (Image (im_mode img) size
            (fun x y => getpixel img (x * w / nw) (y * h / nh)))
  else None.

Definition minimal_preset : style_params :=
  {| sp_complexity := Some "low"%string;
     sp_transition_type := Some "fade"%string;
     sp_transition_duration := Some 1%Q |}.

Definition small_engine : AnimationEngine :=
  {| config_ANIMATION_COMPLEXITY := None;
     animation_style := "minimal";
     output_resolution := (4, 2);
     fps := 2;
     animation_preset := minimal_preset;
     temp_dir := "tmp";
     _RESAMPLE := nearest_resample |}.

Definition three_plain_sections : list section :=
  [Section_ "one"; Section_ "two"; Section_ "three"].

Definition no_visuals : visuals_t := {| slides := None; pages := None |}.

Definition one_second (i : Z) : audio_segment :=
  {| a_section_idx := i; a_path := "a.mp3"; a_duration := 1 |}.

Definition audio_for_0_and_2 : audio_segments_t :=
  {| audio_sections := [one_second 0; one_second 2]; audio_transitions := [] |}.

(** The section indices of the sections and the (from, to) pairs of the
    transitions of a finished run. *)
Definition run_summary (r : world * result animation_data)
  : option (list Z * list (Z * Z)) :=
  match snd r with
  | Ok d => Some (map sa_section_idx (ad_sections d),
                  map (fun t => (ta_from_section_idx t, ta_to_section_idx t))
                      (ad_transitions d))
  | Raise _ => None
  end.

(** A 2x2 opaque grey slide. *)
Definition grey_slide : image := Image_new RGB (2, 2) (128, 128, 128, 255).

(** A disk that holds one slide. *)
Definition one_slide_world : world :=
  World {[ "slide.png"%string := ImageFile grey_slide ]} ∅ ∅ ∅ [].

Definition black_canvas : image := Image_new RGB (4, 2) (0, 0, 0, 255).

(** A disk on which the slide is not an image. *)
Definition corrupt_slide_world : world :=
  World {[ "slide.png"%string := OtherFile ]} ∅ ∅ ∅ [].

Definition slide_visual : visual := {| v_path := Some "slide.png"%string |}.

(** The scenario of the specification: three sections of 10 s narration at
    30 fps and 1920x1080, the "standard" style (medium, fade, 1.0 s), one
    slide per section. *)
Definition standard_preset : style_params :=
  {| sp_complexity := Some "medium"%string;
     sp_transition_type := Some "fade"%string;
     sp_transition_duration := Some 1%Q |}.

Definition hd_engine : AnimationEngine :=
  {| config_ANIMATION_COMPLEXITY := Some "medium"%string;
     animation_style := "standard";
     output_resolution := (1920, 1080);
     fps := 30;
     animation_preset := standard_preset;
     temp_dir := "tmp";
     _RESAMPLE := nearest_resample |}.

Definition hd_compositor : VideoCompositor :=
  {| vc_output_resolution := (1920, 1080); vc_fps := 30; vc_temp_dir := "tmp" |}.

Definition ten_seconds (i : Z) : audio_segment :=
  {| a_section_idx := i; a_path := "a.mp3"; a_duration := 10 |}.

Definition scenario_audio : audio_segments_t :=
  {| audio_sections := [ten_seconds 0; ten_seconds 1; ten_seconds 2];
     audio_transitions := [] |}.

Definition scenario_visuals : visuals_t :=
  {| slides := Some [slide_visual; slide_visual; slide_visual]; pages := None |}.

(** Frame counts of the sections and of the transitions, and the frame count
    and duration of the final composition, of a whole run. *)
Definition scenario_summary (w : world)
  : option (list Z * list Z * Z * Q) :=
  match create_animations hd_engine scenario_visuals three_plain_sections
          scenario_audio w with
  | (w1, Ok d) =>
      match sync_audio_with_visuals hd_compositor d scenario_audio w1 with
      | (_, Ok fc) =>
          Some (map sa_frame_count (ad_sections d),
                map ta_frame_count (ad_transitions d),
                fc_total_frame_count fc, fc_total_duration fc)
      | (_, Raise _) => None
      end
  | (_, Raise _) => None
  end.

(** Two sections of one frame each, with their frames on disk, and a world
    whose heap holds a fitted base image. *)
Definition white_canvas : image := Image_new RGB (4, 2) white.

Definition black_section : section_animation :=
  {| sa_section_idx := 0; sa_frames_dir := "tmp/a"; sa_frame_count := 1;
     sa_frame_paths := ["tmp/a/frame_00000.png"%string]; sa_duration := 1;
     sa_fps := 2; sa_style := "minimal" |}.

Definition white_section : section_animation :=
  {| sa_section_idx := 1; sa_frames_dir := "tmp/b"; sa_frame_count := 1;
     sa_frame_paths := ["tmp/b/frame_00000.png"%string]; sa_duration := 1;
     sa_fps := 2; sa_style := "minimal" |}.

Definition two_frames_world : world :=
  World {[ "tmp/a/frame_00000.png"%string := ImageFile black_canvas;
           "tmp/b/frame_00000.png"%string := ImageFile white_canvas ]}
        ∅ ∅ ∅ [].

Definition based_world : world :=
  World ∅ {[ 1%positive := black_canvas ]} ∅ ∅ [].

(** An engine whose every resize raises, with the medium tier, whose fade-in
    window resizes the frame. *)
Definition failing_resample (img : image) (size : Z * Z) : option image := None.

Definition brittle_engine : AnimationEngine :=
  {| config_ANIMATION_COMPLEXITY := None;
     animation_style := "standard";
     output_resolution := (4, 2);
     fps := 2;
     animation_preset := standard_preset;
     temp_dir := "tmp";
     _RESAMPLE := failing_resample |}.

(** * Properties *)

(** ** The monad and its loops *)

Lemma bind_ok {A B} (m : M A) (k : A -> M B) w w1 a :
  m w = (w1, Ok a) -> bind m k w = k a w1.
Proof. intros H. unfold bind. now rewrite H. Qed.

Lemma bind_raise {A B} (m : M A) (k : A -> M B) w w1 ex :
  m w = (w1, Raise ex) -> bind m k w = (w1, Raise ex).
Proof. intros H. unfold bind. now rewrite H. Qed.

Lemma bind_inv_ok {A B} (m : M A) (k : A -> M B) w w2 b :
  bind m k w = (w2, Ok b) ->
  exists w1 a, m w = (w1, Ok a) /\ k a w1 = (w2, Ok b).
Proof.
  unfold bind. destruct (m w) as [w1 [a | ex]]; intros H.
  - eauto.
  - discriminate.
Qed.

Lemma try_except_ok {A} (m : M A) h w w1 a :
  m w = (w1, Ok a) -> try_except m h w = (w1, Ok a).
Proof. intros H. unfold try_except. now rewrite H. Qed.

Lemma try_except_raise {A} (m : M A) h w w1 ex :
  m w = (w1, Raise ex) -> try_except m h w = h ex w1.
Proof. intros H. unfold try_except. now rewrite H. Qed.

Lemma mapM_length {A B} (f : A -> M B) xs :
  forall w w' ys, mapM f xs w = (w', Ok ys) -> length ys = length xs.
Proof.
  induction xs as [| x xs IH]; intros w w' ys H; simpl in H.
  - inversion H. reflexivity.
  - apply bind_inv_ok in H as (w1 & y & _ & H).
    apply bind_inv_ok in H as (w2 & ys' & Hys & H).
    inversion H; subst. simpl. f_equal. eauto.
Qed.

(** A loop whose body always returns runs to its end. *)
Lemma mapM_total {A B} (f : A -> M B) xs :
  (forall x w, exists w' y, f x w = (w', Ok y)) ->
  forall w, exists w' ys, mapM f xs w = (w', Ok ys) /\ length ys = length xs.
Proof.
  intros Hf. induction xs as [| x xs IH]; intros w; simpl.
  - exists w, []. split; reflexivity.
  - destruct (Hf x w) as (w1 & y & Hy).
    destruct (IH w1) as (w2 & ys & Hys & Hlen).
    exists w2, (y :: ys). split.
    + rewrite (bind_ok _ _ _ _ _ Hy). rewrite (bind_ok _ _ _ _ _ Hys).
      reflexivity.
    + simpl. now rewrite Hlen.
Qed.

Lemma range_length n : Z.of_nat (length (Py.range n)) = Z.max 0 n.
Proof. unfold Py.range. rewrite length_map, length_seq. lia. Qed.

(** ** Section frames (C1) *)

(** [_generate_frame] never raises: whatever happens inside its [try], it
    saves a frame and returns the frame's path. *)
Lemma _generate_frame_total e vc t sp dir idx fb w :
  exists w', _generate_frame e vc t sp dir idx fb w = (w', Ok (frame_file dir idx)).
Proof.
  unfold _generate_frame. destruct vc as [| v rest].
  - eexists. reflexivity.
  - unfold bind at 1.
    destruct (try_except _ _ w) as [w1 [fr | ex]] eqn:Htry.
    + eexists. reflexivity.
    + exfalso. unfold try_except in Htry.
      destruct (_generate_frame_try e v t sp fb w) as [w0 [fr | ex0]];
        [discriminate |].
      cbv in Htry. discriminate.
Qed.

Lemma _generate_section_frames_total e vc audio sp dir fb w :
  exists w' frames,
    _generate_section_frames e vc audio sp dir fb w = (w', Ok frames) /\
    Z.of_nat (length frames)
    = Z.max 1 (Py.round (a_duration audio * inject_Z (fps e))).
Proof.
  unfold _generate_section_frames.
  set (n := Z.max 1 _).
  destruct (mapM_total
              (fun frame_idx =>
                 _generate_frame e vc
                   (if 1 <? n then (inject_Z frame_idx / inject_Z (n - 1))%Q
                    else 0%Q) sp dir frame_idx fb)
              (Py.range n)) with (w := w) as (w' & ys & Hys & Hlen).
  { intros x w0. destruct (_generate_frame_total e vc
       (if 1 <? n then (inject_Z x / inject_Z (n - 1))%Q else 0%Q)
       sp dir x fb w0) as (w1 & H1). eauto. }
  exists w', ys. split; [exact Hys |].
  rewrite Hlen, range_length. subst n. lia.
Qed.

(** C1.  For every narration duration (zero and negative ones included) and
    every frame rate, [_generate_section_frames] returns a list of exactly
    [max(1, round(duration * fps))] frame paths, where [round] is Python's
    (ties to even); [_create_section_animation] returns a record whose
    [frame_count] is the length of its [frame_paths], hence the same number. *)
Theorem C1_section_frame_count e sec section_idx vc audio sp dir fb w :
  let n := Z.max 1 (Py.round (a_duration audio * inject_Z (fps e))) in
  (exists w' frames,
     _generate_section_frames e vc audio sp dir fb w = (w', Ok frames) /\
     Z.of_nat (length frames) = n) /\
  (exists w' sa,
     _create_section_animation e sec section_idx vc audio sp fb w = (w', Ok sa) /\
     sa_frame_count sa = Z.of_nat (length (sa_frame_paths sa)) /\
     sa_frame_count sa = n).
Proof.
  intros n. split.
  - apply _generate_section_frames_total.
  - unfold _create_section_animation.
    destruct (_generate_section_frames_total e vc audio sp
                (Py.path_join (temp_dir e)
                   ("section_" +:+ pretty (section_idx + 1) +:+ "_frames"))
                fb w) as (w' & frames & Hf & Hlen).
    eexists w', _. split.
    + apply try_except_ok. rewrite (bind_ok _ _ _ _ _ Hf). reflexivity.
    + simpl. split; [reflexivity | exact Hlen].
Qed.

Example round_ties_to_even :
  Py.round (5 # 2) = 2 /\ Py.round (7 # 2) = 4 /\ Py.round (- (1 # 2)) = 0 /\
  Py.round (- (3 # 2)) = -2 /\ Py.round (4 # 10) = 0 /\ Py.int (- (3 # 2)) = -1.
Proof. repeat split; reflexivity. Qed.

(** ** Transition frames (C2) *)

Lemma int_nonneg_floor (x : Q) : (0 <= x)%Q -> Py.int x = Qfloor x.
Proof.
  destruct x as [n d]. unfold Qle, Py.int, Qfloor. simpl. intros H.
  apply Z.quot_div_nonneg; lia.
Qed.

Lemma fade_transition_length te a b d fps dir w w' frames :
  fade_transition te a b d fps dir w = (w', Ok frames) ->
  Z.of_nat (length frames) = Z.max 0 (Py.int (d * inject_Z fps)).
Proof.
  unfold fade_transition, try_except. intros H.
  match type of H with
  | (let (_, _) := ?m w in _) = _ => destruct (m w) as [w1 [r | ex]] eqn:Hm
  end.
  - inversion H; subst.
    apply bind_inv_ok in Hm as (? & from_img & _ & Hm).
    apply bind_inv_ok in Hm as (? & to_img & _ & Hm).
    apply mapM_length in Hm. rewrite Hm. apply range_length.
  - cbv in H. discriminate.
Qed.

Lemma slide_transition_length te a b d fps dir w w' frames :
  slide_transition te a b d fps dir w = (w', Ok frames) ->
  Z.of_nat (length frames) = Z.max 0 (Py.int (d * inject_Z fps)).
Proof.
  unfold slide_transition, try_except. intros H.
  match type of H with
  | (let (_, _) := ?m w in _) = _ => destruct (m w) as [w1 [r | ex]] eqn:Hm
  end.
  - inversion H; subst.
    apply bind_inv_ok in Hm as (? & from_img & _ & Hm).
    apply bind_inv_ok in Hm as (? & to_img & _ & Hm).
    destruct (te_output_resolution te) as [width height].
    apply mapM_length in Hm. rewrite Hm. apply range_length.
  - cbv in H. discriminate.
Qed.

(** Both transitions return when their two boundary frames can be opened
    (or are absent) and, for the fade, have one mode and one size. *)
Lemma slide_transition_returns te a b d fps dir w from_img to_img :
  boundary_frame te (last (sa_frame_paths a)) w = (w, Ok from_img) ->
  boundary_frame te (head (sa_frame_paths b)) w = (w, Ok to_img) ->
  exists w' frames, slide_transition te a b d fps dir w = (w', Ok frames).
Proof.
  intros Hfrom Hto. unfold slide_transition.
  destruct (te_output_resolution te) as [width height] eqn:Hres.
  set (n := Py.int (d * inject_Z fps)).
  destruct (mapM_total
              (fun frame_idx =>
                 _ <~ save (frame_file dir frame_idx)
                        (paste
                           (paste (Image_new RGB (width, height) white) from_img
                              (Py.int (inject_Z (- width)
                                       * (if 1 <? n
                                          then inject_Z frame_idx / inject_Z (n - 1)
                                          else 1)), 0) None)
                           to_img
                           (Py.int (inject_Z width
                                    * (1 - (if 1 <? n
                                            then inject_Z frame_idx / inject_Z (n - 1)
                                            else 1))), 0) None) ;~
                 ret (frame_file dir frame_idx))
              (Py.range n)) with (w := w) as (w' & frames & Hloop & _).
  { intros x w0. eexists _, _. reflexivity. }
  exists w', frames. apply try_except_ok.
  rewrite (bind_ok _ _ _ _ _ Hfrom). rewrite (bind_ok _ _ _ _ _ Hto).
  exact Hloop.
Qed.

Lemma fade_transition_returns te a b d fps dir w from_img to_img :
  boundary_frame te (last (sa_frame_paths a)) w = (w, Ok from_img) ->
  boundary_frame te (head (sa_frame_paths b)) w = (w, Ok to_img) ->
  im_mode from_img = im_mode to_img -> im_size from_img = im_size to_img ->
  exists w' frames, fade_transition te a b d fps dir w = (w', Ok frames).
Proof.
  intros Hfrom Hto Hmode Hsize. unfold fade_transition.
  set (n := Py.int (d * inject_Z fps)).
  assert (Hblend : forall alpha, exists img,
            Image_blend from_img to_img alpha = Some img).
  { intros alpha. unfold Image_blend. rewrite Hmode, Hsize.
    replace (mode_eqb (im_mode to_img) (im_mode to_img)) with true
      by (destruct (im_mode to_img); reflexivity).
    replace (size_eqb (im_size to_img) (im_size to_img)) with true
      by (unfold size_eqb; now rewrite !Z.eqb_refl).
    eauto. }
  destruct (mapM_total
              (fun frame_idx =>
                 match Image_blend from_img to_img
                         (if 1 <? n
                          then (inject_Z frame_idx / inject_Z (n - 1))%Q
                          else 1%Q) with
                 | Some blended_frame =>
                     _ <~ save (frame_file dir frame_idx) blended_frame ;~
                     ret (frame_file dir frame_idx)
                 | None => raise ValueError_images_do_not_match
                 end)
              (Py.range n)) with (w := w) as (w' & frames & Hloop & _).
  { intros x w0.
    destruct (Hblend (if 1 <? n then (inject_Z x / inject_Z (n - 1))%Q else 1%Q))
      as (img & Himg).
    rewrite Himg. eexists _, _. reflexivity. }
  exists w', frames. apply try_except_ok.
  rewrite (bind_ok _ _ _ _ _ Hfrom). rewrite (bind_ok _ _ _ _ _ Hto).
  exact Hloop.
Qed.

(** C2, as stated, fails.  The "academic" preset (0.7 s) at 24 fps gives
    [int(16.8) = 16] frames where [round(16.8) = 17] are promised; and a
    transition of duration 0 gives no frame where at least one is promised.
    The same holds for the slide transition.  (Both products are also what
    binary floating point gives: 16.799999999999997 and 0.0.) *)
Lemma C2_counterexample :
  frames_returned
    (fade_transition small_effects (frameless_section 0) (frameless_section 1)
       (7 # 10) 24 "tmp/t" empty_world) = Some 16 /\
  frames_returned
    (slide_transition small_effects (frameless_section 0) (frameless_section 1)
       (7 # 10) 24 "tmp/t" empty_world) = Some 16 /\
  Z.max 1 (Py.round ((7 # 10) * inject_Z 24)) = 17 /\
  frames_returned
    (fade_transition small_effects (frameless_section 0) (frameless_section 1)
       0 24 "tmp/t" empty_world) = Some 0 /\
  Z.max 1 (Py.round (0 * inject_Z 24)) = 1.
Proof. repeat split; vm_compute; reflexivity. Qed.

(** C2, amended.  For a duration [d >= 0] and [fps > 0], a transition that
    [fade_transition] or [slide_transition] returns has exactly
    [int(d * fps)] frames, the product truncated (its floor), not rounded;
    no minimum is imposed, so the count is at least 1 exactly when
    [d * fps >= 1]. *)
Theorem C2_transition_frame_count te a b (d : Q) fps dir w w' frames :
  (0 <= d)%Q -> 0 < fps ->
  fade_transition te a b d fps dir w = (w', Ok frames) \/
  slide_transition te a b d fps dir w = (w', Ok frames) ->
  Z.of_nat (length frames) = Py.int (d * inject_Z fps) /\
  Py.int (d * inject_Z fps) = Qfloor (d * inject_Z fps) /\
  (1 <= Z.of_nat (length frames) <-> (1 <= d * inject_Z fps)%Q).
Proof.
  intros Hd Hfps H.
  assert (Hx : (0 <= d * inject_Z fps)%Q).
  { apply Qmult_le_0_compat; [exact Hd |].
    unfold Qle, inject_Z; simpl. lia. }
  assert (Hlen : Z.of_nat (length frames) = Z.max 0 (Py.int (d * inject_Z fps))).
  { destruct H as [H | H];
      [eapply fade_transition_length | eapply slide_transition_length]; eauto. }
  pose proof (int_nonneg_floor _ Hx) as Hint.
  assert (Hfl : 0 <= Qfloor (d * inject_Z fps)).
  { change 0 with (Qfloor 0). apply Qfloor_resp_le. exact Hx. }
  rewrite Hlen, Hint. repeat split; try lia.
  - intros H1. rewrite Z.max_r in H1 by lia.
    eapply Qle_trans; [| apply Qfloor_le].
    change 1%Q with (inject_Z 1). rewrite <- Zle_Qle. exact H1.
  - intros H1. rewrite Z.max_r by lia.
    change 1 with (Qfloor 1). apply Qfloor_resp_le. exact H1.
Qed.

Lemma C2_transition_frame_count_witness :
  exists w' frames,
    fade_transition small_effects (frameless_section 0) (frameless_section 1)
      (7 # 10) 24 "tmp/t" empty_world = (w', Ok frames) /\
    Z.of_nat (length frames) = Py.int ((7 # 10) * inject_Z 24).
Proof.
  eexists _, _. split.
  - vm_compute. reflexivity.
  - eapply (C2_transition_frame_count small_effects (frameless_section 0)
              (frameless_section 1) (7 # 10) 24 "tmp/t" empty_world).
    + unfold Qle; simpl; lia.
    + lia.
    + left. vm_compute. reflexivity.
Defined.

(** ** Logging *)

Lemma add_log_nil w : add_log w [] = w.
Proof. destruct w. unfold add_log. simpl. now rewrite app_nil_r. Qed.

Lemma add_log_app w a b : add_log (add_log w a) b = add_log w (a ++ b).
Proof. unfold add_log. simpl. now rewrite app_assoc. Qed.

Lemma collectM_logged {A B} (f : A -> M (option B)) (g : A -> option B)
  (msgs : A -> list log_record) :
  (forall x w, f x w = (add_log w (msgs x), Ok (g x))) ->
  forall xs w,
    collectM f xs w = (add_log w (flat_map msgs xs), Ok (omap g xs)).
Proof.
  intros Hf. induction xs as [| x xs IH]; intros w; simpl.
  - now rewrite add_log_nil.
  - rewrite (bind_ok _ _ _ _ _ (Hf x w)).
    rewrite (bind_ok _ _ _ _ _ (IH _)).
    rewrite add_log_app. unfold ret. destruct (g x); reflexivity.
Qed.

Lemma mapM_pure {A B} (f : A -> M B) (g : A -> B) :
  (forall x w, f x w = (w, Ok (g x))) ->
  forall xs w, mapM f xs w = (w, Ok (map g xs)).
Proof.
  intros Hf. induction xs as [| x xs IH]; intros w; simpl.
  - reflexivity.
  - rewrite (bind_ok _ _ _ _ _ (Hf x w)).
    rewrite (bind_ok _ _ _ _ _ (IH _)). reflexivity.
Qed.

(** ** Lists: enumeration and the stable sort *)

Lemma combine_seq_imap {A} (l : list A) k :
  combine (map Z.of_nat (seq k (length l))) l
  = imap (fun i x => (Z.of_nat (k + i), x)) l.
Proof.
  revert k. induction l as [| x l IH]; intros k; simpl.
  - reflexivity.
  - rewrite Nat.add_0_r. f_equal. rewrite IH.
    apply imap_ext. intros i y _. simpl. do 2 f_equal. lia.
Qed.

Lemma enumerate_imap {A} (l : list A) :
  Py.enumerate l = imap (fun i x => (Z.of_nat i, x)) l.
Proof.
  unfold Py.enumerate, Py.range. rewrite Nat2Z.id. apply combine_seq_imap.
Qed.

Lemma enumerate_spec {A} (l : list A) k a :
  (k, a) ∈ Py.enumerate l <-> 0 <= k /\ l !! Z.to_nat k = Some a.
Proof.
  rewrite enumerate_imap, elem_of_lookup_imap. split.
  - intros (i & y & Heq & Hl). inversion Heq; subst.
    rewrite Nat2Z.id. split; [lia | exact Hl].
  - intros [Hk Hl]. exists (Z.to_nat k), a. split; [| exact Hl].
    f_equal. lia.
Qed.

Lemma insert_by_perm {A} (key : A -> Z) x l :
  Permutation (Py.insert_by key x l) (x :: l).
Proof.
  induction l as [| y l IH]; simpl.
  - reflexivity.
  - destruct (key x <=? key y).
    + reflexivity.
    + rewrite IH. apply perm_swap.
Qed.

Lemma sorted_perm {A} (key : A -> Z) l : Permutation (Py.sorted key l) l.
Proof.
  induction l as [| x l IH]; simpl.
  - reflexivity.
  - rewrite insert_by_perm. now rewrite IH.
Qed.

Lemma insert_by_sorted {A} (key : A -> Z) x l :
  Sorted (fun a b => key a <= key b) l ->
  Sorted (fun a b => key a <= key b) (Py.insert_by key x l).
Proof.
  induction 1 as [| y l Hs IH Hhd]; simpl.
  - repeat constructor.
  - destruct (key x <=? key y) eqn:Hxy.
    + constructor; [constructor; assumption |].
      constructor. lia.
    + constructor; [exact IH |].
      destruct Hhd as [| z l Hyz]; simpl.
      * constructor. lia.
      * destruct (key x <=? key z); constructor; lia.
Qed.

Lemma sorted_sorted {A} (key : A -> Z) l :
  Sorted (fun a b => key a <= key b) (Py.sorted key l).
Proof.
  induction l as [| x l IH]; simpl.
  - constructor.
  - now apply insert_by_sorted.
Qed.

Lemma sorted_length {A} (key : A -> Z) (l : list A) :
  length (Py.sorted key l) = length l.
Proof. apply Permutation_length, sorted_perm. Qed.

(** ** The compositor: reconciled durations (C7) *)

Lemma max_spec (a b : Q) :
  (a <= Py.max a b)%Q /\ (b <= Py.max a b)%Q /\
  (Py.max a b = a \/ Py.max a b = b).
Proof.
  unfold Py.max. destruct (Qlt_le_dec a b) as [Hlt | Hle].
  - split; [apply Qlt_le_weak, Hlt |]. split; [apply Qle_refl | now right].
  - split; [apply Qle_refl |]. split; [exact Hle | now left].
Qed.

(** [sync_audio_with_visuals] never raises; its result and its log are
    these. *)
Lemma sync_audio_with_visuals_eq c anims audios w :
  let dir := Py.path_join (vc_temp_dir c) "composition" in
  sync_audio_with_visuals c anims audios w
  = (add_log w
       (flat_map (synced_section_log (audio_sections audios))
          (Py.enumerate (ad_sections anims))),
     Ok (assemble_video_segments c
           (omap (synced_section c (audio_sections audios) dir)
              (Py.enumerate (ad_sections anims)))
           (map (synced_transition c (audio_transitions audios) dir)
              (Py.enumerate (ad_transitions anims)))
           dir)).
Proof.
  intros dir. unfold sync_audio_with_visuals. fold dir.
  erewrite bind_ok; cycle 1.
  { apply (collectM_logged _ (synced_section c (audio_sections audios) dir)
             (synced_section_log (audio_sections audios))).
    intros [i a] w0. unfold sync_section, synced_section, synced_section_log,
      find_audio. simpl.
    destruct (Py.next_or_none _ _).
    - unfold ret. now rewrite add_log_nil.
    - reflexivity. }
  erewrite bind_ok; cycle 1.
  { apply (mapM_pure _ (synced_transition c (audio_transitions audios) dir)).
    intros [j t] w0. reflexivity. }
  reflexivity.
Qed.

Lemma elements_of_assemble c segs trans dir el :
  el ∈ fc_elements (assemble_video_segments c segs trans dir) ->
  (exists s, el = SegmentElement s /\ s ∈ segs) \/
  (exists t, el = TransitionElement t /\ t ∈ trans).
Proof.
  unfold assemble_video_segments. simpl.
  pose proof (sorted_perm sc_section_idx segs) as Hs.
  pose proof (sorted_perm tc_transition_idx trans) as Ht.
  rewrite elem_of_app. intros [H | H].
  - left. destruct (Py.sorted sc_section_idx segs) as [| s0 rest] eqn:E.
    + inversion H.
    + apply list_elem_of_singleton in H. subst. exists s0. split; [reflexivity |].
      rewrite <- Hs. left.
  - apply list_elem_of_In, in_flat_map in H as ([i t] & Hit & Hin).
    apply list_elem_of_In, enumerate_spec in Hit as [_ Hit].
    destruct Hin as [Hin | Hin].
    + right. exists t. split; [now symmetry |].
      rewrite <- Ht. eapply list_elem_of_lookup_2, Hit.
    + left. destruct (Py.sorted sc_section_idx segs !! Z.to_nat (i + 1))
        as [s |] eqn:E; [| inversion Hin].
      destruct Hin as [Hin | []]. exists s. split; [now symmetry |].
      rewrite <- Hs. eapply list_elem_of_lookup_2, E.
Qed.

Lemma transitions_in_assemble c segs trans dir t :
  t ∈ trans ->
  TransitionElement t ∈ fc_elements (assemble_video_segments c segs trans dir).
Proof.
  intros Ht. unfold assemble_video_segments. simpl.
  rewrite elem_of_app. right.
  rewrite <- (sorted_perm tc_transition_idx trans) in Ht.
  apply list_elem_of_lookup_1 in Ht as [i Hi].
  apply list_elem_of_In, in_flat_map. exists (Z.of_nat i, t). split.
  - apply list_elem_of_In, enumerate_spec. rewrite Nat2Z.id. split; [lia | exact Hi].
  - left. reflexivity.
Qed.

(** C7.  The duration of a segment composition is [max] of the animation's
    and the audio's durations; that of a transition composition is the same
    [max] when audio was matched and the animation's duration otherwise; in
    each case it is no less than either input.  Every element of the
    composition returned by [sync_audio_with_visuals] has such a duration. *)
Theorem C7_duration_reconciled c :
  (forall anim audio idx dir,
     let s := _create_segment_composition c anim audio idx dir in
     sc_duration s = Py.max (sa_duration anim) (a_duration audio) /\
     (sa_duration anim <= sc_duration s)%Q /\
     (a_duration audio <= sc_duration s)%Q /\
     (sc_duration s = sa_duration anim \/ sc_duration s = a_duration audio)) /\
  (forall anim audio idx dir,
     let t := _create_transition_composition c anim (Some audio) idx dir in
     tc_duration t = Py.max (ta_duration anim) (a_duration audio) /\
     (ta_duration anim <= tc_duration t)%Q /\
     (a_duration audio <= tc_duration t)%Q /\
     (tc_duration t = ta_duration anim \/ tc_duration t = a_duration audio)) /\
  (forall anim idx dir,
     tc_duration (_create_transition_composition c anim None idx dir)
     = ta_duration anim) /\
  (forall anims audios w,
     exists w' fc,
       sync_audio_with_visuals c anims audios w = (w', Ok fc) /\
       Forall reconciled (fc_elements fc)).
Proof.
  repeat split; try reflexivity; simpl;
    try (apply max_spec).
  intros anims audios w. eexists _, _. split.
  - apply sync_audio_with_visuals_eq.
  - apply Forall_forall. intros el Hel.
    apply elements_of_assemble in Hel as [(s & -> & Hs) | (t & -> & Ht)].
    + apply list_elem_of_omap in Hs as ([i a] & _ & Hs).
      unfold synced_section in Hs. simpl in Hs.
      destruct (find_audio _ _); inversion Hs; subst. reflexivity.
    + apply list_elem_of_fmap in Ht as ([j ta] & -> & _). reflexivity.
Qed.

(** ** The compositor: sections need audio, transitions do not (C8) *)

Lemma find_audio_none idx audios :
  find_audio idx audios = None <->
  forall a, a ∈ audios -> a_section_idx a <> idx.
Proof.
  unfold find_audio, Py.next_or_none. split.
  - intros H a Ha Heq. apply list_elem_of_In in Ha.
    pose proof (find_none _ _ H a Ha) as Hf. simpl in Hf. lia.
  - intros H. destruct (find _ audios) as [a |] eqn:E; [| reflexivity].
    apply find_some in E as [Hin Heq]. apply list_elem_of_In in Hin.
    specialize (H a Hin). lia.
Qed.

Lemma find_audio_some idx audios a :
  find_audio idx audios = Some a -> a ∈ audios /\ a_section_idx a = idx.
Proof.
  unfold find_audio, Py.next_or_none. intros H.
  apply find_some in H as [Hin Heq]. split; [now apply list_elem_of_In | lia].
Qed.

(** C8.  Audio is matched by equality of [section_idx] (the first such
    segment).  [sync_audio_with_visuals] never raises.  A section whose
    [section_idx] has no audio segment is skipped: a warning is logged and no
    segment element carries its position.  A transition whose
    [from_section_idx] has no audio still yields its element, with no audio.
    In [create_animations] too, a section without audio costs a warning and
    yields nothing. *)
Theorem C8_audio_matching c anims audios w :
  exists w' fc,
    sync_audio_with_visuals c anims audios w = (w', Ok fc) /\
    (forall (i : nat) a,
       ad_sections anims !! i = Some a ->
       (forall au, au ∈ audio_sections audios ->
                   a_section_idx au <> sa_section_idx a) ->
       (WARNING, No_audio_found_for_section (Z.of_nat i + 1)) ∈ log w' /\
       forall s, SegmentElement s ∈ fc_elements fc ->
                 sc_section_idx s <> Z.of_nat i) /\
    (forall (j : nat) t,
       ad_transitions anims !! j = Some t ->
       (forall au, au ∈ audio_transitions audios ->
                   a_section_idx au <> ta_from_section_idx t) ->
       exists tc,
         TransitionElement tc ∈ fc_elements fc /\
         tc_transition_idx tc = Z.of_nat j /\ tc_animation tc = t /\
         tc_audio tc = None) /\
    (forall s, SegmentElement s ∈ fc_elements fc ->
               sc_audio s ∈ audio_sections audios /\
               a_section_idx (sc_audio s) = sa_section_idx (sc_animation s)) /\
    (forall tc au, TransitionElement tc ∈ fc_elements fc ->
                   tc_audio tc = Some au ->
                   au ∈ audio_transitions audios /\
                   a_section_idx au = ta_from_section_idx (tc_animation tc)) /\
    (forall e visuals sp idx sec w0,
       (forall au, au ∈ audio_sections audios -> a_section_idx au <> idx) ->
       create_animations_section e visuals (audio_sections audios) sp idx sec w0
       = (add_log w0 [(WARNING, No_audio_segment_found_for_section (idx + 1))],
          Ok None)).
Proof.
  eexists _, _. split; [apply sync_audio_with_visuals_eq |].
  set (dir := Py.path_join (vc_temp_dir c) "composition").
  assert (Hseg : forall s,
    SegmentElement s ∈ fc_elements
      (assemble_video_segments c
         (omap (synced_section c (audio_sections audios) dir)
            (Py.enumerate (ad_sections anims)))
         (map (synced_transition c (audio_transitions audios) dir)
            (Py.enumerate (ad_transitions anims))) dir) ->
    exists i a au,
      ad_sections anims !! Z.to_nat i = Some a /\ 0 <= i /\
      find_audio (sa_section_idx a) (audio_sections audios) = Some au /\
      s = _create_segment_composition c a au i dir).
  { intros s Hs.
    apply elements_of_assemble in Hs as [(s' & Heq & Hs) | (t & Heq & _)];
      [| discriminate].
    inversion Heq; subst s'.
    apply list_elem_of_omap in Hs as ([i a] & Hin & Hs).
    apply enumerate_spec in Hin as [Hi Hl].
    unfold synced_section in Hs. simpl in Hs.
    destruct (find_audio _ _) as [au |] eqn:E; inversion Hs; subst.
    exists i, a, au. auto. }
  assert (Htr : forall tc,
    TransitionElement tc ∈ fc_elements
      (assemble_video_segments c
         (omap (synced_section c (audio_sections audios) dir)
            (Py.enumerate (ad_sections anims)))
         (map (synced_transition c (audio_transitions audios) dir)
            (Py.enumerate (ad_transitions anims))) dir) ->
    exists j t, tc = synced_transition c (audio_transitions audios) dir (j, t)).
  { intros tc Ht.
    apply elements_of_assemble in Ht as [(s' & Heq & _) | (t & Heq & Ht)];
      [discriminate |].
    inversion Heq; subst t.
    apply list_elem_of_fmap in Ht as ([j t] & -> & _). eauto. }
  split; [| split; [| split; [| split]]].
  - intros i a Hl Hno. apply find_audio_none in Hno. split.
    + simpl. apply elem_of_app. right.
      apply list_elem_of_In, in_flat_map. exists (Z.of_nat i, a). split.
      * apply list_elem_of_In, enumerate_spec. rewrite Nat2Z.id.
        split; [lia | exact Hl].
      * unfold synced_section_log. simpl. rewrite Hno. now left.
    + intros s Hs Heq.
      apply Hseg in Hs as (k & a' & au & Hl' & Hk & Hau & ->).
      simpl in Heq. subst k. rewrite Nat2Z.id in Hl'.
      rewrite Hl in Hl'. inversion Hl'; subst. congruence.
  - intros j t Hl Hno. apply find_audio_none in Hno.
    exists (synced_transition c (audio_transitions audios) dir (Z.of_nat j, t)).
    split; [| unfold synced_transition; simpl; rewrite Hno; auto].
    apply transitions_in_assemble, list_elem_of_fmap.
    exists (Z.of_nat j, t). split; [reflexivity |].
    apply enumerate_spec. rewrite Nat2Z.id. split; [lia | exact Hl].
  - intros s Hs. apply Hseg in Hs as (k & a' & au & _ & _ & Hau & ->).
    simpl. now apply find_audio_some in Hau.
  - intros tc au Ht Hau. apply Htr in Ht as (j & t & ->).
    unfold synced_transition in Hau. simpl in Hau.
    now apply find_audio_some in Hau.
  - intros e visuals sp idx sec w0 Hno. apply find_audio_none in Hno.
    unfold create_animations_section. unfold find_audio in Hno.
    now rewrite Hno.
Qed.

Lemma C8_audio_matching_witness :
  exists w' fc,
    sync_audio_with_visuals small_compositor three_sections
      audio_without_section_1 empty_world = (w', Ok fc) /\
    (WARNING, No_audio_found_for_section 2) ∈ log w' /\
    (forall s, SegmentElement s ∈ fc_elements fc -> sc_section_idx s <> 1) /\
    (exists tc,
       TransitionElement tc ∈ fc_elements fc /\ tc_transition_idx tc = 0 /\
       tc_animation tc = plain_transition 0 1 /\ tc_audio tc = None).
Proof.
  destruct (C8_audio_matching small_compositor three_sections
              audio_without_section_1 empty_world)
    as (w' & fc & Hsync & Hsec & Htr & _).
  exists w', fc. split; [exact Hsync |].
  destruct (Hsec 1%nat (frameless_section 1) eq_refl) as [Hlog Hnone].
  { intros au Hau. simpl in Hau.
    apply elem_of_cons in Hau as [-> | Hau]; [discriminate |].
    apply elem_of_cons in Hau as [-> | Hau]; [discriminate |].
    inversion Hau. }
  split; [exact Hlog |]. split; [exact Hnone |].
  apply (Htr 0%nat (plain_transition 0 1) eq_refl).
  intros au Hau. inversion Hau.
Defined.

(** ** The compositor: order of the elements and totals (C9) *)

Lemma assemble_elements_eq c segs trans dir :
  let ss := Py.sorted sc_section_idx segs in
  let ts := Py.sorted tc_transition_idx trans in
  fc_elements (assemble_video_segments c segs trans dir)
  = match ss with s0 :: _ => [SegmentElement s0] | [] => [] end
    ++ flat_map (transition_step ss) (imap (fun i t => (Z.of_nat i, t)) ts).
Proof.
  intros ss ts. unfold assemble_video_segments. simpl. fold ss ts.
  rewrite enumerate_imap. f_equal.
  apply flat_map_ext. intros [i t]. reflexivity.
Qed.

Lemma imap_shift {A} (k : nat) (l : list A) :
  imap ((fun i x => (Z.of_nat (k + i), x)) ∘ S) l
  = imap (fun i x => (Z.of_nat (S k + i), x)) l.
Proof. apply imap_ext. intros i x _. simpl. do 2 f_equal. lia. Qed.

Lemma step_lookup (ss : list segment_composition) k t :
  transition_step ss (Z.of_nat (k + 0), t)
  = TransitionElement t ::
    match ss !! S k with Some s => [SegmentElement s] | None => [] end.
Proof.
  unfold transition_step. simpl.
  replace (Z.to_nat (Z.of_nat (k + 0) + 1)) with (S k) by lia. reflexivity.
Qed.

Lemma steps_paired ss ts : forall k,
  length (drop (S k) ss) = length ts ->
  flat_map (transition_step ss) (imap (fun i t => (Z.of_nat (k + i), t)) ts)
  = concat (zip_with (fun t s => [TransitionElement t; SegmentElement s])
              ts (drop (S k) ss)).
Proof.
  induction ts as [| t ts IH]; intros k Hlen.
  - reflexivity.
  - destruct (drop (S k) ss) as [| s rest] eqn:Hd; [discriminate |].
    assert (Hl : ss !! S k = Some s).
    { rewrite <- (Nat.add_0_r (S k)), <- lookup_drop, Hd. reflexivity. }
    rewrite (drop_S _ _ _ Hl) in Hd. inversion Hd as [Hrest].
    cbn [imap flat_map zip_with concat].
    rewrite step_lookup, Hl, imap_shift, IH.
    + reflexivity.
    + rewrite Hrest. simpl in Hlen. lia.
Qed.

Lemma element_transitions_cons el l :
  element_transitions (el :: l)
  = match el with
    | TransitionElement t => t :: element_transitions l
    | SegmentElement _ => element_transitions l
    end.
Proof. destruct el; reflexivity. Qed.

Lemma element_segments_cons el l :
  element_segments (el :: l)
  = match el with
    | SegmentElement s => s :: element_segments l
    | TransitionElement _ => element_segments l
    end.
Proof. destruct el; reflexivity. Qed.

Lemma steps_transitions ss ts : forall k,
  element_transitions
    (flat_map (transition_step ss) (imap (fun i t => (Z.of_nat (k + i), t)) ts))
  = ts.
Proof.
  induction ts as [| t ts IH]; intros k.
  - reflexivity.
  - cbn [imap flat_map]. rewrite step_lookup, imap_shift.
    destruct (ss !! S k); cbn [app];
      rewrite ?element_transitions_cons, IH; reflexivity.
Qed.

Lemma steps_segments ss ts : forall k,
  element_segments
    (flat_map (transition_step ss) (imap (fun i t => (Z.of_nat (k + i), t)) ts))
  = take (length ts) (drop (S k) ss).
Proof.
  induction ts as [| t ts IH]; intros k.
  - reflexivity.
  - cbn [imap flat_map]. rewrite step_lookup, imap_shift.
    destruct (ss !! S k) as [s |] eqn:Hl; cbn [app];
      rewrite ?element_segments_cons, IH.
    + rewrite (drop_S _ _ _ Hl). reflexivity.
    + apply lookup_ge_None in Hl.
      rewrite !drop_ge by lia. now rewrite !take_nil.
Qed.

Lemma pairs_shape ts : forall rest,
  transition_section_pairs
    (concat (zip_with (fun t s => [TransitionElement t; SegmentElement s])
               ts rest)) = true.
Proof.
  induction ts as [| t ts IH]; intros [| s rest]; simpl; auto.
Qed.

(** Whatever the two lengths are, every transition is kept, in sorted order,
    and the segments kept are the first [len(transitions) + 1] sorted ones. *)
Lemma assemble_elements_general c segs trans dir :
  let fc := assemble_video_segments c segs trans dir in
  element_transitions (fc_elements fc) = Py.sorted tc_transition_idx trans /\
  element_segments (fc_elements fc)
  = take (S (length trans)) (Py.sorted sc_section_idx segs).
Proof.
  intros fc. subst fc. rewrite assemble_elements_eq.
  pose proof (steps_transitions (Py.sorted sc_section_idx segs)
                (Py.sorted tc_transition_idx trans) 0) as Ht.
  pose proof (steps_segments (Py.sorted sc_section_idx segs)
                (Py.sorted tc_transition_idx trans) 0) as Hs.
  rewrite sorted_length in Hs. simpl in Ht, Hs.
  unfold element_transitions, element_segments in *.
  rewrite !omap_app, Ht, Hs.
  destruct (Py.sorted sc_section_idx segs) as [| s0 rest]; simpl.
  - split; [reflexivity |]. now rewrite take_nil.
  - split; [reflexivity |]. now rewrite drop_0.
Qed.

(** C9, as stated, fails.  With two segments (the section between them was
    skipped for lack of audio) and two transitions the list is segment,
    transition, segment, transition: its last transition is followed by no
    section.  [sync_audio_with_visuals] passes exactly these lists. *)
Lemma C9_counterexample :
  let fc := assemble_video_segments small_compositor two_segments
              two_transitions "tmp/composition" in
  fc_elements fc
  = [SegmentElement (_create_segment_composition small_compositor
                       (frameless_section 0) (plain_audio 0) 0 "tmp/composition");
     TransitionElement (_create_transition_composition small_compositor
                          (plain_transition 0 1) None 0 "tmp/composition");
     SegmentElement (_create_segment_composition small_compositor
                       (frameless_section 2) (plain_audio 2) 2 "tmp/composition");
     TransitionElement (_create_transition_composition small_compositor
                          (plain_transition 1 2) None 1 "tmp/composition")] /\
  first_section_then_pairs (fc_elements fc) = false /\
  snd (sync_audio_with_visuals small_compositor three_sections
         audio_without_section_1 empty_world) = Ok fc.
Proof. repeat split; vm_compute; reflexivity. Qed.

(** C9, amended.  When there is exactly one more segment than there are
    transitions, [assemble_video_segments] returns the first segment followed
    by strictly alternating [transition, segment] pairs, the segments taken
    in the order of the stable sort by [section_idx] and the transitions in
    that of the stable sort by [transition_idx]; [total_duration] is the sum
    of the elements' durations and [total_frame_count] the sum of their frame
    counts. *)
Theorem C9_assemble_order c segs trans dir :
  length segs = S (length trans) ->
  let fc := assemble_video_segments c segs trans dir in
  let ss := Py.sorted sc_section_idx segs in
  let ts := Py.sorted tc_transition_idx trans in
  Permutation ss segs /\
  Sorted (fun a b => sc_section_idx a <= sc_section_idx b) ss /\
  Permutation ts trans /\
  Sorted (fun a b => tc_transition_idx a <= tc_transition_idx b) ts /\
  (exists s0 rest,
     ss = s0 :: rest /\
     fc_elements fc
     = SegmentElement s0 ::
       concat (zip_with (fun t s => [TransitionElement t; SegmentElement s])
                 ts rest)) /\
  first_section_then_pairs (fc_elements fc) = true /\
  fc_total_duration fc = Py.sum (map element_duration (fc_elements fc)) /\
  fc_total_frame_count fc = Py.sumz (map element_frame_count (fc_elements fc)).
Proof.
  intros Hlen fc ss ts.
  assert (Hshape : exists s0 rest,
     ss = s0 :: rest /\
     fc_elements fc
     = SegmentElement s0 ::
       concat (zip_with (fun t s => [TransitionElement t; SegmentElement s])
                 ts rest)).
  { subst fc. rewrite assemble_elements_eq. fold ss ts.
    assert (Hss : length ss = S (length ts)).
    { subst ss ts. now rewrite !sorted_length. }
    destruct ss as [| s0 rest] eqn:Ess; [discriminate |].
    exists s0, rest. split; [reflexivity |].
    pose proof (steps_paired (s0 :: rest) ts 0) as Hp.
    simpl in Hp. rewrite drop_0 in Hp. rewrite Hp; [reflexivity |].
    simpl in Hss. lia. }
  split; [apply sorted_perm |].
  split; [apply sorted_sorted |].
  split; [apply sorted_perm |].
  split; [apply sorted_sorted |].
  split; [exact Hshape |].
  split; [| split; reflexivity].
  destruct Hshape as (s0 & rest & _ & ->). simpl. apply pairs_shape.
Qed.

Lemma C9_assemble_order_witness :
  length two_segments = S (length one_transition) /\
  first_section_then_pairs
    (fc_elements (assemble_video_segments small_compositor two_segments
                    one_transition "tmp/composition")) = true.
Proof.
  split; [reflexivity |].
  apply (C9_assemble_order small_compositor two_segments one_transition
           "tmp/composition").
  reflexivity.
Defined.

(** ** Effects at the two ends of the fade-in window (C4) *)

Lemma nearest_resample_pillow : pillow_resize nearest_resample.
Proof.
  intros img nw nh Hw Hh Hnw Hnh. unfold nearest_resample.
  destruct (im_size img) as [w h] eqn:Hsize. simpl in Hw, Hh.
  replace ((0 <? nw) && (0 <? nh)) with true
    by (symmetry; apply andb_true_iff; split; apply Z.ltb_lt; assumption).
  eexists. split; [reflexivity |]. split; [reflexivity |].
  split; [reflexivity |].
  intros Htr x y Hx Hy. simpl in *. apply Htr; rewrite Hsize; simpl.
  - split; [apply Z.div_pos; nia | apply Z.div_lt_upper_bound; nia].
  - split; [apply Z.div_pos; nia | apply Z.div_lt_upper_bound; nia].
Qed.

Lemma _apply_alpha_zero img :
  im_mode (_apply_alpha img 0) = RGBA /\
  im_size (_apply_alpha img 0) = im_size img /\
  fully_transparent (_apply_alpha img 0).
Proof.
  unfold _apply_alpha. split; [reflexivity |]. split.
  - destruct (im_mode img) eqn:E; [unfold convert_RGBA; rewrite E |]; reflexivity.
  - intros x y _ _. simpl.
    destruct (getpixel _ x y) as [[[r g] b] a]. reflexivity.
Qed.

(** Pasting an image without opacity, through its own alpha band, onto a
    canvas without opacity leaves a canvas without opacity. *)
Lemma paste_transparent dst src box :
  im_mode dst = RGBA -> fully_transparent dst -> fully_transparent src ->
  fully_transparent (paste dst src box (Some (alpha_band src))).
Proof.
  intros Hmode Hdst Hsrc x y Hx Hy. unfold paste in *.
  simpl in Hx, Hy. cbn [getpixel]. cbv zeta. rewrite Hmode.
  specialize (Hdst x y Hx Hy).
  destruct (in_box x y _ _ _ _) eqn:Hbox; [| exact Hdst].
  unfold in_box in Hbox.
  assert (Hs : alpha_of (getpixel src (x - fst box) (y - snd box)) = 0).
  { apply Hsrc; lia. }
  unfold alpha_band. rewrite Hs.
  destruct (getpixel dst x y) as [[[dr dg] db] da].
  destruct (getpixel src (x - fst box) (y - snd box)) as [[[sr sg] sb] sa].
  unfold alpha_of in *. simpl in *. subst. reflexivity.
Qed.

Lemma Image_new_transparent m size :
  fully_transparent (Image_new m size transparent_white).
Proof. intros x y _ _. reflexivity. Qed.

Lemma _apply_zoom_transparent e img zf :
  pillow_resize (_RESAMPLE e) ->
  0 < fst (im_size img) -> 0 < snd (im_size img) ->
  im_mode img = RGBA -> fully_transparent img ->
  exists out,
    _apply_zoom e img zf = Ok out /\ im_mode out = RGBA /\
    im_size out = im_size img /\ fully_transparent out.
Proof.
  intros Hres Hw Hh Hmode Htr. unfold _apply_zoom, Image_resize.
  destruct (im_size img) as [w h] eqn:Hsize. simpl in Hw, Hh.
  set (nw := Z.max 1 _). set (nh := Z.max 1 _).
  destruct (Hres img nw nh) as (r & Hr & Hrm & Hrs & Hrt);
    try (rewrite Hsize; simpl; assumption); try lia.
  rewrite Hr, Hrm, Hmode.
  eexists. split; [reflexivity |].
  split; [reflexivity |]. split; [reflexivity |].
  apply paste_transparent; [reflexivity | apply Image_new_transparent |].
  apply Hrt. exact Htr.
Qed.

Lemma _apply_offset_transparent img offset :
  im_mode img = RGBA -> fully_transparent img ->
  im_mode (_apply_offset img offset) = RGBA /\
  im_size (_apply_offset img offset) = im_size img /\
  fully_transparent (_apply_offset img offset).
Proof.
  intros Hmode Htr. unfold _apply_offset.
  destruct (im_size img) as [w h] eqn:Hsize. rewrite Hmode.
  split; [reflexivity |]. split; [reflexivity |].
  apply paste_transparent; [reflexivity | apply Image_new_transparent | exact Htr].
Qed.

Lemma lt_threshold thr t : (thr <= t)%Q -> Py.lt t thr = false.
Proof.
  intros H. unfold Py.lt. apply Qle_bool_iff in H. now rewrite H.
Qed.

Lemma tier_threshold_cases tier thr :
  tier_threshold tier = Some thr ->
  (tier = "low"%string /\ thr = (1 # 10)%Q) \/
  (tier = "medium"%string /\ thr = (2 # 10)%Q) \/
  (tier = "high"%string /\ thr = (3 # 10)%Q).
Proof.
  unfold tier_threshold.
  destruct (String.eqb tier "low") eqn:E1;
    [apply String.eqb_eq in E1; intros H; inversion H; auto |].
  destruct (String.eqb tier "medium") eqn:E2;
    [apply String.eqb_eq in E2; intros H; inversion H; auto |].
  destruct (String.eqb tier "high") eqn:E3;
    [apply String.eqb_eq in E3; intros H; inversion H; auto |].
  discriminate.
Qed.

(** C4.  For each complexity tier (low, medium, high; thresholds 0.1, 0.2,
    0.3) and each non-empty input frame: at time position 0 the effect
    returns an RGBA image of the frame's size whose alpha is 0 everywhere;
    at every time position at or after the tier's threshold it returns the
    input frame itself, so nothing is faded, zoomed or shifted. *)
Theorem C4_effect_boundaries e img sp tier thr :
  pillow_resize (_RESAMPLE e) ->
  0 < fst (im_size img) -> 0 < snd (im_size img) ->
  tier_threshold tier = Some thr ->
  complexity_of sp = tier ->
  (exists out,
     _apply_animation_effects e img 0 sp = Ok out /\
     im_mode out = RGBA /\ im_size out = im_size img /\
     fully_transparent out) /\
  (forall t, (thr <= t)%Q -> _apply_animation_effects e img t sp = Ok img).
Proof.
  intros Hres Hw Hh Htier Hc.
  destruct (_apply_alpha_zero img) as (Ham & Has & Hat).
  unfold _apply_animation_effects. rewrite Hc.
  apply tier_threshold_cases in Htier
    as [[-> ->] | [[-> ->] | [-> ->]]]; cbn [String.eqb Ascii.eqb Bool.eqb];
    (split; [| intros t Ht; now rewrite (lt_threshold _ _ Ht)]).
  - change (Py.lt 0 (1 # 10)) with true. cbv iota zeta.
    change (Py.int (255 * (0 / (1 # 10)))) with 0.
    eexists. split; [reflexivity |]. auto.
  - change (Py.lt 0 (2 # 10)) with true. cbv iota zeta.
    change (Py.int (255 * (0 / (2 # 10)))) with 0.
    destruct (_apply_zoom_transparent e (_apply_alpha img 0)
                ((95 # 100) + 0 / (2 # 10) * (5 # 100))%Q Hres)
      as (out & Hout & Hm & Hs & Ht); try rewrite Has; auto.
    exists out. rewrite Hout, Hs. auto.
  - change (Py.lt 0 (3 # 10)) with true. cbv iota zeta.
    change (Py.int (255 * (0 / (3 # 10)))) with 0.
    destruct (_apply_zoom_transparent e (_apply_alpha img 0)
                ((90 # 100) + 0 / (3 # 10) * (10 # 100))%Q Hres)
      as (out & Hout & Hm & Hs & Ht); try rewrite Has; auto.
    rewrite Hout.
    destruct (_apply_offset_transparent out
                (Py.int (10 * (1 - 0 / (3 # 10))), Py.int (5 * (1 - 0 / (3 # 10))))
                Hm Ht) as (Hom & Hos & Hot).
    eexists. split; [reflexivity |]. rewrite Hos, Hs. auto.
Qed.

Lemma C4_effect_boundaries_witness :
  (exists out,
     _apply_animation_effects small_engine grey_slide 0
       {| sp_complexity := Some "high"%string; sp_transition_type := None;
          sp_transition_duration := None |} = Ok out /\
     im_mode out = RGBA /\ im_size out = im_size grey_slide /\
     fully_transparent out) /\
  (forall t, (3 # 10 <= t)%Q ->
     _apply_animation_effects small_engine grey_slide t
       {| sp_complexity := Some "high"%string; sp_transition_type := None;
          sp_transition_duration := None |} = Ok grey_slide).
Proof.
  apply (C4_effect_boundaries small_engine grey_slide _ "high" (3 # 10)).
  - exact nearest_resample_pillow.
  - reflexivity.
  - reflexivity.
  - reflexivity.
  - reflexivity.
Defined.

(** ** Letterboxing (C5) *)

Lemma round_Qeq (x y : Q) : (x == y)%Q -> Py.round x = Py.round y.
Proof.
  intros H. unfold Py.round. rewrite (Qfloor_comp _ _ H).
  assert (Hc : ((x - inject_Z (Qfloor y) ?= 1 # 2)
                = (y - inject_Z (Qfloor y) ?= 1 # 2))%Q).
  { apply Qcompare_comp; [now rewrite H | reflexivity]. }
  now rewrite Hc.
Qed.

Lemma round_inject_Z z : Py.round (inject_Z z) = z.
Proof.
  unfold Py.round. rewrite Qfloor_Z.
  assert (Hc : (inject_Z z - inject_Z z ?= 1 # 2)%Q = Lt).
  { apply Qlt_alt.
    assert (E : (inject_Z z - inject_Z z == 0)%Q) by ring.
    rewrite E. reflexivity. }
  now rewrite Hc.
Qed.

Lemma round_le_int (x : Q) z : (x <= inject_Z z)%Q -> Py.round x <= z.
Proof.
  intros Hx. unfold Py.round.
  assert (Hf : Qfloor x <= z).
  { rewrite <- (Qfloor_Z z). now apply Qfloor_resp_le. }
  assert (Hstrict : (0 < x - inject_Z (Qfloor x))%Q -> Qfloor x + 1 <= z).
  { intros Hlt. apply Qlt_minus_iff in Hlt.
    assert (Hfz : (inject_Z (Qfloor x) < inject_Z z)%Q)
      by (eapply Qlt_le_trans; eassumption).
    rewrite <- Zlt_Qlt in Hfz. lia. }
  destruct (x - inject_Z (Qfloor x) ?= 1 # 2)%Q eqn:Hc.
  - apply Qeq_alt in Hc. destruct (Z.even (Qfloor x)); [exact Hf |].
    apply Hstrict. eapply Qlt_le_trans with (y := (1 # 2)%Q); [reflexivity |].
    apply Qle_lteq. right. symmetry. exact Hc.
  - exact Hf.
  - apply Qgt_alt in Hc. apply Hstrict.
    eapply Qlt_trans; [| exact Hc]. reflexivity.
Qed.

Lemma py_min_spec (a b : Q) :
  (py_min a b <= a)%Q /\ (py_min a b <= b)%Q /\
  (py_min a b = a \/ py_min a b = b).
Proof.
  unfold py_min. destruct (Qlt_le_dec b a) as [Hlt | Hle].
  - split; [apply Qlt_le_weak, Hlt |]. split; [apply Qle_refl | now right].
  - split; [apply Qle_refl |]. split; [exact Hle | now left].
Qed.

Lemma inject_Z_pos z : 0 < z -> (0 < inject_Z z)%Q.
Proof. intros H. change 0%Q with (inject_Z 0). now rewrite <- Zlt_Qlt. Qed.

(** Scaling a side [s] by a factor not above [t/s] gives at most [t]; by
    [t/s] itself it gives [t]. *)
Lemma scaled_side_le s t (scale : Q) :
  0 < s -> 0 < t -> (scale <= inject_Z t / inject_Z s)%Q ->
  Z.max 1 (Py.round (inject_Z s * scale)) <= t.
Proof.
  intros Hs Ht Hle. apply Z.max_lub; [lia |]. apply round_le_int.
  assert (Hne : ~ (inject_Z s == 0)%Q).
  { intros E. pose proof (inject_Z_pos s Hs) as Hp. rewrite E in Hp.
    now apply Qlt_irrefl in Hp. }
  rewrite <- (Qmult_div_r (inject_Z t) (inject_Z s) Hne).
  apply Qmult_le_l; [now apply inject_Z_pos | exact Hle].
Qed.

Lemma scaled_side_eq s t :
  0 < s -> 0 < t ->
  Z.max 1 (Py.round (inject_Z s * (inject_Z t / inject_Z s))) = t.
Proof.
  intros Hs Ht.
  assert (Hne : ~ (inject_Z s == 0)%Q).
  { intros E. pose proof (inject_Z_pos s Hs) as Hp. rewrite E in Hp.
    now apply Qlt_irrefl in Hp. }
  rewrite (round_Qeq _ _ (Qmult_div_r (inject_Z t) (inject_Z s) Hne)).
  rewrite round_inject_Z. lia.
Qed.

Lemma paste_opaque dst src box mask x y :
  im_mode dst = RGB -> alpha_of (getpixel dst x y) = 255 ->
  alpha_of (getpixel (paste dst src box mask) x y) = 255.
Proof.
  intros Hmode Hd. unfold paste. cbn [getpixel]. cbv zeta. rewrite Hmode.
  destruct (in_box x y _ _ _ _); [| exact Hd].
  destruct (getpixel dst x y) as [[[dr dg] db] da].
  destruct (getpixel src _ _) as [[[sr sg] sb] sa].
  destruct mask; reflexivity.
Qed.

Lemma paste_outside dst src box mask x y :
  in_box x y (fst box) (snd box) (fst (im_size src)) (snd (im_size src)) = false ->
  getpixel (paste dst src box mask) x y = getpixel dst x y.
Proof. intros H. unfold paste. cbn [getpixel]. cbv zeta. now rewrite H. Qed.

(** The mask with which an image is pasted: its alpha band when it has one. *)
Lemma paste_by_mode dst src box :
  match im_mode src with
  | RGBA => paste dst src box (Some (alpha_band src))
  | RGB => paste dst src box None
  end
  = paste dst src box
      (match im_mode src with RGBA => Some (alpha_band src) | RGB => None end).
Proof. destruct (im_mode src); reflexivity. Qed.

(** C5.  For a source of size [(sw, sh)] and a target [(tw, th)], all
    positive, [_resize_image_to_fit] returns a canvas that is RGB (hence
    opaque) and of size exactly [(tw, th)].  The source is scaled in both
    directions by the one factor [min(tw/sw, th/sh)] (then rounded, at least
    1 pixel): the scaled image is the source itself when the scaled size is
    the source's, and otherwise what the resampling filter returns for the
    source and the scaled size.  It fits the target, and its width is [tw]
    or its height is [th].  The canvas is the white canvas with this scaled
    image pasted at [((tw - nw) // 2, (th - nh) // 2)], so that the margins
    of a direction differ by at most one pixel; it is white outside the
    scaled image and, for a scaled image without alpha band, shows the
    scaled image's pixels inside. *)
Theorem C5_letterbox e img sw sh tw th :
  pillow_resize (_RESAMPLE e) ->
  im_size img = (sw, sh) -> 0 < sw -> 0 < sh -> 0 < tw -> 0 < th ->
  let scale := py_min (inject_Z tw / inject_Z sw) (inject_Z th / inject_Z sh) in
  let nw := Z.max 1 (Py.round (inject_Z sw * scale)) in
  let nh := Z.max 1 (Py.round (inject_Z sh * scale)) in
  let px := (tw - nw) / 2 in
  let py := (th - nh) / 2 in
  exists canvas resized,
    _resize_image_to_fit e img (tw, th) = Ok canvas /\
    im_size resized = (nw, nh) /\ im_mode resized = im_mode img /\
    ((nw, nh) = (sw, sh) -> resized = img) /\
    ((nw, nh) <> (sw, sh) -> _RESAMPLE e img (nw, nh) = Some resized) /\
    (nw = tw \/ nh = th) /\ nw <= tw /\ nh <= th /\
    im_mode canvas = RGB /\ im_size canvas = (tw, th) /\
    (forall x y, alpha_of (getpixel canvas x y) = 255) /\
    canvas = paste (Image_new RGB (tw, th) white) resized (px, py)
               (match im_mode resized with
                | RGBA => Some (alpha_band resized)
                | RGB => None
                end) /\
    0 <= tw - nw - 2 * px <= 1 /\ 0 <= px /\
    0 <= th - nh - 2 * py <= 1 /\ 0 <= py /\
    (forall x y, in_box x y px py nw nh = false -> getpixel canvas x y = white) /\
    (im_mode resized = RGB ->
     forall x y, in_box x y px py nw nh = true ->
       getpixel canvas x y
       = (let '(r, g, b, _) := getpixel resized (x - px) (y - py) in
          (r, g, b, 255))).
Proof.
  intros Hres Hsize Hsw Hsh Htw Hth scale nw nh px py.
  destruct (py_min_spec (inject_Z tw / inject_Z sw) (inject_Z th / inject_Z sh))
    as (Hle1 & Hle2 & Hcase). fold scale in Hle1, Hle2, Hcase.
  assert (Hnw : nw <= tw) by (apply scaled_side_le; assumption).
  assert (Hnh : nh <= th) by (apply scaled_side_le; assumption).
  assert (Htouch : nw = tw \/ nh = th).
  { destruct Hcase as [E | E]; [left | right]; subst nw nh; rewrite E;
      apply scaled_side_eq; assumption. }
  assert (Hresized : exists resized,
    (if size_eqb (nw, nh) (sw, sh) then Ok (copy img)
     else Image_resize e img (nw, nh)) = Ok resized /\
    im_size resized = (nw, nh) /\ im_mode resized = im_mode img /\
    ((nw, nh) = (sw, sh) -> resized = img) /\
    ((nw, nh) <> (sw, sh) -> _RESAMPLE e img (nw, nh) = Some resized)).
  { destruct (size_eqb (nw, nh) (sw, sh)) eqn:Heq.
    - exists img. unfold size_eqb in Heq. simpl in Heq.
      apply andb_true_iff in Heq as [H1 H2].
      apply Z.eqb_eq in H1, H2. rewrite Hsize, H1, H2.
      split; [reflexivity |]. split; [reflexivity |]. split; [reflexivity |].
      split; [reflexivity |]. intros Hne. now destruct Hne.
    - destruct (Hres img nw nh) as (r & Hr & Hrm & Hrs & _);
        try (rewrite Hsize; simpl; assumption); try lia.
      exists r. unfold Image_resize. rewrite Hr.
      split; [reflexivity |]. split; [exact Hrs |]. split; [exact Hrm |].
      split; [| reflexivity].
      intros Hsame. injection Hsame as E1 E2.
      unfold size_eqb in Heq. simpl in Heq.
      rewrite E1, E2, !Z.eqb_refl in Heq. discriminate. }
  destruct Hresized as (resized & Hr & Hrs & Hrm & Hsame & Hother).
  exists (paste (Image_new RGB (tw, th) white) resized (px, py)
            (match im_mode resized with
             | RGBA => Some (alpha_band resized)
             | RGB => None
             end)), resized.
  split.
  { unfold _resize_image_to_fit. rewrite Hsize.
    replace ((sw <=? 0) || (sh <=? 0) || (tw <=? 0) || (th <=? 0)) with false
      by (symmetry; repeat (apply orb_false_intro); apply Z.leb_gt; lia).
    cbv zeta. fold scale. fold nw nh. rewrite Hr. fold px py.
    now rewrite paste_by_mode. }
  split; [exact Hrs |]. split; [exact Hrm |].
  split; [exact Hsame |]. split; [exact Hother |]. split; [exact Htouch |].
  split; [exact Hnw |]. split; [exact Hnh |].
  split; [reflexivity |]. split; [reflexivity |].
  split; [intros x y; now apply paste_opaque |].
  split; [reflexivity |].
  split; [subst px; Z.div_mod_to_equations; lia |].
  split; [subst px; Z.div_mod_to_equations; lia |].
  split; [subst py; Z.div_mod_to_equations; lia |].
  split; [subst py; Z.div_mod_to_equations; lia |].
  split.
  - intros x y Hbox. rewrite paste_outside; [reflexivity |].
    rewrite Hrs. exact Hbox.
  - intros Hrgb x y Hbox. rewrite Hrgb. unfold paste. cbn [getpixel fst snd].
    cbv zeta. rewrite Hrs. cbn [fst snd im_mode Image_new]. rewrite Hbox.
    destruct (getpixel resized (x - px) (y - py)) as [[[r g] b] a].
    reflexivity.
Qed.

Lemma C5_letterbox_witness :
  exists canvas,
    _resize_image_to_fit small_engine grey_slide (4, 2) = Ok canvas /\
    im_size canvas = (4, 2) /\ im_mode canvas = RGB /\
    getpixel canvas 0 0 = white /\
    getpixel canvas 1 0 = (128, 128, 128, 255).
Proof.
  destruct (C5_letterbox small_engine grey_slide 2 2 4 2)
    as (canvas & resized & H & _ & _ & Hsame & _ & _ & _ & _ & Hm & Hs & _ &
        _ & _ & _ & _ & _ & Hout & Hin);
    try lia; try reflexivity.
  - exact nearest_resample_pillow.
  - exists canvas. split; [exact H |]. split; [exact Hs |].
    split; [exact Hm |]. split.
    + apply Hout. reflexivity.
    + rewrite (Hsame eq_refl) in Hin. apply (Hin eq_refl 1 0). reflexivity.
Defined.

(** ** The cache of fitted canvases (C6) *)

Lemma _get_fitted_canvas_hit e path ts w c canvas :
  _fitted_cache w !! (path, fst ts, snd ts) = Some c ->
  heap w !! c = Some canvas ->
  _get_fitted_canvas e path ts w
  = (World (disk w) (<[fresh (dom (heap w)) := canvas]> (heap w))
           (_loaded_cache w) (_fitted_cache w) (log w),
     Ok (fresh (dom (heap w)))).
Proof.
  intros Hc Hh. unfold _get_fitted_canvas. rewrite Hc.
  unfold bind, deref. rewrite Hh. reflexivity.
Qed.

Lemma fresh_not_allocated (h : gmap positive image) l :
  is_Some (h !! l) -> l <> fresh (dom h).
Proof.
  intros Hl Heq. apply elem_of_dom in Hl. rewrite Heq in Hl.
  now apply is_fresh in Hl.
Qed.

Lemma _get_fitted_canvas_ok e path ts w w1 r1 :
  wf_world w ->
  _get_fitted_canvas e path ts w = (w1, Ok r1) ->
  exists c canvas,
    _fitted_cache w1 !! (path, fst ts, snd ts) = Some c /\
    heap w1 !! c = Some canvas /\ heap w1 !! r1 = Some canvas /\
    (forall k l, _fitted_cache w1 !! k = Some l -> l <> r1) /\
    (forall p l, _loaded_cache w1 !! p = Some l -> l <> r1) /\
    wf_world w1.
Proof.
  intros [Hwf1 Hwf2] H. unfold _get_fitted_canvas in H.
  destruct (_fitted_cache w !! (path, fst ts, snd ts)) as [c |] eqn:Hc.
  - destruct (Hwf1 _ _ Hc) as [canvas Hcanvas].
    unfold bind, deref in H. rewrite Hcanvas in H.
    unfold alloc, copy in H. inversion H; subst; clear H. simpl.
    exists c, canvas.
    assert (Hne : c <> fresh (dom (heap w)))
      by (apply fresh_not_allocated; eauto).
    split; [exact Hc |]. split; [now rewrite lookup_insert_ne |].
    split; [now rewrite lookup_insert_eq |].
    split; [intros k l Hl; apply fresh_not_allocated; eauto |].
    split; [intros p l Hl; apply fresh_not_allocated; eauto |].
    split; simpl; intros k l Hl.
    + destruct (decide (l = fresh (dom (heap w)))) as [-> | Hn];
        [rewrite lookup_insert_eq | rewrite lookup_insert_ne]; eauto.
    + destruct (decide (l = fresh (dom (heap w)))) as [-> | Hn];
        [rewrite lookup_insert_eq | rewrite lookup_insert_ne]; eauto.
  - apply bind_inv_ok in H as (wa & src & Hload & H).
    apply bind_inv_ok in H as (wb & src_img & Hderef & H).
    apply bind_inv_ok in H as (wc & fitted_img & Hfit & H).
    apply bind_inv_ok in H as (wd & fitted & Halloc & H).
    apply bind_inv_ok in H as (we & [] & Hins & H).
    unfold lift in Hfit. inversion Hfit; subst wc; clear Hfit.
    unfold deref in Hderef.
    destruct (heap wa !! src) eqn:Hsrc; inversion Hderef; subst; clear Hderef.
    unfold alloc in Halloc. inversion Halloc; subst; clear Halloc.
    inversion Hins; subst; clear Hins.
    unfold alloc, copy in H. inversion H; subst; clear H. simpl.
    assert (Hwa : _fitted_cache wb = _fitted_cache w /\
                  (forall l, is_Some (heap w !! l) -> is_Some (heap wb !! l)) /\
                  (forall p l, _loaded_cache wb !! p = Some l ->
                               is_Some (heap wb !! l))).
    { unfold _load_image in Hload.
      destruct (_loaded_cache w !! path) as [l0 |] eqn:Hl0.
      - inversion Hload; subst. eauto.
      - apply bind_inv_ok in Hload as (w0 & img0 & Hopen & Hload).
        assert (w0 = w) as ->.
        { unfold Image_open in Hopen. destruct path as [p |];
            [destruct (disk w !! p) as [[] |] |]; inversion Hopen; reflexivity. }
        unfold bind, alloc in Hload. inversion Hload; subst; clear Hload. simpl.
        split; [reflexivity |]. split.
        + intros l Hl.
          rewrite lookup_insert_ne; [exact Hl |].
          apply not_eq_sym, fresh_not_allocated, Hl.
        + intros p l Hl.
          destruct (decide (path = p)) as [-> | Hn].
          * rewrite lookup_insert_eq in Hl. inversion Hl; subst.
            rewrite lookup_insert_eq. eauto.
          * rewrite lookup_insert_ne in Hl by exact Hn.
            rewrite lookup_insert_ne; [eauto |].
            apply not_eq_sym, fresh_not_allocated. eauto. }
    destruct Hwa as (Hfc & Hmono & Hlc).
    set (c := fresh (dom (heap wb))).
    set (h1 := <[c := fitted_img]> (heap wb)).
    assert (Hc1 : forall l, is_Some (heap wb !! l) -> is_Some (h1 !! l)).
    { intros l Hl. subst h1.
      destruct (decide (c = l)) as [-> | Hn];
        [rewrite lookup_insert_eq | rewrite lookup_insert_ne]; eauto. }
    assert (Hcc : h1 !! c = Some fitted_img) by (subst h1; apply lookup_insert_eq).
    assert (Hfresh : forall l, is_Some (h1 !! l) -> l <> fresh (dom h1))
      by (intros l; apply fresh_not_allocated).
    exists c, fitted_img.
    split; [apply lookup_insert_eq |].
    split; [rewrite lookup_insert_ne; [exact Hcc | apply not_eq_sym, Hfresh; eauto] |].
    split; [apply lookup_insert_eq |].
    assert (Hcache : forall k l,
              <[(path, fst ts, snd ts) := c]> (_fitted_cache wb) !! k = Some l ->
              is_Some (h1 !! l)).
    { intros k l Hl.
      destruct (decide ((path, fst ts, snd ts) = k)) as [<- | Hn].
      - rewrite lookup_insert_eq in Hl. inversion Hl; subst. eauto.
      - rewrite lookup_insert_ne in Hl by exact Hn.
        rewrite Hfc in Hl. eauto. }
    split; [intros k l Hl; apply Hfresh; eauto |].
    split; [intros p l Hl; apply Hfresh; eauto |].
    split; simpl; intros k l Hl.
    + destruct (decide (l = fresh (dom h1))) as [-> | Hn];
        [rewrite lookup_insert_eq | rewrite lookup_insert_ne]; eauto.
    + destruct (decide (l = fresh (dom h1))) as [-> | Hn];
        [rewrite lookup_insert_eq | rewrite lookup_insert_ne]; eauto.
Qed.

(** C6.  Let a call of [_get_fitted_canvas] on a pair (path, target size)
    return the object [r1], with pixels [canvas].  Then [r1] is not an object
    held by the cache; a second call with the same pair returns another object
    with the same pixels; and after the caller has overwritten [r1] with any
    image, a call with the same pair still returns an object with the pixels
    [canvas], while [r1] keeps what the caller wrote.  The same holds in any
    later world in which the cache still holds its own object for the pair. *)
Theorem C6_fitted_canvas_copies e path ts w w1 r1 :
  wf_world w ->
  _get_fitted_canvas e path ts w = (w1, Ok r1) ->
  exists cached canvas,
    heap w1 !! r1 = Some canvas /\
    _fitted_cache w1 !! (path, fst ts, snd ts) = Some cached /\
    heap w1 !! cached = Some canvas /\
    (forall k l, _fitted_cache w1 !! k = Some l -> l <> r1) /\
    (exists w2 r2,
       _get_fitted_canvas e path ts w1 = (w2, Ok r2) /\
       heap w2 !! r2 = Some canvas /\ r2 <> r1) /\
    (forall mutated, exists w2 r2,
       _get_fitted_canvas e path ts (mutate r1 mutated w1) = (w2, Ok r2) /\
       heap w2 !! r2 = Some canvas /\ r2 <> r1 /\
       heap w2 !! r1 = Some mutated) /\
    (forall w',
       _fitted_cache w' !! (path, fst ts, snd ts) = Some cached ->
       heap w' !! cached = Some canvas ->
       exists w2 r2,
         _get_fitted_canvas e path ts w' = (w2, Ok r2) /\
         heap w2 !! r2 = Some canvas /\ r2 <> cached /\
         _fitted_cache w2 !! (path, fst ts, snd ts) = Some cached /\
         heap w2 !! cached = Some canvas).
Proof.
  intros Hwf H.
  destruct (_get_fitted_canvas_ok _ _ _ _ _ _ Hwf H)
    as (c & canvas & Hc & Hhc & Hr1 & Hcache & _ & _).
  assert (Hlater : forall w',
       _fitted_cache w' !! (path, fst ts, snd ts) = Some c ->
       heap w' !! c = Some canvas ->
       exists w2 r2,
         _get_fitted_canvas e path ts w' = (w2, Ok r2) /\
         heap w2 !! r2 = Some canvas /\ r2 <> c /\
         _fitted_cache w2 !! (path, fst ts, snd ts) = Some c /\
         heap w2 !! c = Some canvas /\
         r2 = fresh (dom (heap w')) /\
         forall l, l <> r2 -> heap w2 !! l = heap w' !! l).
  { intros w' Hc' Hh'. eexists _, _.
    split; [apply (_get_fitted_canvas_hit _ _ _ _ _ _ Hc' Hh') |]. simpl.
    assert (Hne : c <> fresh (dom (heap w')))
      by (apply fresh_not_allocated; eauto).
    split; [apply lookup_insert_eq |]. split; [auto |].
    split; [exact Hc' |].
    split; [now rewrite lookup_insert_ne |].
    split; [reflexivity |].
    intros l Hl. now rewrite lookup_insert_ne. }
  exists c, canvas.
  split; [exact Hr1 |]. split; [exact Hc |]. split; [exact Hhc |].
  split; [exact Hcache |].
  split; [| split].
  - destruct (Hlater w1 Hc Hhc) as (w2 & r2 & Hcall & Hr2 & _ & _ & _ & -> & _).
    exists w2, (fresh (dom (heap w1))).
    split; [exact Hcall |]. split; [exact Hr2 |].
    apply not_eq_sym, fresh_not_allocated. eauto.
  - intros mutated.
    assert (Hne : c <> r1) by (apply (Hcache _ _ Hc)).
    destruct (Hlater (mutate r1 mutated w1)) as
      (w2 & r2 & Hcall & Hr2 & _ & _ & _ & Hf & Hsame).
    + exact Hc.
    + simpl. rewrite lookup_insert_ne by auto. exact Hhc.
    + assert (Hr : r1 <> r2).
      { rewrite Hf. apply fresh_not_allocated. simpl.
        rewrite lookup_insert_eq. eauto. }
      exists w2, r2. split; [exact Hcall |]. split; [exact Hr2 |].
      split; [auto |]. rewrite (Hsame r1 Hr). simpl. apply lookup_insert_eq.
  - intros w' Hc' Hh'.
    destruct (Hlater w' Hc' Hh') as (w2 & r2 & ? & ? & ? & ? & ? & _).
    exists w2, r2. auto.
Qed.

Lemma C6_fitted_canvas_copies_witness :
  exists w1 r1 w2 r2 canvas,
    _get_fitted_canvas small_engine (Some "slide.png"%string) (4, 2)
      one_slide_world = (w1, Ok r1) /\
    heap w1 !! r1 = Some canvas /\
    _get_fitted_canvas small_engine (Some "slide.png"%string) (4, 2)
      (mutate r1 black_canvas w1) = (w2, Ok r2) /\
    heap w2 !! r2 = Some canvas /\ heap w2 !! r1 = Some black_canvas.
Proof.
  destruct (_get_fitted_canvas small_engine (Some "slide.png"%string) (4, 2)
              one_slide_world) as [w1 [r1 | ex]] eqn:Hcall;
    [| vm_compute in Hcall; discriminate].
  assert (Hwf : wf_world one_slide_world).
  { split; intros k l Hl; simpl in Hl; rewrite lookup_empty in Hl;
      discriminate. }
  destruct (C6_fitted_canvas_copies small_engine (Some "slide.png"%string)
              (4, 2) one_slide_world w1 r1 Hwf Hcall)
    as (c & canvas & Hr1 & _ & _ & _ & _ & Hmut & _).
  destruct (Hmut black_canvas) as (w2 & r2 & Hcall2 & Hr2 & _ & Hr1').
  exists w1, r1, w2, r2, canvas. auto.
Defined.

(** ** Failures while a frame is rendered (C3) *)

Lemma _load_image_post path w w1 r :
  wf_world w ->
  _load_image path w = (w1, r) ->
  wf_world w1 /\ disk w1 = disk w /\ log w1 = log w /\
  _fitted_cache w1 = _fitted_cache w /\
  match r with
  | Ok l => _loaded_cache w1 !! path = Some l
  | Raise _ =>
      w1 = w /\ _loaded_cache w !! path = None /\
      match path with
      | Some p => match disk w !! p with
                  | Some (ImageFile _) => False
                  | _ => True
                  end
      | None => True
      end
  end.
Proof.
  intros [Hwf1 Hwf2] H. unfold _load_image in H.
  destruct (_loaded_cache w !! path) as [l0 |] eqn:Hl0.
  - inversion H; subst. repeat split; eauto.
  - unfold bind, Image_open in H.
    destruct path as [p |]; [destruct (disk w !! p) as [[img |] |] eqn:Hd |];
      try (inversion H; subst; clear H; repeat split; eauto; rewrite ?Hd; auto; fail).
    unfold alloc in H. inversion H; subst; clear H. simpl.
    split; [| repeat split; auto; apply lookup_insert_eq].
    split; simpl; intros k l Hl.
    + destruct (Hwf1 _ _ Hl) as [x Hx].
      rewrite lookup_insert_ne; [eauto |].
      apply not_eq_sym, fresh_not_allocated; eauto.
    + destruct (decide (Some p = k)) as [<- | Hn].
      * rewrite lookup_insert_eq in Hl. inversion Hl; subst.
        rewrite lookup_insert_eq. eauto.
      * rewrite lookup_insert_ne in Hl by exact Hn.
        destruct (Hwf2 _ _ Hl) as [x Hx].
        rewrite lookup_insert_ne; [eauto |].
        apply not_eq_sym, fresh_not_allocated; eauto.
Qed.

Lemma _get_fitted_canvas_raise_post e path ts w w1 ex :
  wf_world w ->
  _get_fitted_canvas e path ts w = (w1, Raise ex) ->
  wf_world w1 /\ unfittable e path ts w1 /\ disk w1 = disk w /\ log w1 = log w.
Proof.
  intros Hwf H. unfold _get_fitted_canvas in H.
  destruct (_fitted_cache w !! (path, fst ts, snd ts)) as [c |] eqn:Hc.
  - destruct (proj1 Hwf _ _ Hc) as [canvas Hcanvas].
    unfold bind, deref in H. rewrite Hcanvas in H. inversion H.
  - unfold bind at 1 in H.
    destruct (_load_image path w) as [wa [src | ex0]] eqn:Hload.
    + destruct (_load_image_post _ _ _ _ Hwf Hload)
        as (Hwfa & Hdisk & Hlog & Hfc & Hlc).
      destruct (proj2 Hwfa _ _ Hlc) as [src_img Hsrc].
      unfold bind, deref in H. rewrite Hsrc in H. unfold lift in H.
      destruct (_resize_image_to_fit e src_img ts) as [fitted | ex1] eqn:Hfit.
      * inversion H.
      * inversion H; subst. split; [exact Hwfa |]. split; [| auto].
        unfold unfittable. rewrite Hfc, Hc, Hlc. split; [reflexivity |].
        eauto.
    + destruct (_load_image_post _ _ _ _ Hwf Hload)
        as (Hwfa & Hdisk & Hlog & Hfc & -> & Hlc & Hopen).
      inversion H; subst. split; [exact Hwf |]. split; [| auto].
      unfold unfittable. rewrite Hc, Hlc. split; [reflexivity |].
      destruct path as [p |]; [| exact I].
      destruct (disk w1 !! p) as [[img |] |]; [contradiction | exact I | exact I].
Qed.

Lemma _load_image_hit path w l :
  _loaded_cache w !! path = Some l -> _load_image path w = (w, Ok l).
Proof. intros H. unfold _load_image. now rewrite H. Qed.

Lemma _load_image_miss path w :
  _loaded_cache w !! path = None ->
  _load_image path w
  = match path with
    | Some p =>
        match disk w !! p with
        | Some (ImageFile img) =>
            (World (disk w) (<[fresh (dom (heap w)) := img]> (heap w))
                   (<[path := fresh (dom (heap w))]> (_loaded_cache w))
                   (_fitted_cache w) (log w),
             Ok (fresh (dom (heap w))))
        | _ => (w, Raise (OSError path))
        end
    | None => (w, Raise (OSError None))
    end.
Proof.
  intros H. unfold _load_image. rewrite H. unfold bind, Image_open.
  destruct path as [p |]; [| reflexivity].
  destruct (disk w !! p) as [[img |] |]; reflexivity.
Qed.

Lemma unfittable_raises e path ts w :
  unfittable e path ts w ->
  exists w1 ex, _get_fitted_canvas e path ts w = (w1, Raise ex).
Proof.
  intros [Hc Hl]. unfold _get_fitted_canvas. rewrite Hc.
  destruct (_loaded_cache w !! path) as [l |] eqn:Hlc.
  - destruct Hl as (img & ex & Himg & Hfit).
    rewrite (bind_ok _ _ _ _ _ (_load_image_hit _ _ _ Hlc)).
    unfold bind, deref, lift. rewrite Himg, Hfit. eauto.
  - unfold bind at 1. rewrite (_load_image_miss _ _ Hlc).
    destruct path as [p |]; [| eauto].
    destruct (disk w !! p) as [[img |] |]; [| eauto | eauto].
    destruct Hl as (ex & Hfit).
    unfold bind, deref, lift. simpl. rewrite lookup_insert_eq, Hfit. eauto.
Qed.

Lemma unfittable_ext e path ts w w' :
  _fitted_cache w' = _fitted_cache w -> _loaded_cache w' = _loaded_cache w ->
  heap w' = heap w ->
  (forall p, path = Some p -> disk w' !! p = disk w !! p) ->
  unfittable e path ts w -> unfittable e path ts w'.
Proof.
  intros Hf Hl Hh Hd [Hc Hu]. unfold unfittable. rewrite Hf, Hl, Hh.
  split; [exact Hc |].
  destruct (_loaded_cache w !! path); [exact Hu |].
  destruct path as [p |]; [| exact I]. now rewrite (Hd p eq_refl).
Qed.

Lemma wf_world_ext w w' :
  _fitted_cache w' = _fitted_cache w -> _loaded_cache w' = _loaded_cache w ->
  heap w' = heap w -> wf_world w -> wf_world w'.
Proof. intros Hf Hl Hh. unfold wf_world. now rewrite Hf, Hl, Hh. Qed.

(** The world in which [_generate_frame] ends after its [try] has raised
    [ex] in the world [w1]. *)
Lemma _generate_frame_on_error e v rest t sp dir idx fb w w1 ex :
  _generate_frame_try e v t sp fb w = (w1, Raise ex) ->
  _generate_frame e (v :: rest) t sp dir idx fb w
  = (World (<[frame_file dir idx := ImageFile (blank_frame e)]> (disk w1))
           (heap w1) (_loaded_cache w1) (_fitted_cache w1)
           (log w1 ++ [(ERROR, Error_processing_visual_content ex)]),
     Ok (frame_file dir idx)).
Proof.
  intros H. unfold _generate_frame.
  erewrite bind_ok; cycle 1.
  { rewrite (try_except_raise _ _ _ _ _ H). reflexivity. }
  reflexivity.
Qed.

Lemma _generate_frame_try_unfittable e v t sp w :
  unfittable e (v_path v) (output_resolution e) w ->
  exists w1 ex,
    _generate_frame_try e v t sp None w = (w1, Raise ex) /\
    _get_fitted_canvas e (v_path v) (output_resolution e) w = (w1, Raise ex).
Proof.
  intros Hu. destruct (unfittable_raises _ _ _ _ Hu) as (w1 & ex & Hr).
  exists w1, ex. split; [| exact Hr].
  unfold _generate_frame_try.
  apply bind_raise. apply bind_raise. exact Hr.
Qed.

Lemma blank_frame_step e v rest t sp dir idx w :
  wf_world w ->
  unfittable e (v_path v) (output_resolution e) w ->
  v_path v <> Some (frame_file dir idx) ->
  exists w' ex,
    _generate_frame e (v :: rest) t sp dir idx None w
    = (w', Ok (frame_file dir idx)) /\
    disk w' = <[frame_file dir idx := ImageFile (blank_frame e)]> (disk w) /\
    log w' = log w ++ [(ERROR, Error_processing_visual_content ex)] /\
    wf_world w' /\ unfittable e (v_path v) (output_resolution e) w'.
Proof.
  intros Hwf Hu Hne.
  destruct (_generate_frame_try_unfittable e v t sp w Hu)
    as (w1 & ex & Htry & Hcall).
  destruct (_get_fitted_canvas_raise_post _ _ _ _ _ _ Hwf Hcall)
    as (Hwf1 & Hu1 & Hdisk & Hlog).
  eexists _, ex. split; [apply (_generate_frame_on_error _ _ _ _ _ _ _ _ _ _ _ Htry) |].
  simpl. rewrite Hdisk, Hlog.
  split; [reflexivity |]. split; [reflexivity |]. split.
  - apply (wf_world_ext w1); auto.
  - apply (unfittable_ext _ _ _ w1); auto. simpl.
    intros p Hp. rewrite <- Hdisk. apply lookup_insert_ne. congruence.
Qed.

Lemma blank_frames_loop e v rest sp dir (time_pos : Z -> Q) idxs :
  (forall i, v_path v <> Some (frame_file dir i)) ->
  forall w,
    wf_world w ->
    unfittable e (v_path v) (output_resolution e) w ->
    exists w' exs,
      mapM (fun i => _generate_frame e (v :: rest) (time_pos i) sp dir i None)
           idxs w
      = (w', Ok (map (frame_file dir) idxs)) /\
      (forall fp, fp ∈ map (frame_file dir) idxs ->
                  disk w' !! fp = Some (ImageFile (blank_frame e))) /\
      (forall q, q ∉ map (frame_file dir) idxs -> disk w' !! q = disk w !! q) /\
      log w' = log w ++ map (fun ex => (ERROR, Error_processing_visual_content ex)) exs /\
      length exs = length idxs /\
      wf_world w' /\ unfittable e (v_path v) (output_resolution e) w'.
Proof.
  intros Hne. induction idxs as [| i idxs IH]; intros w Hwf Hu.
  - exists w, []. simpl. rewrite app_nil_r.
    split; [reflexivity |]. split; [intros fp Hfp; inversion Hfp |]. auto.
  - destruct (blank_frame_step e v rest (time_pos i) sp dir i w Hwf Hu (Hne i))
      as (w1 & ex & Hstep & Hdisk & Hlog & Hwf1 & Hu1).
    destruct (IH w1 Hwf1 Hu1) as (w' & exs & Hloop & Hblank & Hkeep & Hlog' & Hlen & Hwf' & Hu').
    exists w', (ex :: exs). split.
    { cbn [mapM map]. rewrite (bind_ok _ _ _ _ _ Hstep).
      rewrite (bind_ok _ _ _ _ _ Hloop). reflexivity. }
    split.
    { intros fp Hfp. cbn [map] in Hfp.
      destruct (decide (fp ∈ map (frame_file dir) idxs)) as [Hin | Hout].
      - now apply Hblank.
      - rewrite (Hkeep _ Hout), Hdisk.
        apply elem_of_cons in Hfp as [-> | Hin]; [| contradiction].
        apply lookup_insert_eq. }
    split.
    { intros q Hq. cbn [map] in Hq. apply not_elem_of_cons in Hq as [Hq1 Hq2].
      rewrite (Hkeep _ Hq2), Hdisk. apply lookup_insert_ne. congruence. }
    split; [rewrite Hlog', Hlog, <- app_assoc; reflexivity |].
    split; [simpl; now rewrite Hlen |]. auto.
Qed.

Lemma prepare_fitted_base_failure e idx v rest p w w1 ex :
  v_path v = Some p -> p <> EmptyString -> is_Some (disk w !! p) ->
  _get_fitted_canvas e (Some p) (output_resolution e) w = (w1, Raise ex) ->
  prepare_fitted_base e idx (v :: rest) w
  = (add_log w1 [(ERROR, Failed_to_prepare_base_image_for_section (idx + 1) ex)],
     Ok None).
Proof.
  intros Hp Hne Hex Hcall. unfold prepare_fitted_base. rewrite Hp.
  apply String.eqb_neq in Hne. rewrite Hne.
  unfold bind at 1. unfold os_path_exists.
  rewrite (bool_decide_eq_true_2 _ Hex).
  erewrite try_except_raise; [reflexivity |].
  apply bind_raise. exact Hcall.
Qed.

(** The fallback is the white canvas, not the base image: with a black base
    image prepared for the section and a resize that raises inside the
    fade-in window, the processing of the frame raises, the error is logged,
    and the file of the frame holds a white image, not the black base. *)
Lemma C3_counterexample :
  let r := _generate_frame brittle_engine [slide_visual] 0 standard_preset
             "tmp/s" 0 (Some 1%positive) based_world in
  heap based_world !! 1%positive = Some black_canvas /\
  _generate_frame_try brittle_engine slide_visual 0 standard_preset
    (Some 1%positive) based_world = (based_world, Raise ResizeError) /\
  snd r = Ok (frame_file "tmp/s" 0) /\
  log (fst r) = [(ERROR, Error_processing_visual_content ResizeError)] /\
  disk (fst r) !! frame_file "tmp/s" 0
  = Some (ImageFile (blank_frame brittle_engine)) /\
  (forall x y, getpixel (blank_frame brittle_engine) x y = white) /\
  (forall x y, getpixel black_canvas x y = (0, 0, 0, 255)).
Proof.
  intros r.
  assert (Htry : _generate_frame_try brittle_engine slide_visual 0
                   standard_preset (Some 1%positive) based_world
                 = (based_world, Raise ResizeError))
    by (vm_compute; reflexivity).
  split; [reflexivity |]. split; [exact Htry |].
  subst r. rewrite (_generate_frame_on_error _ _ _ _ _ _ _ _ _ _ _ Htry).
  cbn [fst snd log disk based_world].
  split; [reflexivity |]. split; [reflexivity |].
  split; [apply lookup_insert_eq |]. split; intros x y; reflexivity.
Qed.

(** C3, amended.  (1) When the processing inside the [try] of
    [_generate_frame] raises, the error is logged and the function still
    returns the frame's path, having saved the blank white canvas with which
    it starts; this is so whether or not a base image was prepared for the
    section, so the fallback is never the base image.  (2) No failure of
    that kind aborts a section: [_create_section_animation] always returns.
    (3) When the base image of a section cannot be prepared,
    [create_animations] logs the error and goes on without a base; every
    frame of the section is then the white canvas (given that the source is
    not itself one of the section's frame files). *)
Theorem C3_frame_failures e :
  (forall v rest t sp dir idx fb w w1 ex,
     _generate_frame_try e v t sp fb w = (w1, Raise ex) ->
     exists w2,
       _generate_frame e (v :: rest) t sp dir idx fb w
       = (w2, Ok (frame_file dir idx)) /\
       disk w2 !! frame_file dir idx = Some (ImageFile (blank_frame e)) /\
       (forall x y, getpixel (blank_frame e) x y = white) /\
       log w2 = log w1 ++ [(ERROR, Error_processing_visual_content ex)]) /\
  (forall sec idx vc audio sp fb w,
     exists w' sa,
       _create_section_animation e sec idx vc audio sp fb w = (w', Ok sa)) /\
  (forall sec idx v rest audio sp p w w1 ex,
     let dir := Py.path_join (temp_dir e)
                  ("section_" +:+ pretty (idx + 1) +:+ "_frames") in
     wf_world w ->
     v_path v = Some p -> p <> EmptyString -> is_Some (disk w !! p) ->
     _get_fitted_canvas e (Some p) (output_resolution e) w = (w1, Raise ex) ->
     (forall i, frame_file dir i <> p) ->
     exists w2 w3 sa,
       prepare_fitted_base e idx (v :: rest) w = (w2, Ok None) /\
       log w2 = log w
                ++ [(ERROR, Failed_to_prepare_base_image_for_section (idx + 1) ex)] /\
       _create_section_animation e sec idx (v :: rest) audio sp None w2
       = (w3, Ok sa) /\
       sa_frame_count sa
       = Z.max 1 (Py.round (a_duration audio * inject_Z (fps e))) /\
       Forall (fun fp => disk w3 !! fp = Some (ImageFile (blank_frame e)))
              (sa_frame_paths sa)).
Proof.
  split; [| split].
  - intros v rest t sp dir idx fb w w1 ex Htry. eexists. split.
    + apply (_generate_frame_on_error _ _ _ _ _ _ _ _ _ _ _ Htry).
    + simpl. split; [apply lookup_insert_eq |].
      split; [intros x y |]; reflexivity.
  - intros sec idx vc audio sp fb w.
    destruct (_generate_section_frames_total e vc audio sp
                (Py.path_join (temp_dir e)
                   ("section_" +:+ pretty (idx + 1) +:+ "_frames"))
                fb w) as (w' & frames & Hf & _).
    eexists w', _. unfold _create_section_animation.
    apply try_except_ok. rewrite (bind_ok _ _ _ _ _ Hf). reflexivity.
  - intros sec idx v rest audio sp p w w1 ex dir Hwf Hp Hne Hex Hcall Hdir.
    destruct (_get_fitted_canvas_raise_post _ _ _ _ _ _ Hwf Hcall)
      as (Hwf1 & Hu1 & Hdisk & Hlog).
    set (w2 := add_log w1
                 [(ERROR, Failed_to_prepare_base_image_for_section (idx + 1) ex)]).
    assert (Hwf2 : wf_world w2) by (apply (wf_world_ext w1); auto).
    assert (Hu2 : unfittable e (v_path v) (output_resolution e) w2).
    { rewrite Hp. apply (unfittable_ext _ _ _ w1); auto. }
    set (n := Z.max 1 (Py.round (a_duration audio * inject_Z (fps e)))).
    destruct (blank_frames_loop e v rest sp dir
                (fun frame_idx =>
                   if 1 <? n then (inject_Z frame_idx / inject_Z (n - 1))%Q
                   else 0%Q)
                (Py.range n)) with (w := w2)
      as (w3 & exs & Hloop & Hblank & _ & _ & _ & _ & _); auto.
    { intros i. rewrite Hp. intros E. inversion E. now apply (Hdir i). }
    eexists w2, w3, _. split.
    { eapply prepare_fitted_base_failure; eauto. }
    split; [subst w2; simpl; now rewrite Hlog |].
    split.
    { unfold _create_section_animation. apply try_except_ok.
      fold dir. unfold _generate_section_frames. fold n.
      rewrite (bind_ok _ _ _ _ _ Hloop). reflexivity. }
    simpl. split.
    + rewrite length_map, range_length. subst n. lia.
    + apply Forall_forall. exact Hblank.
Qed.

Lemma C3_frame_failures_witness :
  (exists w2,
     _generate_frame brittle_engine [slide_visual] 0 standard_preset "tmp/s" 0
       (Some 1%positive) based_world = (w2, Ok (frame_file "tmp/s" 0)) /\
     disk w2 !! frame_file "tmp/s" 0
     = Some (ImageFile (blank_frame brittle_engine)) /\
     log w2 = [(ERROR, Error_processing_visual_content ResizeError)]) /\
  (exists w2 w3 sa,
     prepare_fitted_base small_engine 0 [slide_visual] corrupt_slide_world
     = (w2, Ok None) /\
     log w2 = [(ERROR, Failed_to_prepare_base_image_for_section 1
                         (OSError (Some "slide.png"%string)))] /\
     _create_section_animation small_engine (Section_ "one") 0 [slide_visual]
       (one_second 0) minimal_preset None w2 = (w3, Ok sa) /\
     sa_frame_count sa = 2 /\
     Forall (fun fp => disk w3 !! fp = Some (ImageFile (blank_frame small_engine)))
            (sa_frame_paths sa)).
Proof.
  split.
  - destruct (proj1 (C3_frame_failures brittle_engine)
                slide_visual [] 0%Q standard_preset "tmp/s"%string 0
                (Some 1%positive) based_world based_world ResizeError)
      as (w2 & H1 & H2 & _ & H3).
    + vm_compute. reflexivity.
    + exists w2. split; [exact H1 |]. split; [exact H2 | exact H3].
  - destruct (proj2 (proj2 (C3_frame_failures small_engine))
                (Section_ "one") 0 slide_visual [] (one_second 0) minimal_preset
                "slide.png"%string corrupt_slide_world corrupt_slide_world
                (OSError (Some "slide.png"%string)))
      as (w2 & w3 & sa & H1 & H2 & H3 & H4 & H5).
    + split; intros k l Hl; simpl in Hl; rewrite lookup_empty in Hl; discriminate.
    + reflexivity.
    + discriminate.
    + simpl. rewrite lookup_singleton_eq. eauto.
    + vm_compute. reflexivity.
    + intros i. unfold frame_file, Py.path_join. simpl. discriminate.
    + exists w2, w3, sa. auto.
Defined.

(** ** The run of the engine: surviving sections and their transitions (C10) *)

Example specification_scenario :
  scenario_summary one_slide_world
  = Some ([300; 300; 300], [30; 30], 960, 32%Q).
Proof. vm_compute. reflexivity. Qed.

Example run_with_a_skipped_section :
  run_summary (create_animations small_engine no_visuals three_plain_sections
                 audio_for_0_and_2 empty_world)
  = Some ([0; 2], [(0, 2)]).
Proof. vm_compute. reflexivity. Qed.

Lemma try_except_inv_ok {A} (m : M A) (h : exn -> M A) w w' a :
  (forall ex w0, exists w1 ex', h ex w0 = (w1, Raise ex')) ->
  try_except m h w = (w', Ok a) -> m w = (w', Ok a).
Proof.
  intros Hh. unfold try_except.
  destruct (m w) as [w1 [a1 | ex]]; intros H.
  - exact H.
  - destruct (Hh ex w1) as (w2 & ex' & Hr). rewrite Hr in H. discriminate.
Qed.

Lemma log_and_reraise_at {A} (msg : exn -> message) ex w0 :
  exists w1 ex',
    (_ <~ logger ERROR (msg ex) ;~ raise ex) w0 = (w1, @Raise A ex').
Proof. eexists _, _. reflexivity. Qed.

Lemma mapM_inv {A B} (f : A -> M B) (R : A -> B -> Prop) :
  (forall x w w' y, f x w = (w', Ok y) -> R x y) ->
  forall xs w w' ys, mapM f xs w = (w', Ok ys) -> Forall2 R xs ys.
Proof.
  intros Hf. induction xs as [| x xs IH]; intros w w' ys H; simpl in H.
  - inversion H. constructor.
  - apply bind_inv_ok in H as (w1 & y & Hy & H).
    apply bind_inv_ok in H as (w2 & ys' & Hys & H).
    inversion H; subst. constructor; eauto.
Qed.

Lemma collectM_inv {A B} (f : A -> M (option B)) (R : A -> option B -> Prop) :
  (forall x w w' r, f x w = (w', Ok r) -> R x r) ->
  forall xs w w' ys,
    collectM f xs w = (w', Ok ys) ->
    exists rs, Forall2 R xs rs /\ ys = omap id rs.
Proof.
  intros Hf. induction xs as [| x xs IH]; intros w w' ys H; simpl in H.
  - inversion H. exists []. split; [constructor | reflexivity].
  - apply bind_inv_ok in H as (w1 & r & Hr & H).
    apply bind_inv_ok in H as (w2 & ys' & Hys & H).
    destruct (IH _ _ _ Hys) as (rs & HF & ->).
    exists (r :: rs). split; [constructor; eauto |].
    inversion H; subst. destruct r; reflexivity.
Qed.

Lemma _create_section_animation_idx e sec idx vc audio sp fb w w' sa :
  _create_section_animation e sec idx vc audio sp fb w = (w', Ok sa) ->
  sa_section_idx sa = idx.
Proof.
  unfold _create_section_animation. intros H.
  apply try_except_inv_ok in H;
    [| intros; apply (log_and_reraise_at Error_creating_section_animation)].
  apply bind_inv_ok in H as (w1 & frames & _ & H).
  inversion H; subst. reflexivity.
Qed.

Lemma create_animations_section_inv e visuals audios sp idx sec w w' r :
  create_animations_section e visuals audios sp idx sec w = (w', Ok r) ->
  match r with
  | Some sa => sa_section_idx sa = idx /\ is_Some (find_audio idx audios)
  | None => find_audio idx audios = None
  end.
Proof.
  unfold create_animations_section, find_audio.
  destruct (Py.next_or_none _ audios) as [au |]; intros H.
  - apply bind_inv_ok in H as (w1 & vc & _ & H).
    apply bind_inv_ok in H as (w2 & fb & _ & H).
    apply bind_inv_ok in H as (w3 & sa & Hsa & H).
    inversion H; subst.
    split; [eapply _create_section_animation_idx; eauto | eauto].
  - inversion H; subst. reflexivity.
Qed.

Lemma _create_transition_animation_inv e a b sp w w' t :
  _create_transition_animation e a b sp w = (w', Ok t) ->
  ta_from_section_idx t = sa_section_idx a /\
  ta_to_section_idx t = sa_section_idx b /\
  ta_frame_count t = Z.of_nat (length (ta_frame_paths t)) /\
  ta_duration t = default 1%Q (sp_transition_duration sp).
Proof.
  unfold _create_transition_animation. intros H.
  apply try_except_inv_ok in H;
    [| intros; apply (log_and_reraise_at Error_creating_transition_animation)].
  apply bind_inv_ok in H as (w1 & frames & _ & H).
  inversion H; subst. simpl. auto.
Qed.

Lemma index_inv {A} (xs : list A) i w w' x :
  index xs i w = (w', Ok x) -> 0 <= i /\ xs !! Z.to_nat i = Some x.
Proof.
  unfold index. destruct (0 <=? i) eqn:Hi.
  - destruct (xs !! Z.to_nat i) eqn:E; intros H; inversion H; subst.
    split; [lia | reflexivity].
  - intros H. inversion H.
Qed.

Lemma range_lookup n (i : nat) x :
  Py.range n !! i = Some x -> x = Z.of_nat i.
Proof.
  unfold Py.range. rewrite list_lookup_fmap.
  destruct (seq 0 (Z.to_nat n) !! i) as [k |] eqn:E; [| discriminate].
  apply lookup_seq in E as [-> _]. simpl. intros H. now inversion H.
Qed.

Lemma enumerate_fst {A} (l : list A) :
  map fst (Py.enumerate l) = Py.range (Z.of_nat (length l)).
Proof.
  rewrite enumerate_imap. unfold Py.range. rewrite Nat2Z.id.
  change (map fst ?l) with (fst <$> l). rewrite fmap_imap.
  apply (imap_seq_0 l Z.of_nat).
Qed.

Lemma surviving_sections audios (xs : list (Z * section))
  (rs : list (option section_animation)) :
  Forall2 (fun x r =>
             match r with
             | Some sa => sa_section_idx sa = fst x /\
                          is_Some (find_audio (fst x) audios)
             | None => find_audio (fst x) audios = None
             end) xs rs ->
  map sa_section_idx (omap id rs) = List.filter (has_audio audios) (map fst xs).
Proof.
  induction 1 as [| x r xs rs Hr _ IH]; [reflexivity |].
  cbn [map List.filter]. unfold has_audio at 1. destruct r as [sa |].
  - destruct Hr as [Hidx [au Hau]]. rewrite Hau.
    change (omap id (Some sa :: rs)) with (sa :: omap id rs).
    cbn [map]. now rewrite Hidx, IH.
  - rewrite Hr. exact IH.
Qed.

(** *** What the engine writes to disk *)

Lemma disk_step_refl e w : disk_step e w w.
Proof. intros p. now left. Qed.

Lemma disk_step_trans e w1 w2 w3 :
  disk_step e w1 w2 -> disk_step e w2 w3 -> disk_step e w1 w3.
Proof.
  intros H12 H23 p. destruct (H23 p) as [E | G]; [| now right].
  rewrite E. apply H12.
Qed.

Lemma frames_on_disk_step e paths w w' :
  frames_on_disk e paths w -> disk_step e w w' -> frames_on_disk e paths w'.
Proof.
  unfold frames_on_disk. rewrite !Forall_forall. intros H Hs p Hp.
  destruct (Hs p) as [E | G]; [| exact G]. rewrite E. now apply H.
Qed.

Lemma keeps_disk_writes e {A} (m : M A) : keeps_disk m -> writes_frames e m.
Proof. intros H w w' r Hm p. left. now rewrite (H _ _ _ Hm). Qed.

Lemma keeps_disk_bind {A B} (m : M A) (k : A -> M B) :
  keeps_disk m -> (forall a, keeps_disk (k a)) -> keeps_disk (bind m k).
Proof.
  intros Hm Hk w w' r H. unfold bind in H.
  destruct (m w) as [w1 [a | ex]] eqn:E.
  - rewrite (Hk _ _ _ _ H). eapply Hm, E.
  - inversion H; subst. eapply Hm, E.
Qed.

Lemma writes_frames_bind e {A B} (m : M A) (k : A -> M B) :
  writes_frames e m -> (forall a, writes_frames e (k a)) ->
  writes_frames e (bind m k).
Proof.
  intros Hm Hk w w' r H. unfold bind in H.
  destruct (m w) as [w1 [a | ex]] eqn:E.
  - eapply disk_step_trans; [eapply Hm, E | eapply Hk, H].
  - inversion H; subst. eapply Hm, E.
Qed.

Lemma keeps_disk_ret {A} (a : A) : keeps_disk (ret a).
Proof. intros w w' r H. now inversion H. Qed.

Lemma keeps_disk_lift {A} (x : result A) : keeps_disk (lift x).
Proof. intros w w' r H. now inversion H. Qed.

Lemma keeps_disk_alloc img : keeps_disk (alloc img).
Proof. intros w w' r H. now inversion H. Qed.

Lemma keeps_disk_deref l : keeps_disk (deref l).
Proof.
  intros w w' r H. unfold deref in H. destruct (heap w !! l); now inversion H.
Qed.

Lemma keeps_disk_Image_open path : keeps_disk (Image_open path).
Proof.
  intros w w' r H. unfold Image_open in H.
  destruct path as [p |]; [destruct (disk w !! p) as [[img |] |] |];
    now inversion H.
Qed.

Lemma writes_frames_save e p img :
  good_frame e img -> writes_frames e (save p img).
Proof.
  intros G w w' r H. inversion H; subst. intros q. simpl.
  destruct (decide (p = q)) as [-> | Hn].
  - right. rewrite lookup_insert_eq. eauto.
  - left. now rewrite lookup_insert_ne.
Qed.

Lemma keeps_disk__load_image path : keeps_disk (_load_image path).
Proof.
  intros w w' r H. unfold _load_image in H.
  destruct (_loaded_cache w !! path); [now inversion H |].
  revert H. apply keeps_disk_bind; [apply keeps_disk_Image_open |].
  intros img. apply keeps_disk_bind; [apply keeps_disk_alloc |].
  intros l w0 w0' r0 H0. now inversion H0.
Qed.

Lemma keeps_disk__get_fitted_canvas e path ts :
  keeps_disk (_get_fitted_canvas e path ts).
Proof.
  intros w w' r H. unfold _get_fitted_canvas in H.
  destruct (_fitted_cache w !! _); revert H.
  - apply keeps_disk_bind; [apply keeps_disk_deref |].
    intros img. apply keeps_disk_alloc.
  - apply keeps_disk_bind; [apply keeps_disk__load_image |]. intros src.
    apply keeps_disk_bind; [apply keeps_disk_deref |]. intros src_img.
    apply keeps_disk_bind; [apply keeps_disk_lift |]. intros fitted_img.
    apply keeps_disk_bind; [apply keeps_disk_alloc |]. intros fitted.
    apply keeps_disk_bind; [| intros []; apply keeps_disk_alloc].
    intros w0 w0' r0 H0. now inversion H0.
Qed.

Lemma writes_frames_mapM e {A B} (f : A -> M B) xs :
  (forall x, writes_frames e (f x)) -> writes_frames e (mapM f xs).
Proof.
  intros Hf. induction xs as [| x xs IH]; simpl.
  - apply keeps_disk_writes, keeps_disk_ret.
  - apply writes_frames_bind; [apply Hf |]. intros y.
    apply writes_frames_bind; [exact IH |]. intros ys.
    apply keeps_disk_writes, keeps_disk_ret.
Qed.

Lemma writes_frames_collectM e {A B} (f : A -> M (option B)) xs :
  (forall x, writes_frames e (f x)) -> writes_frames e (collectM f xs).
Proof.
  intros Hf. induction xs as [| x xs IH]; simpl.
  - apply keeps_disk_writes, keeps_disk_ret.
  - apply writes_frames_bind; [apply Hf |]. intros y.
    apply writes_frames_bind; [exact IH |]. intros ys.
    apply keeps_disk_writes, keeps_disk_ret.
Qed.

Lemma size_eqb_eq (a b : Z * Z) : size_eqb a b = true -> a = b.
Proof.
  destruct a, b. unfold size_eqb. simpl. intros H.
  apply andb_true_iff in H as [H1 H2]. apply Z.eqb_eq in H1, H2. now subst.
Qed.

Lemma blank_frame_good e : good_frame e (blank_frame e).
Proof. split; reflexivity. Qed.

Lemma keeps_disk__generate_frame_try e v t sp fb :
  keeps_disk (_generate_frame_try e v t sp fb).
Proof.
  unfold _generate_frame_try.
  apply keeps_disk_bind.
  { destruct fb as [l |].
    - apply keeps_disk_bind; [apply keeps_disk_deref |].
      intros img. apply keeps_disk_ret.
    - apply keeps_disk_bind; [apply keeps_disk__get_fitted_canvas |].
      intros l. apply keeps_disk_deref. }
  intros base. apply keeps_disk_bind; [apply keeps_disk_lift |].
  intros img. destruct (size_eqb _ _), (im_mode img); apply keeps_disk_ret.
Qed.

Lemma _generate_frame_try_good e v t sp fb w w1 img :
  _generate_frame_try e v t sp fb w = (w1, Ok img) -> good_frame e img.
Proof.
  unfold _generate_frame_try. intros H.
  apply bind_inv_ok in H as (wa & base & _ & H).
  apply bind_inv_ok in H as (wb & img' & _ & H).
  destruct (size_eqb (im_size img') (output_resolution e)) eqn:Hsize;
    destruct (im_mode img') eqn:Hmode; inversion H; subst;
    try (split; reflexivity).
  split; [exact Hmode | now apply size_eqb_eq].
Qed.

(** [_generate_frame] always returns the frame's path, and the file of that
    path then holds a frame. *)
Lemma _generate_frame_post e vc t sp dir idx fb w :
  exists w',
    _generate_frame e vc t sp dir idx fb w = (w', Ok (frame_file dir idx)) /\
    disk_step e w w' /\ frames_on_disk e [frame_file dir idx] w'.
Proof.
  unfold _generate_frame.
  assert (Hfr : exists w1 fr,
    match vc with
    | [] => ret (Image_new RGB (output_resolution e) white)
    | visual :: _ =>
        try_except (_generate_frame_try e visual t sp fb)
          (fun ex =>
             _ <~ logger ERROR (Error_processing_visual_content ex) ;~
             ret (Image_new RGB (output_resolution e) white))
    end w = (w1, Ok fr) /\ disk w1 = disk w /\ good_frame e fr).
  { destruct vc as [| v rest].
    - exists w, (blank_frame e). split; [reflexivity |].
      split; [reflexivity | apply blank_frame_good].
    - destruct (_generate_frame_try e v t sp fb w) as [w1 [img | ex]] eqn:Htry.
      + exists w1, img. split; [now apply try_except_ok |].
        split; [eapply keeps_disk__generate_frame_try, Htry |].
        eapply _generate_frame_try_good, Htry.
      + eexists _, (blank_frame e).
        split; [rewrite (try_except_raise _ _ _ _ _ Htry); reflexivity |].
        split; [simpl; eapply keeps_disk__generate_frame_try, Htry |].
        apply blank_frame_good. }
  destruct Hfr as (w1 & fr & Hfr & Hdisk & Hgood).
  eexists. split; [rewrite (bind_ok _ _ _ _ _ Hfr); reflexivity |].
  split.
  - intros p. simpl. rewrite Hdisk.
    destruct (decide (frame_file dir idx = p)) as [<- | Hn].
    + right. rewrite lookup_insert_eq. eauto.
    + left. now rewrite lookup_insert_ne.
  - constructor; [| constructor]. simpl. rewrite lookup_insert_eq. eauto.
Qed.

Lemma mapM_frames e {A} (f : A -> M string) :
  (forall x w, exists w' p,
     f x w = (w', Ok p) /\ disk_step e w w' /\ frames_on_disk e [p] w') ->
  forall xs w, exists w' ps,
    mapM f xs w = (w', Ok ps) /\ length ps = length xs /\
    disk_step e w w' /\ frames_on_disk e ps w'.
Proof.
  intros Hf. induction xs as [| x xs IH]; intros w.
  - exists w, []. split; [reflexivity |]. split; [reflexivity |].
    split; [apply disk_step_refl | constructor].
  - destruct (Hf x w) as (w1 & p & Hp & Hs1 & Hp1).
    destruct (IH w1) as (w' & ps & Hps & Hlen & Hs2 & Hps').
    exists w', (p :: ps). split.
    { simpl. rewrite (bind_ok _ _ _ _ _ Hp), (bind_ok _ _ _ _ _ Hps).
      reflexivity. }
    split; [simpl; now rewrite Hlen |].
    split; [eapply disk_step_trans; eauto |].
    constructor; [| exact Hps'].
    pose proof (frames_on_disk_step _ _ _ _ Hp1 Hs2) as Hp'.
    now inversion Hp'.
Qed.

Lemma _create_section_animation_post e sec idx vc audio sp fb w :
  exists w' sa,
    _create_section_animation e sec idx vc audio sp fb w = (w', Ok sa) /\
    disk_step e w w' /\ frames_on_disk e (sa_frame_paths sa) w' /\
    sa_frame_paths sa <> [].
Proof.
  unfold _create_section_animation, _generate_section_frames.
  set (n := Z.max 1 _). set (dir := Py.path_join _ _).
  destruct (mapM_frames e
              (fun frame_idx =>
                 _generate_frame e vc
                   (if 1 <? n then (inject_Z frame_idx / inject_Z (n - 1))%Q
                    else 0%Q) sp dir frame_idx fb))
    with (xs := Py.range n) (w := w) as (w' & ps & Hps & Hlen & Hs & Hon).
  { intros x w0.
    destruct (_generate_frame_post e vc
                (if 1 <? n then (inject_Z x / inject_Z (n - 1))%Q else 0%Q)
                sp dir x fb w0) as (w1 & H1 & H2 & H3).
    eauto. }
  eexists w', _. split.
  { apply try_except_ok. rewrite (bind_ok _ _ _ _ _ Hps). reflexivity. }
  simpl. split; [exact Hs |]. split; [exact Hon |].
  intros ->. simpl in Hlen.
  pose proof (range_length n) as Hr. rewrite <- Hlen in Hr. simpl in Hr.
  subst n. lia.
Qed.

Lemma _get_section_visuals_post sec idx visuals w :
  exists w' vc,
    _get_section_visuals sec idx visuals w = (w', Ok vc) /\ disk w' = disk w.
Proof.
  unfold _get_section_visuals.
  destruct (slides visuals) as [sl |]; [| destruct (pages visuals) as [pg |]];
    repeat match goal with
           | |- context [match ?x with Some _ => _ | None => _ end] => destruct x
           end;
    eexists _, _; split; reflexivity.
Qed.

Lemma prepare_fitted_base_post e idx vc w :
  exists w' fb,
    prepare_fitted_base e idx vc w = (w', Ok fb) /\ disk w' = disk w.
Proof.
  unfold prepare_fitted_base.
  destruct vc as [| v rest]; [eexists _, _; split; reflexivity |].
  destruct (v_path v) as [p |]; [| eexists _, _; split; reflexivity].
  destruct (String.eqb p EmptyString); [eexists _, _; split; reflexivity |].
  unfold bind at 1. unfold os_path_exists.
  destruct (bool_decide _); [| eexists _, _; split; reflexivity].
  destruct (_get_fitted_canvas e (Some p) (output_resolution e) w)
    as [w1 [l | ex]] eqn:Hcall.
  - eexists _, _. split.
    + apply try_except_ok. rewrite (bind_ok _ _ _ _ _ Hcall). reflexivity.
    + eapply keeps_disk__get_fitted_canvas, Hcall.
  - eexists _, _. split.
    + erewrite try_except_raise; [reflexivity |]. apply bind_raise, Hcall.
    + simpl. eapply keeps_disk__get_fitted_canvas, Hcall.
Qed.

Lemma disk_step_same e w w' : disk w' = disk w -> disk_step e w w'.
Proof. intros H p. left. now rewrite H. Qed.

(** One iteration of the first loop always returns; what it appends has at
    least one frame, all on disk. *)
Lemma create_animations_section_post e visuals audios sp idx sec w :
  exists w' r,
    create_animations_section e visuals audios sp idx sec w = (w', Ok r) /\
    disk_step e w w' /\
    match r with
    | Some sa => frames_on_disk e (sa_frame_paths sa) w' /\ sa_frame_paths sa <> []
    | None => True
    end.
Proof.
  unfold create_animations_section.
  destruct (Py.next_or_none _ audios) as [au |].
  - destruct (_get_section_visuals_post sec idx visuals w) as (w1 & vc & Hvc & Hd1).
    destruct (prepare_fitted_base_post e idx vc w1) as (w2 & fb & Hfb & Hd2).
    destruct (_create_section_animation_post e sec idx vc au sp fb w2)
      as (w3 & sa & Hsa & Hs3 & Hon & Hne).
    exists w3, (Some sa). split.
    { rewrite (bind_ok _ _ _ _ _ Hvc), (bind_ok _ _ _ _ _ Hfb),
        (bind_ok _ _ _ _ _ Hsa). reflexivity. }
    split; [| auto].
    eapply disk_step_trans; [| exact Hs3].
    apply disk_step_same. now rewrite Hd2, Hd1.
  - eexists _, None. split; [reflexivity |]. split; [| exact I].
    apply disk_step_same. reflexivity.
Qed.

Lemma section_ready_step e w w' sa :
  section_ready e w sa -> disk_step e w w' -> section_ready e w' sa.
Proof.
  intros [H1 H2] Hs. split; [eapply frames_on_disk_step; eauto | exact H2].
Qed.

Lemma create_animations_sections_post e visuals audios sp sections w :
  exists w' segs,
    create_animations_sections e visuals audios sp sections w = (w', Ok segs) /\
    Forall (section_ready e w') segs.
Proof.
  unfold create_animations_sections.
  generalize (Py.enumerate sections). intros items. revert w.
  induction items as [| [idx sec] items IH]; intros w.
  - exists w, []. split; [reflexivity | constructor].
  - destruct (create_animations_section_post e visuals audios sp idx sec w)
      as (w1 & r & Hr & Hs1 & Hready).
    destruct (IH w1) as (w' & segs & Hsegs & Hall).
    assert (Hs2 : disk_step e w1 w').
    { eapply (writes_frames_collectM e); [| exact Hsegs].
      intros [i s] w0 w0' r0 H0.
      destruct (create_animations_section_post e visuals audios sp i s w0)
        as (w0'' & r0' & Hr0 & Hs0 & _).
      rewrite Hr0 in H0. inversion H0; subst. exact Hs0. }
    eexists w', _. split.
    { simpl. rewrite (bind_ok _ _ _ _ _ Hr), (bind_ok _ _ _ _ _ Hsegs).
      reflexivity. }
    destruct r as [sa |]; [| exact Hall].
    constructor; [| exact Hall].
    eapply section_ready_step; [exact Hready | exact Hs2].
Qed.

Lemma boundary_frame_ready e paths pick w :
  frames_on_disk e paths w -> paths <> [] ->
  (pick = last paths \/ pick = head paths) ->
  exists img,
    boundary_frame (transitions e) pick w = (w, Ok img) /\ good_frame e img.
Proof.
  intros Hon Hne Hpick.
  assert (Hp : exists p, pick = Some p /\ p ∈ paths).
  { destruct Hpick as [-> | ->].
    - destruct (last paths) as [p |] eqn:E;
        [eauto using last_Some_elem_of | now apply last_None in E].
    - destruct (head paths) as [p |] eqn:E;
        [eauto using head_Some_elem_of | now apply head_None in E]. }
  destruct Hp as (p & -> & Hin).
  unfold frames_on_disk in Hon. rewrite Forall_forall in Hon.
  destruct (Hon p Hin) as (img & Himg & Hgood).
  exists img. split; [| exact Hgood].
  unfold boundary_frame, Image_open. now rewrite Himg.
Qed.

Lemma Image_blend_good e im1 im2 alpha :
  good_frame e im1 -> good_frame e im2 ->
  exists img, Image_blend im1 im2 alpha = Some img /\ good_frame e img.
Proof.
  intros [Hm1 Hs1] [Hm2 Hs2]. unfold Image_blend.
  rewrite Hm1, Hm2, Hs1, Hs2. simpl.
  replace (size_eqb (output_resolution e) (output_resolution e)) with true
    by (unfold size_eqb; now rewrite !Z.eqb_refl).
  eexists. split; [reflexivity |].
  destruct (Qeq_bool alpha 0); [split; assumption |].
  destruct (Qeq_bool alpha 1); split; (assumption || reflexivity).
Qed.

Lemma fade_transition_post e a b d rate dir w :
  section_ready e w a -> section_ready e w b ->
  exists w' frames,
    fade_transition (transitions e) a b d rate dir w = (w', Ok frames) /\
    disk_step e w w'.
Proof.
  intros [Ha Hane] [Hb Hbne].
  destruct (boundary_frame_ready e _ (last (sa_frame_paths a)) w Ha Hane)
    as (from_img & Hfrom & Hgf); [now left |].
  destruct (boundary_frame_ready e _ (head (sa_frame_paths b)) w Hb Hbne)
    as (to_img & Hto & Hgt); [now right |].
  unfold fade_transition. set (n := Py.int (d * inject_Z rate)).
  set (body := fun frame_idx =>
                 match Image_blend from_img to_img
                         (if 1 <? n
                          then (inject_Z frame_idx / inject_Z (n - 1))%Q
                          else 1%Q) with
                 | Some blended_frame =>
                     _ <~ save (frame_file dir frame_idx) blended_frame ;~
                     ret (frame_file dir frame_idx)
                 | None => raise ValueError_images_do_not_match
                 end).
  assert (Hbody : forall x, writes_frames e (body x) /\
                            forall w0, exists w1 y, body x w0 = (w1, Ok y)).
  { intros x. subst body. cbv beta.
    destruct (Image_blend_good e from_img to_img
                (if 1 <? n then (inject_Z x / inject_Z (n - 1))%Q else 1%Q)
                Hgf Hgt) as (img & Himg & Hgood).
    rewrite Himg. split.
    - apply writes_frames_bind; [now apply writes_frames_save |].
      intros []. apply keeps_disk_writes, keeps_disk_ret.
    - intros w0. eexists _, _. reflexivity. }
  destruct (mapM_total body (Py.range n) (fun x => proj2 (Hbody x)) w)
    as (w' & frames & Hloop & _).
  exists w', frames. split.
  - apply try_except_ok.
    rewrite (bind_ok _ _ _ _ _ Hfrom), (bind_ok _ _ _ _ _ Hto). exact Hloop.
  - eapply (writes_frames_mapM e body); [| exact Hloop].
    intros x. apply (Hbody x).
Qed.

Lemma slide_transition_post e a b d rate dir w :
  section_ready e w a -> section_ready e w b ->
  exists w' frames,
    slide_transition (transitions e) a b d rate dir w = (w', Ok frames) /\
    disk_step e w w'.
Proof.
  intros [Ha Hane] [Hb Hbne].
  destruct (boundary_frame_ready e _ (last (sa_frame_paths a)) w Ha Hane)
    as (from_img & Hfrom & Hgf); [now left |].
  destruct (boundary_frame_ready e _ (head (sa_frame_paths b)) w Hb Hbne)
    as (to_img & Hto & Hgt); [now right |].
  unfold slide_transition. set (n := Py.int (d * inject_Z rate)).
  change (te_output_resolution (transitions e)) with (output_resolution e).
  destruct (output_resolution e) as [width height] eqn:Hres.
  set (body := fun frame_idx =>
                 _ <~ save (frame_file dir frame_idx)
                        (paste
                           (paste (Image_new RGB (width, height) white) from_img
                              (Py.int (inject_Z (- width)
                                       * (if 1 <? n
                                          then inject_Z frame_idx / inject_Z (n - 1)
                                          else 1)), 0) None)
                           to_img
                           (Py.int (inject_Z width
                                    * (1 - (if 1 <? n
                                            then inject_Z frame_idx / inject_Z (n - 1)
                                            else 1))), 0) None) ;~
                 ret (frame_file dir frame_idx)).
  assert (Hbody : forall x, writes_frames e (body x) /\
                            forall w0, exists w1 y, body x w0 = (w1, Ok y)).
  { intros x. subst body. cbv beta. split.
    - apply writes_frames_bind;
        [apply writes_frames_save; split; [reflexivity | now rewrite Hres] |].
      intros []. apply keeps_disk_writes, keeps_disk_ret.
    - intros w0. eexists _, _. reflexivity. }
  destruct (mapM_total body (Py.range n) (fun x => proj2 (Hbody x)) w)
    as (w' & frames & Hloop & _).
  exists w', frames. split.
  - apply try_except_ok.
    rewrite (bind_ok _ _ _ _ _ Hfrom), (bind_ok _ _ _ _ _ Hto). exact Hloop.
  - eapply (writes_frames_mapM e body); [| exact Hloop].
    intros x. apply (Hbody x).
Qed.

Lemma _create_transition_animation_post e a b sp w :
  section_ready e w a -> section_ready e w b ->
  exists w' t,
    _create_transition_animation e a b sp w = (w', Ok t) /\ disk_step e w w'.
Proof.
  intros Ha Hb. unfold _create_transition_animation.
  set (d := default 1%Q (sp_transition_duration sp)).
  set (dir := Py.path_join _ _).
  set (ttype := default "fade"%string (sp_transition_type sp)).
  assert (Hframes : exists w' frames,
    (if String.eqb ttype "fade" then
       fade_transition (transitions e) a b d (fps e) dir
     else if String.eqb ttype "slide" then
       slide_transition (transitions e) a b d (fps e) dir
     else fade_transition (transitions e) a b d (fps e) dir) w
    = (w', Ok frames) /\ disk_step e w w').
  { destruct (String.eqb ttype "fade");
      [apply fade_transition_post; assumption |].
    destruct (String.eqb ttype "slide");
      [apply slide_transition_post | apply fade_transition_post]; assumption. }
  destruct Hframes as (w' & frames & Hf & Hs).
  eexists w', _. split; [| exact Hs].
  apply try_except_ok. rewrite (bind_ok _ _ _ _ _ Hf). reflexivity.
Qed.

Lemma range_elem n x : x ∈ Py.range n -> 0 <= x < n.
Proof.
  unfold Py.range. intros H.
  apply list_elem_of_fmap in H as (k & -> & Hk).
  apply elem_of_seq in Hk. lia.
Qed.

Lemma mapM_with_invariant {A B} (I : world -> Prop) (f : A -> M B) xs :
  (forall x, x ∈ xs -> forall w, I w -> exists w' y, f x w = (w', Ok y) /\ I w') ->
  forall w, I w -> exists w' ys, mapM f xs w = (w', Ok ys) /\ I w'.
Proof.
  induction xs as [| x xs IH]; intros Hf w Hw.
  - exists w, []. split; [reflexivity | exact Hw].
  - destruct (Hf x (list_elem_of_here x xs) w Hw) as (w1 & y & Hy & Hw1).
    destruct (IH (fun x' Hx' => Hf x' (list_elem_of_further _ _ _ Hx')) w1 Hw1)
      as (w' & ys & Hys & Hw').
    exists w', (y :: ys). split; [| exact Hw'].
    simpl. rewrite (bind_ok _ _ _ _ _ Hy), (bind_ok _ _ _ _ _ Hys). reflexivity.
Qed.

Lemma index_ok {A} (xs : list A) i w :
  0 <= i < Z.of_nat (length xs) ->
  exists x, index xs i w = (w, Ok x) /\ xs !! Z.to_nat i = Some x.
Proof.
  intros Hi. unfold index.
  replace (0 <=? i) with true by (symmetry; apply Z.leb_le; lia).
  destruct (lookup_lt_is_Some_2 xs (Z.to_nat i)) as [x Hx]; [lia |].
  rewrite Hx. eauto.
Qed.

(** [create_animations] always returns. *)
Lemma create_animations_total e visuals sections audios w :
  exists w' d, create_animations e visuals sections audios w = (w', Ok d).
Proof.
  unfold create_animations.
  destruct (create_animations_sections_post e visuals (audio_sections audios)
              (apply_animation_style e) sections w) as (w1 & segs & Hsegs & Hall).
  rewrite (bind_ok _ _ _ _ _ Hsegs).
  destruct (mapM_with_invariant
              (fun w0 => Forall (section_ready e w0) segs)
              (fun section_idx =>
                 a <~ index segs section_idx ;~
                 b <~ index segs (section_idx + 1) ;~
                 _create_transition_animation e a b (apply_animation_style e))
              (Py.range (Z.of_nat (length segs) - 1)))
    with (w := w1) as (w2 & ts & Hts & _); [| exact Hall |].
  - intros x Hx w0 Hw0. apply range_elem in Hx.
    destruct (index_ok segs x w0) as (a & Ha & Hla); [lia |].
    destruct (index_ok segs (x + 1) w0) as (b & Hb & Hlb); [lia |].
    rewrite Forall_forall in Hw0.
    destruct (_create_transition_animation_post e a b (apply_animation_style e) w0)
      as (w' & t & Ht & Hs).
    { apply Hw0. eapply list_elem_of_lookup_2, Hla. }
    { apply Hw0. eapply list_elem_of_lookup_2, Hlb. }
    exists w', t. split.
    + rewrite (bind_ok _ _ _ _ _ Ha), (bind_ok _ _ _ _ _ Hb). exact Ht.
    + apply Forall_forall. intros sa Hsa.
      eapply section_ready_step; [now apply Hw0 | exact Hs].
  - rewrite (bind_ok _ _ _ _ _ Hts). eexists _, _. reflexivity.
Qed.

Lemma create_animations_inv e visuals sections audios w w' d :
  create_animations e visuals sections audios w = (w', Ok d) ->
  map sa_section_idx (ad_sections d)
  = surviving (Z.of_nat (length sections)) (audio_sections audios) /\
  Z.of_nat (length (ad_transitions d))
  = Z.max 0 (Z.of_nat (length (ad_sections d)) - 1) /\
  (forall (i : nat) t,
     ad_transitions d !! i = Some t ->
     exists a b,
       ad_sections d !! i = Some a /\ ad_sections d !! S i = Some b /\
       ta_from_section_idx t = sa_section_idx a /\
       ta_to_section_idx t = sa_section_idx b).
Proof.
  intros H. unfold create_animations in H.
  apply bind_inv_ok in H as (w1 & segs' & Hsegs & H).
  apply bind_inv_ok in H as (w2 & ts & Hts & H).
  inversion H; subst d; clear H. simpl.
  split; [| split].
  - unfold create_animations_sections in Hsegs.
    eapply (collectM_inv _
              (fun x r =>
                 match r with
                 | Some sa => sa_section_idx sa = fst x /\
                              is_Some (find_audio (fst x) (audio_sections audios))
                 | None => find_audio (fst x) (audio_sections audios) = None
                 end)) in Hsegs as (rs & HF & ->).
    + rewrite (surviving_sections _ _ _ HF), enumerate_fst. reflexivity.
    + intros [i sec] w0 w0' r Hr.
      apply create_animations_section_inv in Hr. exact Hr.
  - apply mapM_length in Hts. rewrite Hts. apply range_length.
  - intros i t Hi.
    eapply (mapM_inv _
              (fun k t =>
                 exists a b,
                   0 <= k /\ segs' !! Z.to_nat k = Some a /\
                   segs' !! Z.to_nat (k + 1) = Some b /\
                   ta_from_section_idx t = sa_section_idx a /\
                   ta_to_section_idx t = sa_section_idx b)) in Hts.
    + destruct (Forall2_lookup_r _ _ _ _ _ Hts Hi)
        as (k & Hk & a & b & H0 & Ha & Hb & Hf & Ht).
      apply range_lookup in Hk. subst k.
      rewrite Nat2Z.id in Ha.
      replace (Z.to_nat (Z.of_nat i + 1)) with (S i) in Hb by lia.
      eauto 10.
    + intros k w0 w0' t0 Hk.
      apply bind_inv_ok in Hk as (w3 & a & Ha & Hk).
      apply bind_inv_ok in Hk as (w4 & b & Hb & Hk).
      apply index_inv in Ha as [H0 Ha]. apply index_inv in Hb as [_ Hb].
      apply _create_transition_animation_inv in Hk as (Hf & Ht & _).
      eauto 10.
Qed.

(** C10.  Every run of [create_animations] returns.  It keeps exactly the
    sections whose index has an audio segment, in order; with [S] such
    sections it produces [max(0, S - 1)] transitions, and transition [i] goes
    from the [section_idx] of the [i]-th kept section to that of the
    [(i+1)]-th.  Since skipped sections are gone before the transitions are
    built, a transition can join sections whose indices are not consecutive:
    with audio for sections 0 and 2 only, the single transition goes from 0
    to 2. *)
Theorem C10_transitions_between_survivors :
  (forall e visuals sections audios w,
     exists w' d,
       create_animations e visuals sections audios w = (w', Ok d) /\
       map sa_section_idx (ad_sections d)
       = surviving (Z.of_nat (length sections)) (audio_sections audios) /\
       Z.of_nat (length (ad_transitions d))
       = Z.max 0 (Z.of_nat (length (ad_sections d)) - 1) /\
       (forall (i : nat) t,
          ad_transitions d !! i = Some t ->
          exists a b,
            ad_sections d !! i = Some a /\ ad_sections d !! S i = Some b /\
            ta_from_section_idx t = sa_section_idx a /\
            ta_to_section_idx t = sa_section_idx b)) /\
  run_summary (create_animations small_engine no_visuals three_plain_sections
                 audio_for_0_and_2 empty_world)
  = Some ([0; 2], [(0, 2)]).
Proof.
  split; [| vm_compute; reflexivity].
  intros e visuals sections audios w.
  destruct (create_animations_total e visuals sections audios w)
    as (w' & d & Hrun).
  exists w', d. split; [exact Hrun |].
  eapply create_animations_inv, Hrun.
Qed.

Lemma C10_transitions_between_survivors_witness :
  exists w' d,
    create_animations small_engine no_visuals three_plain_sections
      audio_for_0_and_2 empty_world = (w', Ok d) /\
    map sa_section_idx (ad_sections d) = [0; 2] /\
    Z.of_nat (length (ad_transitions d)) = 1.
Proof.
  destruct (proj1 C10_transitions_between_survivors small_engine no_visuals
              three_plain_sections audio_for_0_and_2 empty_world)
    as (w' & d & Hrun & Hsegs & Hlen & _).
  exists w', d. split; [exact Hrun |]. split; [exact Hsegs |].
  rewrite Hlen. apply (f_equal (@length Z)) in Hsegs.
  rewrite length_map in Hsegs. rewrite Hsegs. reflexivity.
Defined.

(** * More of the engine, of the effects and of the compositor *)

(** ** Frame file names *)

Lemma append_length (a b : string) :
  String.length (a +:+ b) = (String.length a + String.length b)%nat.
Proof. induction a as [| c a IH]; simpl; [reflexivity | now rewrite IH]. Qed.

Lemma append_cancel_l (p a b : string) : p +:+ a = p +:+ b -> a = b.
Proof.
  induction p as [| c p IH]; simpl; intros H; [assumption |].
  injection H as H. auto.
Qed.

Lemma append_split (a b x y : string) :
  String.length a = String.length b -> a +:+ x = b +:+ y -> a = b /\ x = y.
Proof.
  revert b. induction a as [| c a IH]; intros [| d b] Hl H; simpl in *;
    try discriminate.
  - now split.
  - injection H as -> H. injection Hl as Hl.
    destruct (IH _ Hl H) as [-> ->]. now split.
Qed.

Lemma append_cancel_r (a b s : string) : a +:+ s = b +:+ s -> a = b.
Proof.
  intros H. apply (append_split a b s s); [| assumption].
  apply (f_equal String.length) in H. rewrite !append_length in H. lia.
Qed.

Lemma append_cons_l (a b s : string) :
  a +:+ s = b -> ("0" +:+ a) +:+ s = "0" +:+ b.
Proof. intros <-. reflexivity. Qed.

Lemma zeros_S (k : nat) :
  String.concat EmptyString (replicate (S k) "0"%string)
  = "0"%string +:+ String.concat EmptyString (replicate k "0"%string).
Proof. destruct k; reflexivity. Qed.

Lemma zeros_length (k : nat) :
  String.length (String.concat EmptyString (replicate k "0"%string)) = k.
Proof.
  induction k as [| k IH]; [reflexivity |].
  now rewrite zeros_S, append_length, IH.
Qed.

Lemma zeros_add (i j : nat) (s : string) :
  String.concat EmptyString (replicate (i + j) "0"%string) +:+ s
  = String.concat EmptyString (replicate i "0"%string)
    +:+ (String.concat EmptyString (replicate j "0"%string) +:+ s).
Proof.
  induction i as [| i IH]; [reflexivity |].
  change (S i + j)%nat with (S (i + j)). rewrite !zeros_S.
  now apply append_cons_l.
Qed.

(** The decimal numeral of a positive number does not start with a zero. *)
Lemma pretty_N_go_head (x : N) :
  (0 < x)%N ->
  forall s, exists c r,
    pretty_N_go x s = String c r /\ String c EmptyString <> "0"%string.
Proof.
  induction (N.lt_wf_0 x) as [x _ IH]. intros Hx s.
  rewrite pretty_N_go_step by assumption.
  destruct (decide (x < 10)%N) as [Hlt | Hge].
  - rewrite N.div_small, pretty_N_go_0 by assumption.
    rewrite N.mod_small by assumption.
    eexists _, _. split; [reflexivity |].
    assert (x = 1 \/ x = 2 \/ x = 3 \/ x = 4 \/ x = 5 \/ x = 6 \/ x = 7
            \/ x = 8 \/ x = 9)%N as Hc by lia.
    repeat (destruct Hc as [-> | Hc]; [discriminate |]). subst. discriminate.
  - apply IH.
    + apply N.div_lt; lia.
    + apply N.div_str_pos. lia.
Qed.

Lemma pretty_Z_head (n : Z) :
  0 <= n ->
  exists c r,
    pretty n = String c r /\ (String c EmptyString = "0"%string -> n = 0).
Proof.
  intros Hn. destruct n as [| p | p]; [| | lia].
  - eexists _, EmptyString. split; [reflexivity | reflexivity].
  - destruct (pretty_N_go_head (N.pos p) eq_refl EmptyString) as (c & r & H & Hc).
    exists c, r. split; [exact H | intros E; contradiction].
Qed.

Lemma fmt_05d_inj (a b : Z) :
  0 <= a -> 0 <= b -> Py.fmt_05d a = Py.fmt_05d b -> a = b.
Proof.
  assert (Hgen : forall (k : nat) (sa sb : string) (a b : Z),
    0 <= a -> 0 <= b -> sa = pretty a -> sb = pretty b ->
    sa = String.concat EmptyString (replicate k "0"%string) +:+ sb ->
    a = b).
  { intros k sa sb x y Hx Hy Hsa Hsb H. destruct k as [| k].
    - simpl in H. subst. now apply (inj pretty).
    - rewrite zeros_S in H.
      destruct (pretty_Z_head x Hx) as (c & r & Hp & Hc).
      destruct (pretty_Z_head y Hy) as (c' & r' & Hp' & _).
      rewrite Hsa, Hp in H. simpl in H. injection H as -> Hr.
      specialize (Hc eq_refl). subst x. simpl in Hp. injection Hp as <-.
      apply (f_equal String.length) in Hr. rewrite append_length in Hr.
      rewrite Hsb, Hp' in Hr. simpl in Hr. lia. }
  intros Ha Hb H. unfold Py.fmt_05d in H. cbv zeta in H.
  set (ka := (5 - String.length (pretty a))%nat) in *.
  set (kb := (5 - String.length (pretty b))%nat) in *.
  destruct (Nat.le_gt_cases ka kb) as [Hle | Hgt].
  - replace kb with (ka + (kb - ka))%nat in H by lia.
    rewrite zeros_add in H. apply append_cancel_l in H.
    now apply (Hgen (kb - ka)%nat (pretty a) (pretty b)).
  - replace ka with (kb + (ka - kb))%nat in H by lia.
    rewrite zeros_add in H. apply append_cancel_l in H. symmetry in H.
    symmetry. now apply (Hgen (ka - kb)%nat (pretty b) (pretty a)).
Qed.

Lemma frame_file_inj dir (i j : Z) :
  0 <= i -> 0 <= j -> frame_file dir i = frame_file dir j -> i = j.
Proof.
  intros Hi Hj H. unfold frame_file, Py.path_join in H.
  do 3 apply append_cancel_l in H. apply append_cancel_r in H.
  now apply fmt_05d_inj.
Qed.

(** ** What the frame loops leave on disk *)

(** A loop whose iteration [x] saves one image to [path x]: when the paths
    are distinct, every file holds at the end what its iteration wrote. *)
Lemma mapM_saves (I : world -> Prop) {A} (path : A -> string)
  (P : A -> image -> Prop) (f : A -> M string) xs :
  (forall x, x ∈ xs -> forall w, I w ->
     exists w' img,
       f x w = (w', Ok (path x)) /\
       disk w' = <[path x := ImageFile img]> (disk w) /\ P x img /\ I w') ->
  NoDup (map path xs) ->
  forall w, I w ->
    exists w',
      mapM f xs w = (w', Ok (map path xs)) /\ I w' /\
      (forall x, x ∈ xs ->
         exists img, disk w' !! path x = Some (ImageFile img) /\ P x img) /\
      (forall q, q ∉ map path xs -> disk w' !! q = disk w !! q).
Proof.
  induction xs as [| x xs IH]; intros Hf Hnd w HI.
  - exists w. split; [reflexivity |]. split; [exact HI |].
    split; [intros x Hx; inversion Hx | reflexivity].
  - cbn [map] in Hnd. apply NoDup_cons in Hnd as [Hx Hnd].
    destruct (Hf x (list_elem_of_here _ _) w HI) as (w1 & img & H1 & Hd1 & HP & HI1).
    destruct (IH (fun y Hy => Hf y (list_elem_of_further _ _ _ Hy)) Hnd w1 HI1)
      as (w' & Hm & HI' & Hin & Hout).
    exists w'. split.
    { cbn [mapM map]. rewrite (bind_ok _ _ _ _ _ H1), (bind_ok _ _ _ _ _ Hm).
      reflexivity. }
    split; [exact HI' |]. split.
    + intros y Hy. apply elem_of_cons in Hy as [-> | Hy].
      * exists img. split; [| exact HP].
        rewrite (Hout _ Hx), Hd1. apply lookup_insert_eq.
      * now apply Hin.
    + intros q Hq. cbn [map] in Hq. apply not_elem_of_cons in Hq as [Hq1 Hq2].
      rewrite (Hout _ Hq2), Hd1. now apply lookup_insert_ne.
Qed.

Lemma range_NoDup n : NoDup (Py.range n).
Proof.
  unfold Py.range. change (NoDup (Z.of_nat <$> seq 0 (Z.to_nat n))).
  apply NoDup_fmap_2_strong; [| apply NoDup_seq].
  intros x y _ _ H. now apply Nat2Z.inj.
Qed.

Lemma frame_files_NoDup dir n : NoDup (map (frame_file dir) (Py.range n)).
Proof.
  change (NoDup (frame_file dir <$> Py.range n)).
  apply NoDup_fmap_2_strong; [| apply range_NoDup].
  intros i j Hi Hj. apply range_elem in Hi, Hj.
  apply frame_file_inj; lia.
Qed.

(** [_generate_frame] writes one file, the frame's, and that file then holds
    an RGB image of the output resolution. *)
Lemma _generate_frame_writes e vc t sp dir idx fb w :
  exists w' img,
    _generate_frame e vc t sp dir idx fb w = (w', Ok (frame_file dir idx)) /\
    disk w' = <[frame_file dir idx := ImageFile img]> (disk w) /\
    good_frame e img.
Proof.
  unfold _generate_frame. destruct vc as [| v rest].
  - eexists _, _. split; [reflexivity |]. split; [reflexivity |].
    apply blank_frame_good.
  - destruct (_generate_frame_try e v t sp fb w) as [w1 [img | ex]] eqn:Htry.
    + pose proof (keeps_disk__generate_frame_try _ _ _ _ _ _ _ _ Htry) as Hd.
      eexists _, img. split.
      { rewrite (bind_ok _ _ _ _ _ (try_except_ok _ _ _ _ _ Htry)). reflexivity. }
      split; [simpl; now rewrite Hd |].
      eapply _generate_frame_try_good, Htry.
    + pose proof (keeps_disk__generate_frame_try _ _ _ _ _ _ _ _ Htry) as Hd.
      eexists _, (blank_frame e). split.
      { unfold bind at 1. rewrite (try_except_raise _ _ _ _ _ Htry). reflexivity. }
      split; [simpl; now rewrite Hd | apply blank_frame_good].
Qed.

(** ** The effects on a frame *)

Lemma lt_spec (t thr : Q) : Py.lt t thr = true <-> (t < thr)%Q.
Proof.
  unfold Py.lt. rewrite negb_true_iff. split.
  - intros H. apply Qnot_le_lt. intros Hle.
    apply Qle_bool_iff in Hle. congruence.
  - intros H. destruct (Qle_bool thr t) eqn:E; [| reflexivity].
    apply Qle_bool_iff in E. exfalso. eapply Qlt_not_le; eauto.
Qed.

Lemma int_Qeq_0 (x : Q) : (x == 0)%Q -> Py.int x = 0.
Proof.
  unfold Py.int, Qeq. simpl. intros H.
  replace (Qnum x) with 0 by lia. apply Z.quot_0_l. discriminate.
Qed.

Lemma _apply_alpha_shape img a :
  im_mode (_apply_alpha img a) = RGBA /\
  im_size (_apply_alpha img a) = im_size img.
Proof.
  unfold _apply_alpha. split; [reflexivity |].
  destruct (im_mode img) eqn:E; [unfold convert_RGBA; rewrite E |]; reflexivity.
Qed.

Lemma _apply_zoom_ok e img zf :
  pillow_resize (_RESAMPLE e) ->
  0 < fst (im_size img) -> 0 < snd (im_size img) ->
  exists out,
    _apply_zoom e img zf = Ok out /\ im_mode out = im_mode img /\
    im_size out = im_size img.
Proof.
  intros Hres Hw Hh. unfold _apply_zoom, Image_resize.
  destruct (im_size img) as [w h] eqn:Hsize. simpl in Hw, Hh.
  set (nw := Z.max 1 _). set (nh := Z.max 1 _).
  destruct (Hres img nw nh) as (r & Hr & Hrm & Hrs & _);
    try (rewrite Hsize; simpl; assumption); try lia.
  rewrite Hr, Hrm.
  eexists. split; [reflexivity |].
  destruct (im_mode img); split; reflexivity.
Qed.

Lemma _apply_offset_shape img offset :
  im_mode (_apply_offset img offset) = im_mode img /\
  im_size (_apply_offset img offset) = im_size img.
Proof.
  unfold _apply_offset. destruct (im_size img) as [w h] eqn:Hsize.
  destruct (im_mode img); split; reflexivity.
Qed.

Lemma _apply_animation_effects_shape e img t sp :
  pillow_resize (_RESAMPLE e) ->
  0 < fst (im_size img) -> 0 < snd (im_size img) ->
  exists out,
    _apply_animation_effects e img t sp = Ok out /\
    im_size out = im_size img /\
    match tier_threshold (complexity_of sp) with
    | Some thr =>
        ((t < thr)%Q -> im_mode out = RGBA) /\ ((thr <= t)%Q -> out = img)
    | None => out = img
    end.
Proof.
  intros Hres Hw Hh.
  unfold _apply_animation_effects, tier_threshold.
  set (c := complexity_of sp).
  destruct (String.eqb c "low") eqn:E1.
  { destruct (Py.lt t (1 # 10)) eqn:L.
    - eexists. split; [reflexivity |].
      split; [apply _apply_alpha_shape |].
      split; [intros _; apply _apply_alpha_shape |].
      intros Hle. apply lt_spec in L. exfalso. eapply Qlt_not_le; eauto.
    - exists img. split; [reflexivity |]. split; [reflexivity |].
      split; [| reflexivity].
      intros Hlt. apply lt_spec in Hlt. congruence. }
  destruct (String.eqb c "medium") eqn:E2.
  { destruct (Py.lt t (2 # 10)) eqn:L.
    - set (a := Py.int _). set (zf := (_ + _)%Q).
      destruct (_apply_alpha_shape img a) as [Ham Has].
      destruct (_apply_zoom_ok e (_apply_alpha img a) zf Hres)
        as (out & Hout & Hm & Hs); try (rewrite Has; assumption).
      exists out. split; [exact Hout |].
      split; [now rewrite Hs |].
      split; [intros _; now rewrite Hm |].
      intros Hle. apply lt_spec in L. exfalso. eapply Qlt_not_le; eauto.
    - exists img. split; [reflexivity |]. split; [reflexivity |].
      split; [| reflexivity].
      intros Hlt. apply lt_spec in Hlt. congruence. }
  destruct (String.eqb c "high") eqn:E3.
  { destruct (Py.lt t (3 # 10)) eqn:L.
    - set (a := Py.int _). set (zf := (_ + _)%Q).
      destruct (_apply_alpha_shape img a) as [Ham Has].
      destruct (_apply_zoom_ok e (_apply_alpha img a) zf Hres)
        as (out & Hout & Hm & Hs); try (rewrite Has; assumption).
      rewrite Hout.
      set (off := (_, _)).
      destruct (_apply_offset_shape out off) as [Hom Hos].
      eexists. split; [reflexivity |].
      split; [now rewrite Hos, Hs |].
      split; [intros _; now rewrite Hom, Hm |].
      intros Hle. apply lt_spec in L. exfalso. eapply Qlt_not_le; eauto.
    - exists img. split; [reflexivity |]. split; [reflexivity |].
      split; [| reflexivity].
      intros Hlt. apply lt_spec in Hlt. congruence. }
  exists img. split; [reflexivity |]. split; reflexivity.
Qed.

(** ** The first and the last frame of a section *)

Lemma effects_at_start e img sp thr (t : Q) :
  pillow_resize (_RESAMPLE e) ->
  0 < fst (im_size img) -> 0 < snd (im_size img) ->
  tier_threshold (complexity_of sp) = Some thr -> (t == 0)%Q ->
  exists out,
    _apply_animation_effects e img t sp = Ok out /\
    im_mode out = RGBA /\ im_size out = im_size img /\ fully_transparent out.
Proof.
  intros Hres Hw Hh Htier Ht.
  destruct (_apply_alpha_zero img) as (Ham & Has & Hat).
  unfold _apply_animation_effects.
  apply tier_threshold_cases in Htier as [[-> ->] | [[-> ->] | [-> ->]]];
    cbn [String.eqb Ascii.eqb Bool.eqb].
  - replace (Py.lt t (1 # 10)) with true
      by (symmetry; apply lt_spec; rewrite Ht; reflexivity).
    rewrite (int_Qeq_0 (255 * (t / (1 # 10)))) by (rewrite Ht; reflexivity).
    eexists. split; [reflexivity |]. auto.
  - replace (Py.lt t (2 # 10)) with true
      by (symmetry; apply lt_spec; rewrite Ht; reflexivity).
    rewrite (int_Qeq_0 (255 * (t / (2 # 10)))) by (rewrite Ht; reflexivity).
    cbv zeta.
    destruct (_apply_zoom_transparent e (_apply_alpha img 0)
                ((95 # 100) + t / (2 # 10) * (5 # 100))%Q Hres)
      as (out & Hout & Hm & Hs & Htr); try rewrite Has; auto.
    exists out. rewrite Hout, Hs. auto.
  - replace (Py.lt t (3 # 10)) with true
      by (symmetry; apply lt_spec; rewrite Ht; reflexivity).
    rewrite (int_Qeq_0 (255 * (t / (3 # 10)))) by (rewrite Ht; reflexivity).
    cbv zeta.
    destruct (_apply_zoom_transparent e (_apply_alpha img 0)
                ((90 # 100) + t / (3 # 10) * (10 # 100))%Q Hres)
      as (out & Hout & Hm & Hs & Htr); try rewrite Has; auto.
    rewrite Hout.
    destruct (_apply_offset_transparent out
                (Py.int (10 * (1 - t / (3 # 10))), Py.int (5 * (1 - t / (3 # 10))))
                Hm Htr) as (Hom & Hos & Hot).
    eexists. split; [reflexivity |]. rewrite Hos, Hs. auto.
Qed.

Lemma effects_after_window e img sp thr (t : Q) :
  tier_threshold (complexity_of sp) = Some thr -> (thr <= t)%Q ->
  _apply_animation_effects e img t sp = Ok img.
Proof.
  intros Htier Ht. unfold _apply_animation_effects.
  apply tier_threshold_cases in Htier as [[-> ->] | [[-> ->] | [-> ->]]];
    cbn [String.eqb Ascii.eqb Bool.eqb]; now rewrite (lt_threshold _ _ Ht).
Qed.

Lemma blend8_0 (out inp : Z) : blend8 0 out inp = blend8 0 out 0.
Proof. unfold blend8. now rewrite !Z.mul_0_l. Qed.

(** A frame without any opacity, composited over the white canvas, gives a
    white canvas. *)
Lemma composite_transparent e out :
  im_size out = output_resolution e -> fully_transparent out ->
  forall x y,
    getpixel (paste (Image_new RGB (output_resolution e) white) out (0, 0)
                (Some (alpha_band out))) x y = white.
Proof.
  intros Hs Htr x y. unfold paste. cbn [getpixel Image_new im_mode fst snd].
  destruct (in_box x y 0 0 _ _) eqn:Hbox; [| reflexivity].
  unfold in_box in Hbox.
  assert (Ha : alpha_band out (x - 0) (y - 0) = 0).
  { unfold alpha_band. apply Htr; lia. }
  rewrite Ha.
  destruct (getpixel out (x - 0) (y - 0)) as [[[sr sg] sb] sa].
  unfold white. cbv zeta.
  now rewrite (blend8_0 255 sr), (blend8_0 255 sg), (blend8_0 255 sb).
Qed.

Lemma _generate_frame_try_base e v t sp l base out w :
  heap w !! l = Some base ->
  _apply_animation_effects e base t sp = Ok out ->
  im_size out = output_resolution e ->
  _generate_frame_try e v t sp (Some l) w
  = (w, Ok (match im_mode out with
            | RGBA => paste (Image_new RGB (output_resolution e) white) out
                        (0, 0) (Some (alpha_band out))
            | RGB => out
            end)).
Proof.
  intros Hl Heff Hs. unfold _generate_frame_try.
  assert (Hd : (img <~ deref l ;~ ret (copy img)) w = (w, Ok base)).
  { unfold bind, deref. now rewrite Hl. }
  rewrite (bind_ok _ _ _ _ _ Hd). unfold copy.
  assert (Hlift : lift (_apply_animation_effects e base t sp) w = (w, Ok out)).
  { unfold lift. now rewrite Heff. }
  rewrite (bind_ok _ _ _ _ _ Hlift).
  replace (size_eqb (im_size out) (output_resolution e)) with true.
  - destruct (im_mode out); reflexivity.
  - rewrite Hs. unfold size_eqb. now rewrite !Z.eqb_refl.
Qed.

Lemma Qdiv_same (z : Z) : z <> 0 -> (inject_Z z / inject_Z z == 1)%Q.
Proof.
  intros Hz. apply Qmult_inv_r. intros H.
  unfold Qeq, inject_Z in H. simpl in H. lia.
Qed.

Lemma Qdiv_zero (z : Z) : (inject_Z 0 / inject_Z z == 0)%Q.
Proof. unfold Qdiv. apply Qmult_0_l. Qed.

(** ** The frames of a transition *)

Lemma Image_blend_some im1 im2 alpha :
  im_mode im1 = im_mode im2 -> im_size im1 = im_size im2 ->
  exists img, Image_blend im1 im2 alpha = Some img.
Proof.
  intros Hm Hs. unfold Image_blend. rewrite Hm, Hs.
  replace (mode_eqb (im_mode im2) (im_mode im2)) with true
    by (destruct (im_mode im2); reflexivity).
  replace (size_eqb (im_size im2) (im_size im2)) with true
    by (unfold size_eqb; now rewrite !Z.eqb_refl).
  eexists. reflexivity.
Qed.

Lemma Image_blend_start im1 im2 alpha img :
  Image_blend im1 im2 alpha = Some img -> (alpha == 0)%Q -> img = im1.
Proof.
  unfold Image_blend. destruct (_ && _); [| discriminate].
  intros H Ha. apply Qeq_bool_iff in Ha. rewrite Ha in H. now inversion H.
Qed.

Lemma Image_blend_end im1 im2 alpha img :
  Image_blend im1 im2 alpha = Some img -> (alpha == 1)%Q -> img = im2.
Proof.
  unfold Image_blend. destruct (_ && _); [| discriminate].
  intros H Ha.
  assert (H0 : Qeq_bool alpha 0 = false).
  { destruct (Qeq_bool alpha 0) eqn:E; [| reflexivity].
    apply Qeq_bool_iff in E. rewrite E in Ha. discriminate. }
  apply Qeq_bool_iff in Ha. rewrite H0, Ha in H. now inversion H.
Qed.

(** The frames of a fade whose two boundary frames could be read and match:
    one file per index, each holding the blend of its own position. *)
Lemma fade_transition_files te a b d rate dir w from_img to_img :
  boundary_frame te (last (sa_frame_paths a)) w = (w, Ok from_img) ->
  boundary_frame te (head (sa_frame_paths b)) w = (w, Ok to_img) ->
  im_mode from_img = im_mode to_img -> im_size from_img = im_size to_img ->
  let n := Py.int (d * inject_Z rate) in
  exists w',
    fade_transition te a b d rate dir w
    = (w', Ok (map (frame_file dir) (Py.range n))) /\
    log w' = log w /\
    (forall i, i ∈ Py.range n ->
       exists img,
         disk w' !! frame_file dir i = Some (ImageFile img) /\
         Image_blend from_img to_img
           (if 1 <? n then (inject_Z i / inject_Z (n - 1))%Q else 1%Q)
         = Some img) /\
    (forall q, q ∉ map (frame_file dir) (Py.range n) ->
       disk w' !! q = disk w !! q).
Proof.
  intros Hfrom Hto Hm Hs n. unfold fade_transition. fold n.
  destruct (mapM_saves (fun w0 => log w0 = log w) (frame_file dir)
              (fun i img =>
                 Image_blend from_img to_img
                   (if 1 <? n then (inject_Z i / inject_Z (n - 1))%Q else 1%Q)
                 = Some img)
              (fun frame_idx =>
                 match Image_blend from_img to_img
                         (if 1 <? n
                          then (inject_Z frame_idx / inject_Z (n - 1))%Q
                          else 1%Q) with
                 | Some blended_frame =>
                     _ <~ save (frame_file dir frame_idx) blended_frame ;~
                     ret (frame_file dir frame_idx)
                 | None => raise ValueError_images_do_not_match
                 end)
              (Py.range n)) with (w := w) as (w' & Hloop & Hlog & Hin & Hout).
  - intros i _ w0 Hw0.
    destruct (Image_blend_some from_img to_img
                (if 1 <? n then (inject_Z i / inject_Z (n - 1))%Q else 1%Q)
                Hm Hs) as (img & Himg).
    rewrite Himg. eexists _, img. split; [reflexivity |].
    split; [reflexivity |]. split; [reflexivity | exact Hw0].
  - apply frame_files_NoDup.
  - reflexivity.
  - exists w'. split; [| auto].
    apply try_except_ok.
    rewrite (bind_ok _ _ _ _ _ Hfrom), (bind_ok _ _ _ _ _ Hto). exact Hloop.
Qed.

Lemma range_first n : 0 < n -> 0 ∈ Py.range n.
Proof.
  intros Hn. unfold Py.range. change (0 ∈ Z.of_nat <$> seq 0 (Z.to_nat n)).
  apply list_elem_of_fmap. exists 0%nat. split; [reflexivity |].
  apply elem_of_seq. lia.
Qed.

Lemma range_last n : 0 < n -> n - 1 ∈ Py.range n.
Proof.
  intros Hn. unfold Py.range. change (n - 1 ∈ Z.of_nat <$> seq 0 (Z.to_nat n)).
  apply list_elem_of_fmap. exists (Z.to_nat (n - 1)). split; [lia |].
  apply elem_of_seq. lia.
Qed.

Lemma range_nonpos n : n <= 0 -> Py.range n = [].
Proof.
  intros Hn. unfold Py.range. replace (Z.to_nat n) with 0%nat by lia.
  reflexivity.
Qed.

Lemma fade_transition_ends te a b d rate dir w from_img to_img :
  boundary_frame te (last (sa_frame_paths a)) w = (w, Ok from_img) ->
  boundary_frame te (head (sa_frame_paths b)) w = (w, Ok to_img) ->
  im_mode from_img = im_mode to_img -> im_size from_img = im_size to_img ->
  let n := Py.int (d * inject_Z rate) in
  exists w',
    fade_transition te a b d rate dir w
    = (w', Ok (map (frame_file dir) (Py.range n))) /\
    log w' = log w /\
    (1 < n ->
     disk w' !! frame_file dir 0 = Some (ImageFile from_img) /\
     disk w' !! frame_file dir (n - 1) = Some (ImageFile to_img)) /\
    (n = 1 -> disk w' !! frame_file dir 0 = Some (ImageFile to_img)) /\
    (n <= 0 -> w' = w).
Proof.
  intros Hfrom Hto Hm Hs n.
  destruct (fade_transition_files te a b d rate dir w from_img to_img
              Hfrom Hto Hm Hs) as (w' & Hrun & Hlog & Hin & Hout).
  fold n in Hrun, Hin, Hout.
  exists w'. split; [exact Hrun |]. split; [exact Hlog |].
  split; [| split].
  - intros Hn.
    destruct (Hin 0 (range_first n ltac:(lia))) as (i0 & Hd0 & Hb0).
    destruct (Hin (n - 1) (range_last n ltac:(lia))) as (i1 & Hd1 & Hb1).
    replace (1 <? n) with true in Hb0, Hb1 by (symmetry; lia).
    apply Image_blend_start in Hb0; [| apply Qdiv_zero].
    apply Image_blend_end in Hb1; [| apply Qdiv_same; lia].
    subst. now split.
  - intros Hn.
    destruct (Hin 0 (range_first n ltac:(lia))) as (i0 & Hd0 & Hb0).
    replace (1 <? n) with false in Hb0 by (symmetry; lia).
    apply Image_blend_end in Hb0; [| reflexivity]. now subst.
  - intros Hn. unfold fade_transition in Hrun. fold n in Hrun.
    rewrite (try_except_ok _ _ w w (@nil string)) in Hrun.
    + now inversion Hrun.
    + rewrite (bind_ok _ _ _ _ _ Hfrom), (bind_ok _ _ _ _ _ Hto).
      now rewrite range_nonpos.
Qed.

Lemma int_Qeq (x : Q) (z : Z) : (x == inject_Z z)%Q -> Py.int x = z.
Proof.
  unfold Py.int, Qeq. simpl. intros H.
  replace (Qnum x) with (z * Z.pos (Qden x)) by lia.
  apply Z.quot_mul. discriminate.
Qed.

Lemma slide_transition_files te a b d rate dir w from_img to_img :
  boundary_frame te (last (sa_frame_paths a)) w = (w, Ok from_img) ->
  boundary_frame te (head (sa_frame_paths b)) w = (w, Ok to_img) ->
  let n := Py.int (d * inject_Z rate) in
  let width := fst (te_output_resolution te) in
  let height := snd (te_output_resolution te) in
  exists w',
    slide_transition te a b d rate dir w
    = (w', Ok (map (frame_file dir) (Py.range n))) /\
    log w' = log w /\
    (forall i, i ∈ Py.range n ->
       let slide_pos :=
         if 1 <? n then (inject_Z i / inject_Z (n - 1))%Q else 1%Q in
       disk w' !! frame_file dir i
       = Some (ImageFile
                 (paste
                    (paste (Image_new RGB (width, height) white) from_img
                       (Py.int (inject_Z (- width) * slide_pos), 0) None)
                    to_img
                    (Py.int (inject_Z width * (1 - slide_pos)), 0) None))) /\
    (forall q, q ∉ map (frame_file dir) (Py.range n) ->
       disk w' !! q = disk w !! q).
Proof.
  intros Hfrom Hto n width height. unfold slide_transition. fold n.
  subst width height. destruct (te_output_resolution te) as [width height].
  cbn [fst snd].
  destruct (mapM_saves (fun w0 => log w0 = log w) (frame_file dir)
              (fun i img =>
                 img = paste
                         (paste (Image_new RGB (width, height) white) from_img
                            (Py.int (inject_Z (- width)
                                     * (if 1 <? n
                                        then inject_Z i / inject_Z (n - 1)
                                        else 1)), 0) None)
                         to_img
                         (Py.int (inject_Z width
                                  * (1 - (if 1 <? n
                                          then inject_Z i / inject_Z (n - 1)
                                          else 1))), 0) None)
              (fun frame_idx =>
                 _ <~ save (frame_file dir frame_idx)
                        (paste
                           (paste (Image_new RGB (width, height) white) from_img
                              (Py.int (inject_Z (- width)
                                       * (if 1 <? n
                                          then inject_Z frame_idx / inject_Z (n - 1)
                                          else 1)), 0) None)
                           to_img
                           (Py.int (inject_Z width
                                    * (1 - (if 1 <? n
                                            then inject_Z frame_idx / inject_Z (n - 1)
                                            else 1))), 0) None) ;~
                 ret (frame_file dir frame_idx))
              (Py.range n)) with (w := w) as (w' & Hloop & Hlog & Hin & Hout).
  - intros i _ w0 Hw0. eexists _, _. split; [reflexivity |].
    split; [reflexivity |]. split; [reflexivity | exact Hw0].
  - apply frame_files_NoDup.
  - reflexivity.
  - exists w'. split; [| split; [exact Hlog | split; [| exact Hout]]].
    + apply try_except_ok.
      rewrite (bind_ok _ _ _ _ _ Hfrom), (bind_ok _ _ _ _ _ Hto). exact Hloop.
    + intros i Hi. cbv zeta. destruct (Hin i Hi) as (img & Hd & ->). exact Hd.
Qed.

(** At slide position 0 the frame shows the outgoing image, at position 1
    the incoming one. *)
Lemma slide_frame_start width height from_img to_img (pos : Q) x y :
  (pos == 0)%Q -> im_size from_img = (width, height) ->
  0 <= x < width -> 0 <= y < height ->
  getpixel
    (paste (paste (Image_new RGB (width, height) white) from_img
              (Py.int (inject_Z (- width) * pos), 0) None)
       to_img (Py.int (inject_Z width * (1 - pos)), 0) None) x y
  = opaque (getpixel from_img x y).
Proof.
  intros Hpos Hs Hx Hy.
  rewrite (int_Qeq (inject_Z (- width) * pos) 0)
    by (rewrite Hpos; apply Qmult_0_r).
  rewrite (int_Qeq (inject_Z width * (1 - pos)) width)
    by (rewrite Hpos; unfold Qminus; rewrite Qplus_0_r; apply Qmult_1_r).
  rewrite paste_outside
    by (cbn [fst snd]; unfold in_box; apply andb_false_iff; left;
        apply andb_false_iff; left; apply andb_false_iff; left;
        apply Z.leb_gt; lia).
  unfold paste. cbn [getpixel Image_new im_mode fst snd]. rewrite Hs.
  cbn [fst snd].
  replace (in_box x y 0 0 width height) with true
    by (symmetry; unfold in_box; rewrite !andb_true_iff; lia).
  rewrite !Z.sub_0_r. unfold opaque, white.
  destruct (getpixel from_img x y) as [[[r g] b] al]. reflexivity.
Qed.

Lemma slide_frame_end width height from_img to_img (pos : Q) x y :
  (pos == 1)%Q -> im_size to_img = (width, height) ->
  0 <= x < width -> 0 <= y < height ->
  getpixel
    (paste (paste (Image_new RGB (width, height) white) from_img
              (Py.int (inject_Z (- width) * pos), 0) None)
       to_img (Py.int (inject_Z width * (1 - pos)), 0) None) x y
  = opaque (getpixel to_img x y).
Proof.
  intros Hpos Hs Hx Hy.
  rewrite (int_Qeq (inject_Z width * (1 - pos)) 0)
    by (rewrite Hpos; apply Qmult_0_r).
  unfold paste at 1. cbn [getpixel Image_new im_mode fst snd]. rewrite Hs.
  cbn [fst snd].
  replace (in_box x y 0 0 width height) with true
    by (symmetry; unfold in_box; rewrite !andb_true_iff; lia).
  rewrite !Z.sub_0_r. unfold opaque.
  destruct (getpixel to_img x y) as [[[r g] b] al].
  destruct (getpixel _ x y) as [[[r' g'] b'] al']. reflexivity.
Qed.

(** ** The records of a run *)

Lemma mapM_paths {A} (f : A -> M string) (path : A -> string) :
  (forall x w w' y, f x w = (w', Ok y) -> y = path x) ->
  forall xs w w' ys, mapM f xs w = (w', Ok ys) -> ys = map path xs.
Proof.
  intros Hf xs w w' ys H.
  pose proof (mapM_inv f (fun x y => y = path x) Hf xs w w' ys H) as HF.
  clear H. induction HF as [| x y xs ys Hxy _ IH]; [reflexivity |].
  cbn [map]. now rewrite Hxy, IH.
Qed.

Lemma _generate_section_frames_inv e vc audio sp dir fb w w' frames :
  _generate_section_frames e vc audio sp dir fb w = (w', Ok frames) ->
  frames = map (frame_file dir)
             (Py.range (Z.max 1 (Py.round (a_duration audio * inject_Z (fps e))))).
Proof.
  unfold _generate_section_frames. apply mapM_paths.
  intros x w0 w1 y H.
  destruct (_generate_frame_total e vc
              (if 1 <? Z.max 1 (Py.round (a_duration audio * inject_Z (fps e)))
               then (inject_Z x
                     / inject_Z (Z.max 1 (Py.round (a_duration audio
                                                    * inject_Z (fps e))) - 1))%Q
               else 0%Q) sp dir x fb w0) as (w2 & H2).
  rewrite H2 in H. now inversion H.
Qed.

Lemma frame_files_length dir n :
  Z.of_nat (length (map (frame_file dir) (Py.range n))) = Z.max 0 n.
Proof. rewrite length_map. apply range_length. Qed.

Lemma _create_section_animation_record e sec idx vc audio sp fb w w' sa :
  _create_section_animation e sec idx vc audio sp fb w = (w', Ok sa) ->
  sa = section_record e idx audio.
Proof.
  unfold _create_section_animation. intros H.
  apply try_except_inv_ok in H;
    [| intros; apply (log_and_reraise_at Error_creating_section_animation)].
  apply bind_inv_ok in H as (w1 & frames & Hfr & H).
  apply _generate_section_frames_inv in Hfr. subst frames.
  inversion H; subst. unfold section_record. cbv zeta.
  rewrite frame_files_length. f_equal. lia.
Qed.

Lemma create_animations_section_record e visuals audios sp idx sec w w' r :
  create_animations_section e visuals audios sp idx sec w = (w', Ok r) ->
  r = section_record e idx <$> find_audio idx audios.
Proof.
  unfold create_animations_section, find_audio.
  destruct (Py.next_or_none _ audios) as [au |]; intros H.
  - apply bind_inv_ok in H as (w1 & vc & _ & H).
    apply bind_inv_ok in H as (w2 & fb & _ & H).
    apply bind_inv_ok in H as (w3 & sa & Hsa & H).
    inversion H; subst. simpl. f_equal.
    eapply _create_section_animation_record; eauto.
  - now inversion H.
Qed.

Lemma omap_id_fmap {A B} (g : A -> option B) (xs : list A) :
  omap id (g <$> xs) = omap g xs.
Proof.
  induction xs as [| x xs IH]; [reflexivity |].
  cbn. destruct (g x); now rewrite IH.
Qed.

Lemma create_animations_sections_records e visuals audios sp sections w w' segs :
  create_animations_sections e visuals audios sp sections w = (w', Ok segs) ->
  segs = planned_sections e (Z.of_nat (length sections)) audios.
Proof.
  unfold create_animations_sections. intros H.
  apply (collectM_inv _
           (fun (x : Z * section) r =>
              r = section_record e (fst x) <$> find_audio (fst x) audios))
    in H as (rs & HF & ->).
  - unfold planned_sections. rewrite <- enumerate_fst.
    change (map fst ?l) with (fst <$> l).
    rewrite <- (omap_id_fmap
                  (fun idx => section_record e idx <$> find_audio idx audios)).
    f_equal. rewrite <- list_fmap_compose.
    induction HF as [| x r xs rs Hr _ IH]; [reflexivity |].
    cbn [fmap list_fmap]. now rewrite Hr, IH.
  - intros [idx sec] w0 w1 r Hr. cbn [fst].
    eapply create_animations_section_record; eauto.
Qed.

Lemma fade_transition_inv te a b d rate dir w w' frames :
  fade_transition te a b d rate dir w = (w', Ok frames) ->
  frames = map (frame_file dir) (Py.range (Py.int (d * inject_Z rate))).
Proof.
  unfold fade_transition. intros H.
  apply try_except_inv_ok in H;
    [| intros; apply (log_and_reraise_at Error_creating_fade_transition)].
  apply bind_inv_ok in H as (w1 & from_img & _ & H).
  apply bind_inv_ok in H as (w2 & to_img & _ & H).
  revert H. apply mapM_paths. intros x w3 w4 y.
  destruct (Image_blend _ _ _); intros H; inversion H. reflexivity.
Qed.

Lemma slide_transition_inv te a b d rate dir w w' frames :
  slide_transition te a b d rate dir w = (w', Ok frames) ->
  frames = map (frame_file dir) (Py.range (Py.int (d * inject_Z rate))).
Proof.
  unfold slide_transition. intros H.
  apply try_except_inv_ok in H;
    [| intros; apply (log_and_reraise_at Error_creating_slide_transition)].
  apply bind_inv_ok in H as (w1 & from_img & _ & H).
  apply bind_inv_ok in H as (w2 & to_img & _ & H).
  destruct (te_output_resolution te) as [width height].
  revert H. apply mapM_paths. intros x w3 w4 y H. now inversion H.
Qed.

Lemma _create_transition_animation_record e a b sp w w' t :
  _create_transition_animation e a b sp w = (w', Ok t) ->
  t = transition_record e sp a b.
Proof.
  unfold _create_transition_animation. intros H.
  apply try_except_inv_ok in H;
    [| intros; apply (log_and_reraise_at Error_creating_transition_animation)].
  apply bind_inv_ok in H as (w1 & frames & Hfr & H).
  assert (Hframes : frames
                    = map (frame_file
                             (Py.path_join (temp_dir e)
                                ("transition_" +:+ pretty (sa_section_idx a)
                                 +:+ "_to_" +:+ pretty (sa_section_idx b)
                                 +:+ "_frames")))
                        (Py.range (Py.int (default 1%Q (sp_transition_duration sp)
                                           * inject_Z (fps e))))).
  { destruct (String.eqb _ "fade");
      [eapply fade_transition_inv; eauto |].
    destruct (String.eqb _ "slide");
      [eapply slide_transition_inv | eapply fade_transition_inv]; eauto. }
  subst frames. inversion H; subst. unfold transition_record. cbv zeta.
  now rewrite frame_files_length.
Qed.

Lemma transitions_loop_records e sp (segs : list section_animation) w w' ts :
  mapM (fun section_idx =>
          a <~ index segs section_idx ;~
          b <~ index segs (section_idx + 1) ;~
          _create_transition_animation e a b sp)
       (Py.range (Z.of_nat (length segs) - 1)) w = (w', Ok ts) ->
  ts = planned_transitions e sp segs.
Proof.
  intros H.
  pose proof (mapM_length _ _ _ _ _ H) as Hlen.
  apply (mapM_inv _
           (fun i t => exists a b,
              0 <= i /\ segs !! Z.to_nat i = Some a /\
              segs !! Z.to_nat (i + 1) = Some b /\
              t = transition_record e sp a b)) in H.
  - unfold planned_transitions. apply list_eq. intros i.
    rewrite lookup_zip_with.
    destruct (ts !! i) as [t |] eqn:Et.
    + destruct (Forall2_lookup_r _ _ _ _ _ H Et) as (x & Ex & a & b & Hx & Ha & Hb & ->).
      apply range_lookup in Ex. subst x. rewrite Nat2Z.id in Ha.
      replace (Z.to_nat (Z.of_nat i + 1)) with (S i) in Hb by lia.
      rewrite Ha. cbn. rewrite lookup_tail, Hb. reflexivity.
    + apply lookup_ge_None in Et. symmetry.
      destruct (segs !! i) as [a |] eqn:Ea; [| reflexivity]. cbn.
      rewrite lookup_tail.
      destruct (segs !! S i) as [b |] eqn:Eb; [| reflexivity]. exfalso.
      apply lookup_lt_Some in Eb.
      pose proof (range_length (Z.of_nat (length segs) - 1)) as Hr. lia.
  - intros x w0 w1 t Ht.
    apply bind_inv_ok in Ht as (w2 & a & Ha & Ht).
    apply bind_inv_ok in Ht as (w3 & b & Hb & Ht).
    apply index_inv in Ha as [Hx Ha]. apply index_inv in Hb as [_ Hb].
    exists a, b. split; [exact Hx |]. split; [exact Ha |]. split; [exact Hb |].
    eapply _create_transition_animation_record; eauto.
Qed.

Lemma create_animations_plan e visuals sections audios w w' d :
  create_animations e visuals sections audios w = (w', Ok d) ->
  let secs :=
    planned_sections e (Z.of_nat (length sections)) (audio_sections audios) in
  d = {| ad_sections := secs;
         ad_transitions := planned_transitions e (apply_animation_style e) secs;
         ad_style := animation_style e;
         ad_metadata :=
           {| md_total_duration := Py.sum (map sa_duration secs);
              md_section_count := Z.of_nat (length secs);
              md_resolution := output_resolution e;
              md_fps := fps e |} |}.
Proof.
  unfold create_animations. intros H.
  apply bind_inv_ok in H as (w1 & segs & Hsegs & H).
  apply bind_inv_ok in H as (w2 & ts & Hts & H).
  apply create_animations_sections_records in Hsegs.
  apply transitions_loop_records in Hts.
  inversion H; subst. reflexivity.
Qed.

(** ** The files of a run *)

Lemma frames_written e (paths : list string) w w' :
  (forall p, p ∈ paths ->
     exists img, disk w' !! p = Some (ImageFile img) /\ good_frame e img) ->
  (forall q, q ∉ paths -> disk w' !! q = disk w !! q) ->
  disk_step e w w' /\ frames_on_disk e paths w'.
Proof.
  intros Hin Hout. split.
  - intros p. destruct (decide (p ∈ paths)) as [Hp | Hp].
    + right. now apply Hin.
    + left. now apply Hout.
  - apply Forall_forall. intros p Hp. now apply Hin.
Qed.

Lemma fade_transition_ready e a b d rate dir w :
  section_ready e w a -> section_ready e w b ->
  exists w' frames,
    fade_transition (transitions e) a b d rate dir w = (w', Ok frames) /\
    log w' = log w /\ disk_step e w w' /\ frames_on_disk e frames w'.
Proof.
  intros [Ha Hane] [Hb Hbne].
  destruct (boundary_frame_ready e _ (last (sa_frame_paths a)) w Ha Hane)
    as (from_img & Hfrom & Hgf); [now left |].
  destruct (boundary_frame_ready e _ (head (sa_frame_paths b)) w Hb Hbne)
    as (to_img & Hto & Hgt); [now right |].
  destruct (fade_transition_files (transitions e) a b d rate dir w from_img
              to_img Hfrom Hto) as (w' & Hrun & Hlog & Hin & Hout).
  { destruct Hgf as [-> _], Hgt as [-> _]. reflexivity. }
  { destruct Hgf as [_ ->], Hgt as [_ ->]. reflexivity. }
  eexists w', _. split; [exact Hrun |]. split; [exact Hlog |].
  apply frames_written; [| exact Hout].
  intros p Hp. change (p ∈ frame_file dir <$> Py.range (Py.int (d * inject_Z rate))) in Hp.
  apply list_elem_of_fmap in Hp as (i & -> & Hi).
  destruct (Hin i Hi) as (img & Hd & Hblend).
  exists img. split; [exact Hd |].
  destruct (Image_blend_good e from_img to_img
              (if 1 <? Py.int (d * inject_Z rate)
               then (inject_Z i / inject_Z (Py.int (d * inject_Z rate) - 1))%Q
               else 1%Q) Hgf Hgt) as (img' & Hblend' & Hgood).
  rewrite Hblend in Hblend'. now inversion Hblend'.
Qed.

Lemma slide_transition_ready e a b d rate dir w :
  section_ready e w a -> section_ready e w b ->
  exists w' frames,
    slide_transition (transitions e) a b d rate dir w = (w', Ok frames) /\
    log w' = log w /\ disk_step e w w' /\ frames_on_disk e frames w'.
Proof.
  intros [Ha Hane] [Hb Hbne].
  destruct (boundary_frame_ready e _ (last (sa_frame_paths a)) w Ha Hane)
    as (from_img & Hfrom & Hgf); [now left |].
  destruct (boundary_frame_ready e _ (head (sa_frame_paths b)) w Hb Hbne)
    as (to_img & Hto & Hgt); [now right |].
  destruct (slide_transition_files (transitions e) a b d rate dir w from_img
              to_img Hfrom Hto) as (w' & Hrun & Hlog & Hin & Hout).
  eexists w', _. split; [exact Hrun |]. split; [exact Hlog |].
  apply frames_written; [| exact Hout].
  intros p Hp. change (p ∈ frame_file dir <$> Py.range (Py.int (d * inject_Z rate))) in Hp.
  apply list_elem_of_fmap in Hp as (i & -> & Hi).
  eexists. split; [apply (Hin i Hi) |].
  split; [reflexivity |]. cbn [im_size paste].
  change (te_output_resolution (transitions e)) with (output_resolution e).
  now destruct (output_resolution e).
Qed.

Lemma _create_transition_animation_ready e a b sp w :
  section_ready e w a -> section_ready e w b ->
  exists w' t,
    _create_transition_animation e a b sp w = (w', Ok t) /\
    log w' = log w /\ disk_step e w w' /\
    frames_on_disk e (ta_frame_paths t) w'.
Proof.
  intros Ha Hb. unfold _create_transition_animation.
  set (d := default 1%Q (sp_transition_duration sp)).
  set (dir := Py.path_join _ _).
  set (ttype := default "fade"%string (sp_transition_type sp)).
  assert (Hframes : exists w' frames,
    (if String.eqb ttype "fade" then
       fade_transition (transitions e) a b d (fps e) dir
     else if String.eqb ttype "slide" then
       slide_transition (transitions e) a b d (fps e) dir
     else fade_transition (transitions e) a b d (fps e) dir) w
    = (w', Ok frames) /\
    log w' = log w /\ disk_step e w w' /\ frames_on_disk e frames w').
  { destruct (String.eqb ttype "fade");
      [apply fade_transition_ready; assumption |].
    destruct (String.eqb ttype "slide");
      [apply slide_transition_ready | apply fade_transition_ready]; assumption. }
  destruct Hframes as (w' & frames & Hf & Hlog & Hs & Hon).
  eexists w', _. split.
  { apply try_except_ok. rewrite (bind_ok _ _ _ _ _ Hf). reflexivity. }
  split; [exact Hlog | split; [exact Hs | exact Hon]].
Qed.

(** A loop whose iterations only write frames, and whose values name frames
    that are on disk when the iteration ends. *)
Lemma mapM_ready e {A B} (I : world -> Prop) (paths : B -> list string)
  (f : A -> M B) xs :
  (forall w w', I w -> disk_step e w w' -> I w') ->
  (forall x, x ∈ xs -> forall w, I w ->
     exists w' y,
       f x w = (w', Ok y) /\ log w' = log w /\ disk_step e w w' /\
       frames_on_disk e (paths y) w') ->
  forall w, I w ->
    exists w' ys,
      mapM f xs w = (w', Ok ys) /\ log w' = log w /\ disk_step e w w' /\
      Forall (fun y => frames_on_disk e (paths y) w') ys.
Proof.
  intros HI. induction xs as [| x xs IH]; intros Hf w Hw.
  - exists w, []. split; [reflexivity |]. split; [reflexivity |].
    split; [apply disk_step_refl | constructor].
  - destruct (Hf x (list_elem_of_here x xs) w Hw)
      as (w1 & y & Hy & Hlog1 & Hs1 & Hon1).
    destruct (IH (fun x' Hx' => Hf x' (list_elem_of_further _ _ _ Hx')) w1
                (HI _ _ Hw Hs1)) as (w' & ys & Hys & Hlog & Hs & Hon).
    exists w', (y :: ys). split.
    { simpl. rewrite (bind_ok _ _ _ _ _ Hy), (bind_ok _ _ _ _ _ Hys).
      reflexivity. }
    split; [congruence |].
    split; [eapply disk_step_trans; eauto |].
    constructor; [| exact Hon].
    eapply frames_on_disk_step; eauto.
Qed.

Lemma create_animations_files e visuals sections audios w :
  exists w' d,
    create_animations e visuals sections audios w = (w', Ok d) /\
    Forall (fun sa => frames_on_disk e (sa_frame_paths sa) w') (ad_sections d) /\
    Forall (fun t => frames_on_disk e (ta_frame_paths t) w') (ad_transitions d) /\
    disk_step e w w'.
Proof.
  unfold create_animations.
  destruct (create_animations_sections_post e visuals (audio_sections audios)
              (apply_animation_style e) sections w) as (w1 & segs & Hsegs & Hall).
  pose proof (writes_frames_collectM e
                (fun '(section_idx, sec) =>
                   create_animations_section e visuals (audio_sections audios)
                     (apply_animation_style e) section_idx sec)
                (Py.enumerate sections)) as Hwf.
  assert (Hstep1 : disk_step e w w1).
  { eapply Hwf; [| exact Hsegs]. intros [idx sec] w0 w0' r Hr.
    destruct (create_animations_section_post e visuals (audio_sections audios)
                (apply_animation_style e) idx sec w0) as (w2 & r2 & Hr2 & Hs & _).
    rewrite Hr in Hr2. inversion Hr2; subst. exact Hs. }
  rewrite (bind_ok _ _ _ _ _ Hsegs).
  destruct (mapM_ready e
              (fun w0 => Forall (section_ready e w0) segs)
              ta_frame_paths
              (fun section_idx =>
                 a <~ index segs section_idx ;~
                 b <~ index segs (section_idx + 1) ;~
                 _create_transition_animation e a b (apply_animation_style e))
              (Py.range (Z.of_nat (length segs) - 1)))
    with (w := w1) as (w2 & ts & Hts & _ & Hs2 & Hon); [| | exact Hall |].
  - intros w0 w0' H0 Hs. apply Forall_forall. intros sa Hsa.
    rewrite Forall_forall in H0.
    eapply section_ready_step; [now apply H0 | exact Hs].
  - intros x Hx w0 Hw0. apply range_elem in Hx.
    destruct (index_ok segs x w0) as (a & Ha & Hla); [lia |].
    destruct (index_ok segs (x + 1) w0) as (b & Hb & Hlb); [lia |].
    rewrite Forall_forall in Hw0.
    destruct (_create_transition_animation_ready e a b (apply_animation_style e) w0)
      as (w' & t & Ht & Hlog & Hs & Hon).
    { apply Hw0. eapply list_elem_of_lookup_2, Hla. }
    { apply Hw0. eapply list_elem_of_lookup_2, Hlb. }
    exists w', t. split; [| auto].
    rewrite (bind_ok _ _ _ _ _ Ha), (bind_ok _ _ _ _ _ Hb). exact Ht.
  - rewrite (bind_ok _ _ _ _ _ Hts). eexists _, _. split; [reflexivity |].
    cbn [ad_sections ad_transitions].
    split; [| split; [exact Hon | eapply disk_step_trans; eauto]].
    apply Forall_forall. intros sa Hsa. rewrite Forall_forall in Hall.
    eapply frames_on_disk_step; [apply (Hall sa Hsa) | exact Hs2].
Qed.

(** ** The compositor: sorting and counting *)

Lemma sorted_id {A} (key : A -> Z) (l : list A) :
  Sorted (fun a b => key a <= key b) l -> Py.sorted key l = l.
Proof.
  induction 1 as [| x l Hs IH Hhd]; [reflexivity |].
  change (Py.sorted key (x :: l)) with (Py.insert_by key x (Py.sorted key l)).
  rewrite IH. destruct Hhd as [| y l Hxy]; [reflexivity |].
  cbn [Py.insert_by]. now replace (key x <=? key y) with true by (symmetry; lia).
Qed.

Lemma insert_by_comm {A} (key : A -> Z) (x y : A) (l : list A) :
  key x <> key y ->
  Py.insert_by key x (Py.insert_by key y l)
  = Py.insert_by key y (Py.insert_by key x l).
Proof.
  intros Hxy. induction l as [| z l IH]; cbn [Py.insert_by].
  - destruct (Z.leb_spec (key x) (key y)), (Z.leb_spec (key y) (key x));
      try lia; reflexivity.
  - destruct (Z.leb_spec (key y) (key z)), (Z.leb_spec (key x) (key z));
      cbn [Py.insert_by];
      repeat match goal with
             | |- context [?a <=? ?b] => destruct (Z.leb_spec a b)
             end; try lia; try reflexivity.
    now rewrite IH.
Qed.

Lemma sorted_Permutation {A} (key : A -> Z) (l l' : list A) :
  Permutation l l' -> NoDup (map key l) -> Py.sorted key l = Py.sorted key l'.
Proof.
  induction 1 as [| x l l' Hp IH | x y l | l l' l'' Hp1 IH1 Hp2 IH2]; intros Hnd.
  - reflexivity.
  - cbn [map] in Hnd. apply NoDup_cons in Hnd as [_ Hnd].
    change (Py.insert_by key x (Py.sorted key l)
            = Py.insert_by key x (Py.sorted key l')).
    now rewrite IH.
  - cbn [map] in Hnd. apply NoDup_cons in Hnd as [Hy _].
    change (Py.insert_by key y (Py.insert_by key x (Py.sorted key l))
            = Py.insert_by key x (Py.insert_by key y (Py.sorted key l))).
    apply insert_by_comm. intros E. apply Hy. rewrite E. left.
  - rewrite IH1 by assumption. apply IH2.
    change (NoDup (key <$> l')). rewrite <- Hp1. exact Hnd.
Qed.

Lemma elements_length (l : list element) :
  length l = (length (element_segments l) + length (element_transitions l))%nat.
Proof.
  induction l as [| el l IH]; [reflexivity |].
  rewrite element_segments_cons, element_transitions_cons.
  destruct el; simpl; lia.
Qed.

(** ** Steps 6 and 7 of the pipeline together *)

Lemma enumerate_lookup {A} (l : list A) (i : nat) :
  Py.enumerate l !! i = (fun x => (Z.of_nat i, x)) <$> l !! i.
Proof. rewrite enumerate_imap, list_lookup_imap. reflexivity. Qed.

Lemma omap_total {A B} (f : A -> option B) (xs : list A) :
  (forall x, x ∈ xs -> is_Some (f x)) ->
  Forall2 (fun x y => f x = Some y) xs (omap f xs).
Proof.
  induction xs as [| x xs IH]; intros H; [constructor |].
  destruct (H x (list_elem_of_here _ _)) as [y Hy].
  cbn [omap list_omap]. rewrite Hy. constructor; [exact Hy |].
  apply IH. intros x' Hx'. apply H. now apply list_elem_of_further.
Qed.

Lemma Sorted_positions {A} (key : A -> Z) (l : list A) : forall k : nat,
  (forall (i : nat) x, l !! i = Some x -> key x = Z.of_nat (k + i)) ->
  Sorted (fun a b => key a <= key b) l.
Proof.
  induction l as [| x l IH]; intros k H; [constructor |].
  constructor.
  - apply (IH (S k)). intros i y Hy. rewrite (H (S i) y Hy). f_equal. lia.
  - destruct l as [| y l']; constructor.
    rewrite (H 0%nat x eq_refl), (H 1%nat y eq_refl). lia.
Qed.

Lemma flat_map_nil {A B} (f : A -> list B) (xs : list A) :
  (forall x, x ∈ xs -> f x = []) -> flat_map f xs = [].
Proof.
  induction xs as [| x xs IH]; intros H; [reflexivity |].
  cbn [flat_map]. rewrite (H x (list_elem_of_here _ _)), IH; [reflexivity |].
  intros x' Hx'. apply H. now apply list_elem_of_further.
Qed.

Lemma planned_sections_elem e n audios sa :
  sa ∈ planned_sections e n audios ->
  exists au,
    find_audio (sa_section_idx sa) audios = Some au /\
    sa = section_record e (sa_section_idx sa) au.
Proof.
  unfold planned_sections. intros H.
  apply list_elem_of_omap in H as (idx & _ & H).
  destruct (find_audio idx audios) as [au |] eqn:E; [| discriminate].
  cbn in H. inversion H; subst. cbn [section_record sa_section_idx].
  eauto.
Qed.

Lemma planned_transitions_length e sp secs :
  length (planned_transitions e sp secs) = (length secs - 1)%nat.
Proof.
  unfold planned_transitions. rewrite length_zip_with.
  destruct secs; cbn [length tail]; lia.
Qed.

Lemma Py_max_same (a : Q) : Py.max a a = a.
Proof.
  unfold Py.max. destruct (Qlt_le_dec a a) as [H | H]; reflexivity.
Qed.

(** What the compositor makes of sections that all have their narration. *)
Lemma sync_of_narrated c e n audios (ts : list transition_animation) w :
  let secs := planned_sections e n (audio_sections audios) in
  length ts = (length secs - 1)%nat ->
  forall anims,
    ad_sections anims = secs -> ad_transitions anims = ts ->
    exists fc,
      sync_audio_with_visuals c anims audios w = (w, Ok fc) /\
      map sc_animation (element_segments (fc_elements fc)) = secs /\
      map tc_animation (element_transitions (fc_elements fc)) = ts /\
      (secs <> [] -> first_section_then_pairs (fc_elements fc) = true) /\
      (forall s, s ∈ element_segments (fc_elements fc) ->
                 sc_duration s = a_duration (sc_audio s) /\
                 sa_duration (sc_animation s) = a_duration (sc_audio s) /\
                 sc_frame_count s
                 = Z.max 1 (Py.round (a_duration (sc_audio s)
                                      * inject_Z (fps e)))).
Proof.
  intros secs Hlen anims Hsecs Hts.
  rewrite sync_audio_with_visuals_eq. rewrite Hsecs, Hts.
  set (dir := Py.path_join (vc_temp_dir c) "composition").
  set (segs := omap (synced_section c (audio_sections audios) dir)
                 (Py.enumerate secs)).
  set (tcs := map (synced_transition c (audio_transitions audios) dir)
                (Py.enumerate ts)).
  (* every section has its audio *)
  assert (Hall : forall x, x ∈ Py.enumerate secs ->
            exists au,
              find_audio (sa_section_idx (snd x)) (audio_sections audios)
              = Some au /\
              snd x = section_record e (sa_section_idx (snd x)) au).
  { intros [i sa] Hx. apply enumerate_spec in Hx as [_ Hx]. cbn [snd].
    apply (planned_sections_elem e n). eapply list_elem_of_lookup_2, Hx. }
  assert (Hlog : flat_map (synced_section_log (audio_sections audios))
                   (Py.enumerate secs) = []).
  { apply flat_map_nil. intros x Hx. unfold synced_section_log.
    destruct (Hall x Hx) as (au & -> & _). reflexivity. }
  rewrite Hlog, add_log_nil.
  assert (HF : Forall2 (fun x s =>
                          synced_section c (audio_sections audios) dir x = Some s)
                 (Py.enumerate secs) segs).
  { apply omap_total. intros x Hx. unfold synced_section.
    destruct (Hall x Hx) as (au & -> & _). eauto. }
  assert (Hseg : forall (i : nat) s, segs !! i = Some s ->
            exists sa au,
              secs !! i = Some sa /\
              find_audio (sa_section_idx sa) (audio_sections audios) = Some au /\
              sa = section_record e (sa_section_idx sa) au /\
              s = _create_segment_composition c sa au (Z.of_nat i) dir).
  { intros i s Hs.
    destruct (Forall2_lookup_r _ _ _ _ _ HF Hs) as (x & Hx & Hsync).
    rewrite enumerate_lookup in Hx.
    destruct (secs !! i) as [sa |] eqn:Esa; [| discriminate].
    cbn in Hx. inversion Hx; subst x. clear Hx.
    assert (Hin : (Z.of_nat i, sa) ∈ Py.enumerate secs).
    { apply enumerate_spec. split; [lia |]. now rewrite Nat2Z.id. }
    destruct (Hall _ Hin) as (au & Hau & Hrec). cbn [snd] in Hau, Hrec.
    unfold synced_section in Hsync. cbn [snd fst] in Hsync.
    rewrite Hau in Hsync. inversion Hsync. eauto 10. }
  assert (Hsl : length segs = length secs).
  { rewrite <- (Forall2_length _ _ _ HF). unfold Py.enumerate.
    rewrite length_combine.
    pose proof (range_length (Z.of_nat (length secs))). lia. }
  assert (Hss : Py.sorted sc_section_idx segs = segs).
  { apply sorted_id. apply (Sorted_positions _ _ 0%nat). intros i s Hs.
    destruct (Hseg i s Hs) as (sa & au & _ & _ & _ & ->). reflexivity. }
  assert (Htl : forall (i : nat) t, tcs !! i = Some t ->
            exists ta,
              ts !! i = Some ta /\
              t = synced_transition c (audio_transitions audios) dir
                    (Z.of_nat i, ta)).
  { intros i t Ht. unfold tcs in Ht.
    change (map ?f ?l) with (f <$> l) in Ht.
    rewrite list_lookup_fmap, enumerate_lookup in Ht.
    destruct (ts !! i) as [ta |]; [| discriminate].
    cbn in Ht. inversion Ht. eauto. }
  assert (Hst : Py.sorted tc_transition_idx tcs = tcs).
  { apply sorted_id. apply (Sorted_positions _ _ 0%nat). intros i t Ht.
    destruct (Htl i t Ht) as (ta & _ & ->). reflexivity. }
  assert (Htcl : length tcs = length ts).
  { unfold tcs, Py.enumerate. rewrite length_map, length_combine.
    pose proof (range_length (Z.of_nat (length ts))). lia. }
  eexists. split; [reflexivity |].
  destruct (assemble_elements_general c segs tcs dir) as [Het Hes].
  rewrite Hss in Hes. rewrite Hst in Het.
  rewrite take_ge in Hes by lia.
  split; [| split; [| split]].
  - rewrite Hes. apply list_eq. intros i.
    change (map ?f ?l) with (f <$> l). rewrite list_lookup_fmap.
    destruct (segs !! i) as [s |] eqn:Es.
    + destruct (Hseg i s Es) as (sa & au & Hsa & _ & _ & ->).
      cbn. now rewrite Hsa.
    + apply lookup_ge_None in Es. cbn. symmetry. apply lookup_ge_None. lia.
  - rewrite Het. apply list_eq. intros i.
    change (map ?f ?l) with (f <$> l). rewrite list_lookup_fmap.
    destruct (tcs !! i) as [t |] eqn:Et.
    + destruct (Htl i t Et) as (ta & Hta & ->). cbn. now rewrite Hta.
    + apply lookup_ge_None in Et. cbn. symmetry. apply lookup_ge_None. lia.
  - intros Hne. rewrite assemble_elements_eq, Hss, Hst.
    destruct segs as [| s0 rest] eqn:Esegs.
    { destruct secs; [congruence | discriminate]. }
    cbn [app first_section_then_pairs].
    assert (Hd : length (drop 1 (s0 :: rest)) = length tcs).
    { cbn [drop]. rewrite drop_0. simpl in Hsl. lia. }
    pose proof (steps_paired (s0 :: rest) tcs 0 Hd) as Hp.
    change (fun (i : nat) (t : transition_composition) => (Z.of_nat (0 + i), t))
      with (fun (i : nat) (t : transition_composition) => (Z.of_nat i, t)) in Hp.
    rewrite Hp. apply pairs_shape.
  - intros s Hs. rewrite Hes in Hs.
    apply list_elem_of_lookup_1 in Hs as [i Hs].
    destruct (Hseg i s Hs) as (sa & au & _ & _ & Hrec & ->).
    cbn [_create_segment_composition sc_duration sc_audio sc_animation
         sc_frame_count].
    rewrite Hrec. cbn [section_record sa_duration sa_frame_count].
    split; [apply Py_max_same |]. split; reflexivity.
Qed.

(** ** Rounding of the frame count *)

Lemma round_cases (x : Q) :
  ((x - inject_Z (Qfloor x) < 1 # 2)%Q /\ Py.round x = Qfloor x) \/
  ((x - inject_Z (Qfloor x) == 1 # 2)%Q /\
   (Py.round x = Qfloor x \/ Py.round x = Qfloor x + 1)) \/
  ((1 # 2 < x - inject_Z (Qfloor x))%Q /\ Py.round x = Qfloor x + 1).
Proof.
  unfold Py.round.
  destruct (x - inject_Z (Qfloor x) ?= 1 # 2)%Q eqn:Hc.
  - apply Qeq_alt in Hc. right. left. split; [exact Hc |].
    destruct (Z.even (Qfloor x)); auto.
  - apply Qlt_alt in Hc. left. auto.
  - apply Qgt_alt in Hc. right. right. auto.
Qed.

Lemma round_error (x : Q) :
  (x - (1 # 2) <= inject_Z (Py.round x))%Q /\
  (inject_Z (Py.round x) <= x + (1 # 2))%Q.
Proof.
  pose proof (Qfloor_le x) as Hlo. pose proof (Qlt_floor x) as Hhi.
  rewrite inject_Z_plus in Hhi.
  destruct (round_cases x) as [[Hc ->] | [[Hc [-> | ->]] | [Hc ->]]];
    rewrite ?inject_Z_plus; change (inject_Z 1) with 1%Q in *;
    remember (inject_Z (Qfloor x)) as f eqn:Ef; clear Ef; split; lra.
Qed.

Lemma round_mono (x y : Q) : (x <= y)%Q -> Py.round x <= Py.round y.
Proof.
  intros Hxy.
  pose proof (Qfloor_resp_le _ _ Hxy) as Hf.
  pose proof (Qfloor_le x) as Hxlo. pose proof (Qlt_floor x) as Hxhi.
  pose proof (Qfloor_le y) as Hylo. pose proof (Qlt_floor y) as Hyhi.
  rewrite inject_Z_plus in Hxhi, Hyhi.
  change (inject_Z 1) with 1%Q in *.
  destruct (Z.eq_dec (Qfloor x) (Qfloor y)) as [E | NE].
  - destruct (round_cases x) as [[Hx Rx] | [[Hx Rx] | [Hx Rx]]];
      destruct (round_cases y) as [[Hy Ry] | [[Hy Ry] | [Hy Ry]]];
      rewrite <- ?E in Hy; try lia;
      try (exfalso; remember (inject_Z (Qfloor x)) as f eqn:Ef; clear Ef; lra).
    assert (Exy : (x == y)%Q)
      by (remember (inject_Z (Qfloor x)) as f eqn:Ef; clear Ef; lra).
    rewrite (round_Qeq _ _ Exy). lia.
  - assert (Hx : Py.round x <= Qfloor x + 1)
      by (destruct (round_cases x) as [[_ R] | [[_ [R | R]] | [_ R]]]; lia).
    assert (Hy : Qfloor y <= Py.round y)
      by (destruct (round_cases y) as [[_ R] | [[_ [R | R]] | [_ R]]]; lia).
    lia.
Qed.

Lemma section_frame_count_bounds e (a1 a2 : audio_segment) :
  0 <= fps e -> (a_duration a1 <= a_duration a2)%Q ->
  let n1 := Z.max 1 (Py.round (a_duration a1 * inject_Z (fps e))) in
  let n2 := Z.max 1 (Py.round (a_duration a2 * inject_Z (fps e))) in
  n1 <= n2 /\
  ((1 # 2 <= a_duration a1 * inject_Z (fps e))%Q ->
   (a_duration a1 * inject_Z (fps e) - (1 # 2) <= inject_Z n1)%Q /\
   (inject_Z n1 <= a_duration a1 * inject_Z (fps e) + (1 # 2))%Q).
Proof.
  intros Hfps Hd n1 n2. split.
  - subst n1 n2. apply Z.max_le_compat_l. apply round_mono.
    apply Qmult_le_compat_r; [exact Hd |].
    change 0%Q with (inject_Z 0). now rewrite <- Zle_Qle.
  - intros Hhalf. destruct (round_error (a_duration a1 * inject_Z (fps e)))
      as [Hlo Hhi].
    assert (H0 : 0 <= Py.round (a_duration a1 * inject_Z (fps e))).
    { rewrite <- (round_inject_Z 0). apply round_mono.
      change (inject_Z 0) with 0%Q.
      eapply Qle_trans; [| exact Hhalf]. discriminate. }
    subst n1. destruct (Z.max_spec 1 (Py.round (a_duration a1 * inject_Z (fps e))))
      as [[Hlt ->] | [Hge ->]]; [split; assumption |].
    assert (Hr : Py.round (a_duration a1 * inject_Z (fps e)) = 0
                 \/ Py.round (a_duration a1 * inject_Z (fps e)) = 1) by lia.
    remember (a_duration a1 * inject_Z (fps e))%Q as x eqn:Ex. clear Ex.
    destruct Hr as [Hr | Hr]; rewrite Hr in Hlo, Hhi;
      change (inject_Z 1) with 1%Q in *; change (inject_Z 0) with 0%Q in *;
      split; lra.
Qed.

(** ** Fitting *)

Lemma _resize_image_to_fit_cases e img ts :
  pillow_resize (_RESAMPLE e) ->
  match _resize_image_to_fit e img ts with
  | Raise ex =>
      ex = ValueError_invalid_sizes (im_size img) ts /\
      (fst (im_size img) <= 0 \/ snd (im_size img) <= 0 \/
       fst ts <= 0 \/ snd ts <= 0)
  | Ok canvas =>
      0 < fst (im_size img) /\ 0 < snd (im_size img) /\
      0 < fst ts /\ 0 < snd ts /\
      im_mode canvas = RGB /\ im_size canvas = ts
  end.
Proof.
  intros Hres. unfold _resize_image_to_fit.
  destruct (im_size img) as [sw sh] eqn:Hsize. destruct ts as [tw th].
  cbn [fst snd].
  destruct ((sw <=? 0) || (sh <=? 0) || (tw <=? 0) || (th <=? 0)) eqn:Hg.
  - split; [reflexivity |].
    rewrite !orb_true_iff, !Z.leb_le in Hg. lia.
  - rewrite !orb_false_iff, !Z.leb_gt in Hg.
    set (scale := py_min _ _).
    set (nw := Z.max 1 _). set (nh := Z.max 1 _).
    assert (Hr : exists resized,
              (if size_eqb (nw, nh) (sw, sh) then Ok (copy img)
               else Image_resize e img (nw, nh)) = Ok resized).
    { destruct (size_eqb (nw, nh) (sw, sh)); [eauto |].
      unfold Image_resize.
      destruct (Hres img nw nh) as (r & -> & _);
        try (rewrite Hsize; cbn [fst snd]); try lia. eauto. }
    destruct Hr as (resized & ->).
    repeat (split; [lia |]).
    destruct (im_mode resized); split; reflexivity.
Qed.

(** ** Transparency *)

Lemma _apply_opacity_RGB img o x y :
  im_mode img = RGB ->
  getpixel (_apply_opacity img o) x y = getpixel (_apply_alpha img o) x y.
Proof.
  intros Hm. unfold _apply_opacity, _apply_alpha. rewrite Hm.
  unfold convert_RGBA. rewrite Hm. cbn [getpixel].
  destruct (getpixel img x y) as [[[r g] b] a].
  f_equal. rewrite Z.mul_comm. apply Z.div_mul. discriminate.
Qed.

Lemma _apply_opacity_RGBA img o x y r g b a :
  im_mode img = RGBA -> getpixel img x y = (r, g, b, a) ->
  exists a',
    getpixel (_apply_opacity img o) x y = (r, g, b, a') /\
    (0 <= a -> 0 <= a' <= a) /\
    (255 <= o -> a' = a) /\ (o <= 0 -> a' = 0) /\
    getpixel (_apply_alpha img o) x y = (r, g, b, Z.max 0 (Z.min 255 o)).
Proof.
  intros Hm Hp. unfold _apply_opacity, _apply_alpha. rewrite Hm.
  cbn [getpixel]. rewrite Hp.
  set (k := Z.max 0 (Z.min 255 o)).
  assert (Hk : 0 <= k <= 255) by (subst k; lia).
  exists (a * k / 255). split; [reflexivity |].
  split; [| split; [| split; [| reflexivity]]].
  - intros Ha. split; [apply Z.div_pos; nia |].
    apply Z.div_le_upper_bound; nia.
  - intros Ho. replace k with 255 by (subst k; lia).
    apply Z.div_mul. discriminate.
  - intros Ho. replace k with 0 by (subst k; lia).
    now rewrite Z.mul_0_r.
Qed.

(** ** Style presets *)

Lemma get_animation_preset_cases style_name :
  (exists p,
     dict_get ANIMATION_PRESETS style_name = Some p /\
     get_animation_preset style_name = ([], p)) \/
  (dict_get ANIMATION_PRESETS style_name = None /\
   get_animation_preset style_name
   = ([(WARNING, Unknown_animation_style style_name)], standard_entry)).
Proof.
  unfold get_animation_preset.
  destruct (dict_get ANIMATION_PRESETS style_name) as [p |]; eauto.
Qed.

Lemma dict_get_elem {A} (d : list (string * A)) key v :
  dict_get d key = Some v -> (key, v) ∈ d.
Proof.
  unfold dict_get. destruct (List.find _ d) as [[k v'] |] eqn:E; [| discriminate].
  intros H. inversion H; subst. apply find_some in E as [Hin Hk].
  cbn in Hk. apply String.eqb_eq in Hk. subst. now apply list_elem_of_In.
Qed.

Lemma preset_fields style_name :
  let p := snd (get_animation_preset style_name) in
  (p_transition_type p = "fade"%string \/ p_transition_type p = "slide"%string) /\
  (0 < p_transition_duration p)%Q /\
  is_Some (tier_threshold (p_complexity p)).
Proof.
  assert (Hall : Forall (fun kv : string * preset =>
            (p_transition_type (snd kv) = "fade"%string \/
             p_transition_type (snd kv) = "slide"%string) /\
            (0 < p_transition_duration (snd kv))%Q /\
            is_Some (tier_threshold (p_complexity (snd kv))))
          ANIMATION_PRESETS).
  { unfold ANIMATION_PRESETS.
    repeat (constructor;
            [cbn; split; [auto | split; [reflexivity | eexists; reflexivity]] |]).
    constructor. }
  destruct (get_animation_preset_cases style_name) as [(p & Hp & ->) | [_ ->]].
  - rewrite Forall_forall in Hall.
    apply (Hall (style_name, p)). now apply dict_get_elem.
  - cbn. split; [auto | split; [reflexivity | eexists; reflexivity]].
Qed.

Lemma AnimationEngine_init_eq config tmp rs :
  let style := default "standard"%string (DEFAULT_ANIMATION_STYLE config) in
  AnimationEngine_init config tmp rs
  = (fst (get_animation_preset style),
     {| config_ANIMATION_COMPLEXITY := ANIMATION_COMPLEXITY config;
        animation_style := style;
        output_resolution := default (1920, 1080) (OUTPUT_RESOLUTION config);
        fps := default 30 (OUTPUT_FPS config);
        animation_preset := style_params_of (snd (get_animation_preset style));
        temp_dir := tmp;
        _RESAMPLE := rs |}).
Proof.
  intros style. unfold AnimationEngine_init. fold style.
  now destruct (get_animation_preset style).
Qed.

Lemma engine_of_default_config style_name tmp rs :
  style_name <> EmptyString ->
  let e := snd (AnimationEngine_init (Config_init (Some style_name)) tmp rs) in
  let p := snd (get_animation_preset style_name) in
  fst (AnimationEngine_init (Config_init (Some style_name)) tmp rs)
  = fst (get_animation_preset style_name) /\
  animation_style e = style_name /\
  apply_animation_style e
  = StyleParams (Some "medium"%string) (Some (p_transition_type p))
      (Some (p_transition_duration p)) /\
  tier_threshold (complexity_of (apply_animation_style e)) = Some (2 # 10)%Q /\
  output_resolution e = (1920, 1080) /\ fps e = 30.
Proof.
  intros Hne. cbv zeta. rewrite AnimationEngine_init_eq. unfold Config_init.
  replace (String.eqb style_name EmptyString) with false
    by (symmetry; now apply String.eqb_neq).
  cbn. auto 10.
Qed.

(** ** Transitions outside a run *)

Lemma generate_slide_transitions_short e animations sp w :
  (length animations <= 1)%nat ->
  generate_slide_transitions e animations sp w = (w, Ok []).
Proof.
  intros H. unfold generate_slide_transitions.
  rewrite range_nonpos by lia. reflexivity.
Qed.

Lemma generate_slide_transitions_ready e animations sp w :
  Forall (section_ready e w) animations ->
  exists w',
    generate_slide_transitions e animations sp w
    = (w', Ok (planned_transitions e sp animations)) /\
    log w' = log w /\ disk_step e w w' /\
    Forall (fun t => frames_on_disk e (ta_frame_paths t) w')
           (planned_transitions e sp animations).
Proof.
  intros Hall. unfold generate_slide_transitions.
  destruct (mapM_ready e
              (fun w0 => Forall (section_ready e w0) animations)
              ta_frame_paths
              (fun i =>
                 a <~ index animations i ;~
                 b <~ index animations (i + 1) ;~
                 _create_transition_animation e a b sp)
              (Py.range (Z.of_nat (length animations) - 1)))
    with (w := w) as (w' & ts & Hts & Hlog & Hs & Hon); [| | exact Hall |].
  - intros w0 w0' H0 Hs. apply Forall_forall. intros sa Hsa.
    rewrite Forall_forall in H0.
    eapply section_ready_step; [now apply H0 | exact Hs].
  - intros x Hx w0 Hw0. apply range_elem in Hx.
    destruct (index_ok animations x w0) as (a & Ha & Hla); [lia |].
    destruct (index_ok animations (x + 1) w0) as (b & Hb & Hlb); [lia |].
    rewrite Forall_forall in Hw0.
    destruct (_create_transition_animation_ready e a b sp w0)
      as (w' & t & Ht & Hlog & Hs & Hon).
    { apply Hw0. eapply list_elem_of_lookup_2, Hla. }
    { apply Hw0. eapply list_elem_of_lookup_2, Hlb. }
    exists w', t. split; [| auto].
    rewrite (bind_ok _ _ _ _ _ Ha), (bind_ok _ _ _ _ _ Hb). exact Ht.
  - pose proof (transitions_loop_records _ _ _ _ _ _ Hts) as E. subst ts.
    exists w'. auto.
Qed.

Lemma planned_transitions_lookup e sp secs (i : nat) t :
  planned_transitions e sp secs !! i = Some t ->
  exists a b,
    secs !! i = Some a /\ secs !! S i = Some b /\
    t = transition_record e sp a b.
Proof.
  unfold planned_transitions. rewrite lookup_zip_with.
  destruct (secs !! i) as [a |]; [| discriminate]. cbn.
  rewrite lookup_tail.
  destruct (secs !! S i) as [b |]; [| discriminate]. cbn.
  intros H. inversion H. eauto.
Qed.

(** ** [create_transition_frames] *)

Lemma position_in_unit (i m : Z) :
  0 <= i <= m -> 0 < m ->
  (0 <= inject_Z i / inject_Z m)%Q /\ (inject_Z i / inject_Z m <= 1)%Q.
Proof.
  intros Hi Hm.
  assert (Hmq : (0 < inject_Z m)%Q) by now apply inject_Z_pos.
  split.
  - apply Qle_shift_div_l; [exact Hmq |]. rewrite Qmult_0_l.
    change 0%Q with (inject_Z 0). rewrite <- Zle_Qle. lia.
  - apply Qle_shift_div_r; [exact Hmq |]. rewrite Qmult_1_l.
    rewrite <- Zle_Qle. lia.
Qed.

Lemma scaled_side_positive (s : Z) (zf : Q) :
  2 <= s -> (1 # 2 <= zf)%Q -> (zf <= 1)%Q ->
  0 < Py.int (inject_Z s * zf) <= s.
Proof.
  intros Hs Hlo Hhi.
  assert (Hsq : (2 <= inject_Z s)%Q)
    by (change 2%Q with (inject_Z 2); rewrite <- Zle_Qle; lia).
  assert (H1 : (1 <= inject_Z s * zf)%Q) by nra.
  assert (H2 : (inject_Z s * zf <= inject_Z s)%Q) by nra.
  rewrite int_nonneg_floor by lra.
  apply Qfloor_resp_le in H1, H2. rewrite Qfloor_Z in H2.
  change 1%Q with (inject_Z 1) in H1. rewrite Qfloor_Z in H1. lia.
Qed.

Lemma zoom_effect_ok LANCZOS img (zf : Q) :
  pillow_resize LANCZOS ->
  2 <= fst (im_size img) -> 2 <= snd (im_size img) ->
  (1 # 2 <= zf)%Q -> (zf <= 1)%Q ->
  exists out,
    zoom_effect LANCZOS img zf = Ok out /\
    im_mode out = im_mode img /\ im_size out = im_size img.
Proof.
  intros Hres Hw Hh Hlo Hhi. unfold zoom_effect.
  destruct (im_size img) as [width height] eqn:Hsize. cbn [fst snd] in Hw, Hh.
  pose proof (scaled_side_positive width zf Hw Hlo Hhi) as Hnw.
  pose proof (scaled_side_positive height zf Hh Hlo Hhi) as Hnh.
  set (nw := Py.int (inject_Z width * zf)) in *.
  set (nh := Py.int (inject_Z height * zf)) in *.
  set (cropped := crop img _).
  destruct (Hres cropped width height) as (r & Hr & Hm & Hs & _);
    try (subst cropped; cbn [crop im_size fst snd]; lia); try lia.
  rewrite Hr. exists r. split; [reflexivity |]. split; [| exact Hs].
  rewrite Hm. reflexivity.
Qed.

Lemma _apply_opacity_shape img o :
  im_mode (_apply_opacity img o) = RGBA /\
  im_size (_apply_opacity img o) = im_size img.
Proof.
  unfold _apply_opacity. split; [reflexivity |].
  destruct (im_mode img) eqn:E; [unfold convert_RGBA; rewrite E |]; reflexivity.
Qed.

Lemma fade_frames_files from_img to_img n dir w :
  im_mode from_img = im_mode to_img -> im_size from_img = im_size to_img ->
  exists w',
    fade_frames from_img to_img n dir w
    = (w', Ok (map (frame_file dir) (Py.range n))) /\
    log w' = log w /\
    (forall i, i ∈ Py.range n ->
       exists img,
         disk w' !! frame_file dir i = Some (ImageFile img) /\
         im_mode img = im_mode from_img /\ im_size img = im_size from_img) /\
    (forall q, q ∉ map (frame_file dir) (Py.range n) ->
       disk w' !! q = disk w !! q).
Proof.
  intros Hm Hs. unfold fade_frames.
  destruct (mapM_saves (fun w0 => log w0 = log w) (frame_file dir)
              (fun _ img =>
                 im_mode img = im_mode from_img /\
                 im_size img = im_size from_img)
              (fun frame_idx =>
                 match Image_blend from_img to_img
                         (if 1 <? n
                          then (inject_Z frame_idx / inject_Z (n - 1))%Q
                          else 1%Q) with
                 | Some blended_frame =>
                     _ <~ save (frame_file dir frame_idx) blended_frame ;~
                     ret (frame_file dir frame_idx)
                 | None => raise ValueError_images_do_not_match
                 end)
              (Py.range n)) with (w := w) as (w' & Hloop & Hlog & Hin & Hout).
  - intros i _ w0 Hw0.
    destruct (Image_blend_some from_img to_img
                (if 1 <? n then (inject_Z i / inject_Z (n - 1))%Q else 1%Q)
                Hm Hs) as (img & Himg).
    rewrite Himg. eexists _, img. split; [reflexivity |].
    split; [reflexivity |]. split; [| exact Hw0].
    unfold Image_blend in Himg. destruct (_ && _); [| discriminate].
    inversion Himg.
    destruct (Qeq_bool _ 0); [split; reflexivity |].
    destruct (Qeq_bool _ 1); [split; [now rewrite Hm | now rewrite Hs] |].
    split; reflexivity.
  - apply frame_files_NoDup.
  - reflexivity.
  - exists w'. auto.
Qed.

Lemma slide_frames_files from_img to_img n dir w :
  exists w',
    slide_frames from_img to_img n dir w
    = (w', Ok (map (frame_file dir) (Py.range n))) /\
    log w' = log w /\
    (forall i, i ∈ Py.range n ->
       exists img,
         disk w' !! frame_file dir i = Some (ImageFile img) /\
         im_mode img = RGB /\ im_size img = im_size from_img) /\
    (forall q, q ∉ map (frame_file dir) (Py.range n) ->
       disk w' !! q = disk w !! q).
Proof.
  unfold slide_frames. destruct (im_size from_img) as [width height].
  destruct (mapM_saves (fun w0 => log w0 = log w) (frame_file dir)
              (fun _ img => im_mode img = RGB /\ im_size img = (width, height))
              (fun frame_idx =>
                 _ <~ save (frame_file dir frame_idx)
                        (paste
                           (paste (Image_new RGB (width, height) white) from_img
                              (Py.int (inject_Z (- width)
                                       * (if 1 <? n
                                          then inject_Z frame_idx / inject_Z (n - 1)
                                          else 1)), 0) None)
                           to_img
                           (Py.int (inject_Z width
                                    * (1 - (if 1 <? n
                                            then inject_Z frame_idx / inject_Z (n - 1)
                                            else 1))), 0) None) ;~
                 ret (frame_file dir frame_idx))
              (Py.range n)) with (w := w) as (w' & Hloop & Hlog & Hin & Hout).
  - intros i _ w0 Hw0. eexists _, _. split; [reflexivity |].
    split; [reflexivity |]. split; [split; reflexivity | exact Hw0].
  - apply frame_files_NoDup.
  - reflexivity.
  - exists w'. auto.
Qed.

Lemma zoom_frames_files LANCZOS from_img to_img n dir w :
  pillow_resize LANCZOS ->
  im_size from_img = im_size to_img ->
  2 <= fst (im_size from_img) -> 2 <= snd (im_size from_img) ->
  exists w',
    zoom_frames LANCZOS from_img to_img n dir w
    = (w', Ok (map (frame_file dir) (Py.range n))) /\
    log w' = log w /\
    (forall i, i ∈ Py.range n ->
       exists img,
         disk w' !! frame_file dir i = Some (ImageFile img) /\
         im_mode img = RGBA /\ im_size img = im_size from_img) /\
    (forall q, q ∉ map (frame_file dir) (Py.range n) ->
       disk w' !! q = disk w !! q).
Proof.
  intros Hres Hs Hw Hh. unfold zoom_frames.
  set (zoom_pos := fun frame_idx : Z =>
         if 1 <? n then (inject_Z frame_idx / inject_Z (n - 1))%Q else 1%Q).
  destruct (mapM_saves (fun w0 => log w0 = log w) (frame_file dir)
              (fun _ img =>
                 im_mode img = RGBA /\ im_size img = im_size from_img)
              (fun frame_idx =>
                 frame <~ (if Py.lt (zoom_pos frame_idx) (1 # 2) then
                             frame <~ lift (zoom_effect LANCZOS from_img
                                              (1 - zoom_pos frame_idx * (1 # 2))) ;~
                             ret (_apply_opacity frame
                                    (255 - Py.int (zoom_pos frame_idx * 2 * 255)))
                           else
                             frame <~ lift (zoom_effect LANCZOS to_img
                                              ((1 # 2)
                                               + (zoom_pos frame_idx - (1 # 2)) * 1)) ;~
                             ret (_apply_opacity frame
                                    (Py.int ((zoom_pos frame_idx - (1 # 2)) * 2 * 255)))) ;~
                 _ <~ save (frame_file dir frame_idx) frame ;~
                 ret (frame_file dir frame_idx))
              (Py.range n)) with (w := w) as (w' & Hloop & Hlog & Hin & Hout).
  - intros i Hi w0 Hw0. apply range_elem in Hi.
    assert (Hpos : (0 <= zoom_pos i)%Q /\ (zoom_pos i <= 1)%Q).
    { unfold zoom_pos. destruct (1 <? n) eqn:Hn.
      - apply position_in_unit; lia.
      - split; discriminate. }
    destruct Hpos as [Hp0 Hp1].
    destruct (Py.lt (zoom_pos i) (1 # 2)) eqn:Hhalf.
    + apply lt_spec in Hhalf.
      destruct (zoom_effect_ok LANCZOS from_img (1 - zoom_pos i * (1 # 2)) Hres)
        as (out & Hout & Hom & Hos); try assumption; try lra.
      eexists _, _. split.
      { unfold bind at 1. unfold bind at 1. unfold lift. rewrite Hout.
        reflexivity. }
      split; [reflexivity |]. split; [| exact Hw0].
      destruct (_apply_opacity_shape out
                  (255 - Py.int (zoom_pos i * 2 * 255))) as [-> ->].
      auto.
    + assert (Hge : (1 # 2 <= zoom_pos i)%Q).
      { apply Qnot_lt_le. intros Hlt. apply lt_spec in Hlt. congruence. }
      destruct (zoom_effect_ok LANCZOS to_img
                  ((1 # 2) + (zoom_pos i - (1 # 2)) * 1) Hres)
        as (out & Hout & Hom & Hos); try (rewrite <- Hs; assumption); try lra.
      eexists _, _. split.
      { unfold bind at 1. unfold bind at 1. unfold lift. rewrite Hout.
        reflexivity. }
      split; [reflexivity |]. split; [| exact Hw0].
      destruct (_apply_opacity_shape out
                  (Py.int ((zoom_pos i - (1 # 2)) * 2 * 255))) as [-> ->].
      rewrite Hos, Hs. auto.
  - apply frame_files_NoDup.
  - reflexivity.
  - exists w'. auto.
Qed.

(** ** No two frames of a run share a file *)

Lemma append_assoc (a b c : string) : (a +:+ b) +:+ c = a +:+ (b +:+ c).
Proof.
  induction a as [| x a IH]; [reflexivity |].
  change (String x ((a +:+ b) +:+ c) = String x (a +:+ (b +:+ c))).
  now rewrite IH.
Qed.

Lemma append_String c (s r : string) : String c s +:+ r = String c (s +:+ r).
Proof. reflexivity. Qed.

Lemma append_empty (r : string) : EmptyString +:+ r = r.
Proof. reflexivity. Qed.

Lemma no_underscore_tail c s : no_underscore (String c s) -> no_underscore s.
Proof.
  intros H a b E. apply (H (String c a) b). rewrite E. reflexivity.
Qed.

Lemma split_at_underscore (s s' r r' : string) :
  no_underscore s -> no_underscore s' ->
  s +:+ "_" +:+ r = s' +:+ "_" +:+ r' -> s = s' /\ r = r'.
Proof.
  revert s'. induction s as [| c s IH]; intros [| c' s'] Hs Hs' E;
    rewrite ?append_String, ?append_empty in E.
  - inversion E. auto.
  - exfalso. inversion E; subst. apply (Hs' EmptyString s'). reflexivity.
  - exfalso. inversion E; subst. apply (Hs EmptyString s). reflexivity.
  - inversion E; subst.
    destruct (IH s' (no_underscore_tail _ _ Hs) (no_underscore_tail _ _ Hs'))
      as [-> ->]; auto.
Qed.

Lemma no_underscore_digit (x : N) (s : string) :
  no_underscore s -> no_underscore (String (pretty_N_char x) s).
Proof.
  intros Hs [| c a] b E; rewrite ?append_String, ?append_empty in E.
  - inversion E as [[Hc Hb]]. unfold pretty_N_char in Hc.
    repeat case_match; discriminate.
  - inversion E; subst. now apply (Hs a b).
Qed.

Lemma pretty_N_go_no_underscore (x : N) :
  forall s, no_underscore s -> no_underscore (pretty_N_go x s).
Proof.
  induction (N.lt_wf_0 x) as [x _ IH]. intros s Hs.
  destruct (decide (x = 0)%N) as [-> | Hx].
  - now rewrite pretty_N_go_0.
  - rewrite pretty_N_go_step by lia. apply IH.
    + apply N.div_lt; lia.
    + now apply no_underscore_digit.
Qed.

Lemma no_underscore_empty : no_underscore EmptyString.
Proof.
  intros [| c a] b E; rewrite ?append_String, ?append_empty in E; discriminate.
Qed.

Lemma pretty_no_underscore (z : Z) : no_underscore (pretty z).
Proof.
  destruct z as [| p | p].
  - intros [| c [| c' a]] b E; rewrite ?append_String, ?append_empty in E;
      discriminate.
  - apply pretty_N_go_no_underscore, no_underscore_empty.
  - change (pretty (Z.neg p)) with ("-" +:+ pretty (N.pos p)).
    intros [| c a] b E; rewrite ?append_String, ?append_empty in E.
    + discriminate.
    + inversion E as [[Hc H1]].
      apply (pretty_N_go_no_underscore (N.pos p) EmptyString
               no_underscore_empty a b).
      exact H1.
Qed.

Lemma section_path_shape T (k j : Z) :
  frame_file (Py.path_join T ("section_" +:+ pretty k +:+ "_frames")) j
  = T +:+ "/section_" +:+ pretty k +:+ "_"
    +:+ ("frames/frame_" +:+ Py.fmt_05d j +:+ ".png").
Proof.
  unfold frame_file, Py.path_join. rewrite !append_assoc. reflexivity.
Qed.

Lemma transition_path_shape T (a b j : Z) :
  frame_file
    (Py.path_join T
       ("transition_" +:+ pretty a +:+ "_to_" +:+ pretty b +:+ "_frames")) j
  = T +:+ "/transition_" +:+ pretty a +:+ "_"
    +:+ ("to_" +:+ pretty b +:+ "_"
         +:+ ("frames/frame_" +:+ Py.fmt_05d j +:+ ".png")).
Proof.
  unfold frame_file, Py.path_join. rewrite !append_assoc. reflexivity.
Qed.

Lemma section_path_inj T (k k' j j' : Z) :
  frame_file (Py.path_join T ("section_" +:+ pretty k +:+ "_frames")) j
  = frame_file (Py.path_join T ("section_" +:+ pretty k' +:+ "_frames")) j' ->
  k = k'.
Proof.
  rewrite !section_path_shape. intros E.
  apply append_cancel_l in E.
  apply (append_cancel_l "/section_") in E.
  apply split_at_underscore in E as [E _]; try apply pretty_no_underscore.
  now apply (inj pretty).
Qed.

Lemma transition_path_inj T (a a' b b' j j' : Z) :
  frame_file
    (Py.path_join T
       ("transition_" +:+ pretty a +:+ "_to_" +:+ pretty b +:+ "_frames")) j
  = frame_file
      (Py.path_join T
         ("transition_" +:+ pretty a' +:+ "_to_" +:+ pretty b' +:+ "_frames")) j' ->
  a = a'.
Proof.
  rewrite !transition_path_shape. intros E.
  apply append_cancel_l in E.
  apply (append_cancel_l "/transition_") in E.
  apply split_at_underscore in E as [E _]; try apply pretty_no_underscore.
  now apply (inj pretty).
Qed.

Lemma section_transition_paths_differ T (k a b j j' : Z) :
  frame_file (Py.path_join T ("section_" +:+ pretty k +:+ "_frames")) j
  <> frame_file
       (Py.path_join T
          ("transition_" +:+ pretty a +:+ "_to_" +:+ pretty b +:+ "_frames")) j'.
Proof.
  rewrite section_path_shape, transition_path_shape. intros E.
  apply append_cancel_l in E. discriminate.
Qed.

Lemma elem_of_concat_map {A B} (g : A -> list B) (xs : list A) (p : B) :
  p ∈ concat (map g xs) -> exists x, x ∈ xs /\ p ∈ g x.
Proof.
  induction xs as [| x xs IH]; cbn [map concat]; intros H.
  - inversion H.
  - apply elem_of_app in H as [H | H].
    + exists x. split; [left | exact H].
    + destruct (IH H) as (y & Hy & Hp). exists y. split; [now right | exact Hp].
Qed.

Lemma NoDup_concat_keys {A} (key : A -> Z) (g : A -> list string) (xs : list A) :
  NoDup (map key xs) ->
  (forall x, x ∈ xs -> NoDup (g x)) ->
  (forall x y p, x ∈ xs -> y ∈ xs -> p ∈ g x -> p ∈ g y -> key x = key y) ->
  NoDup (concat (map g xs)).
Proof.
  induction xs as [| x xs IH]; intros Hk Hg Hd; [constructor |].
  cbn [map concat]. cbn [map] in Hk. apply NoDup_cons in Hk as [Hx Hk].
  apply NoDup_app. split; [apply Hg; left |]. split.
  - intros p Hp Hq. apply Hx.
    apply elem_of_concat_map in Hq as (y & Hy & Hpl).
    rewrite (Hd x y p); [| left | now right | exact Hp | exact Hpl].
    change (key y ∈ key <$> xs). now apply list_elem_of_fmap_2.
  - apply IH; [exact Hk | |].
    + intros y Hy. apply Hg. now right.
    + intros y z p Hy Hz. apply Hd; now right.
Qed.

Lemma planned_sections_keys e n audios :
  map sa_section_idx (planned_sections e n audios)
  = List.filter (has_audio audios) (Py.range n).
Proof.
  unfold planned_sections, has_audio.
  induction (Py.range n) as [| i l IH]; [reflexivity |].
  cbn [omap list_omap List.filter].
  destruct (find_audio i audios) as [au |]; cbn; now rewrite IH.
Qed.

Lemma planned_sections_NoDup e n audios :
  NoDup (map sa_section_idx (planned_sections e n audios)).
Proof.
  rewrite planned_sections_keys.
  apply NoDup_ListNoDup, List.NoDup_filter, NoDup_ListNoDup, range_NoDup.
Qed.

Lemma planned_transitions_NoDup e sp secs :
  NoDup (map sa_section_idx secs) ->
  NoDup (map ta_from_section_idx (planned_transitions e sp secs)).
Proof.
  intros Hnd. apply NoDup_alt. intros i j k Hi Hj.
  change (map ?f ?l) with (f <$> l) in Hi, Hj.
  rewrite list_lookup_fmap in Hi, Hj.
  destruct (planned_transitions e sp secs !! i) as [t |] eqn:Ei; [| discriminate].
  destruct (planned_transitions e sp secs !! j) as [t' |] eqn:Ej; [| discriminate].
  apply planned_transitions_lookup in Ei as (a & b & Ha & _ & ->).
  apply planned_transitions_lookup in Ej as (a' & b' & Ha' & _ & ->).
  cbn in Hi, Hj. inversion Hi as [Hk]. inversion Hj as [Hk'].
  rewrite NoDup_alt in Hnd. apply (Hnd i j k).
  - change (map ?f ?l) with (f <$> l). now rewrite list_lookup_fmap, Ha, <- Hk.
  - change (map ?f ?l) with (f <$> l). now rewrite list_lookup_fmap, Ha', <- Hk'.
Qed.

Lemma planned_frame_paths_NoDup e sp n audios :
  let secs := planned_sections e n audios in
  NoDup (concat (map sa_frame_paths secs)
         ++ concat (map ta_frame_paths (planned_transitions e sp secs))).
Proof.
  intros secs.
  assert (Hsec : forall sa, sa ∈ secs ->
            sa_frame_paths sa
            = map (frame_file
                     (Py.path_join (temp_dir e)
                        ("section_" +:+ pretty (sa_section_idx sa + 1)
                         +:+ "_frames")))
                (Py.range (sa_frame_count sa))).
  { intros sa Hsa. apply planned_sections_elem in Hsa as (au & _ & ->).
    reflexivity. }
  assert (Htr : forall t, t ∈ planned_transitions e sp secs ->
            exists b m : Z,
              ta_frame_paths t
              = map (frame_file
                       (Py.path_join (temp_dir e)
                          ("transition_" +:+ pretty (ta_from_section_idx t)
                           +:+ "_to_" +:+ pretty b +:+ "_frames")))
                  (Py.range m)).
  { intros t Ht. apply list_elem_of_lookup_1 in Ht as [i Ht].
    apply planned_transitions_lookup in Ht as (a & b & _ & _ & ->).
    eexists _, _. reflexivity. }
  apply NoDup_app. split; [| split].
  - apply (NoDup_concat_keys sa_section_idx).
    + apply planned_sections_NoDup.
    + intros sa Hsa. rewrite (Hsec sa Hsa). apply frame_files_NoDup.
    + intros x y p Hx Hy Hpx Hpy.
      rewrite (Hsec x Hx) in Hpx. rewrite (Hsec y Hy) in Hpy.
      change (map ?f ?l) with (f <$> l) in Hpx, Hpy.
      apply list_elem_of_fmap in Hpx as (j & -> & _).
      apply list_elem_of_fmap in Hpy as (j' & E & _).
      apply section_path_inj in E. lia.
  - intros p Hp Hq.
    apply elem_of_concat_map in Hp as (sa & Hsa & Hpl).
    apply elem_of_concat_map in Hq as (t & Ht & Hpl').
    rewrite (Hsec sa Hsa) in Hpl.
    destruct (Htr t Ht) as (b & m & Et). rewrite Et in Hpl'.
    change (map ?f ?l) with (f <$> l) in Hpl, Hpl'.
    apply list_elem_of_fmap in Hpl as (j & -> & _).
    apply list_elem_of_fmap in Hpl' as (j' & E & _).
    now apply section_transition_paths_differ in E.
  - apply (NoDup_concat_keys ta_from_section_idx).
    + apply planned_transitions_NoDup, planned_sections_NoDup.
    + intros t Ht. destruct (Htr t Ht) as (b & m & ->).
      apply frame_files_NoDup.
    + intros x y p Hx Hy Hpx Hpy.
      destruct (Htr x Hx) as (b & m & Ex). rewrite Ex in Hpx.
      destruct (Htr y Hy) as (b' & m' & Ey). rewrite Ey in Hpy.
      change (map ?f ?l) with (f <$> l) in Hpx, Hpy.
      apply list_elem_of_fmap in Hpx as (j & -> & _).
      apply list_elem_of_fmap in Hpy as (j' & E & _).
      now apply transition_path_inj in E.
Qed.

(** ** Auxiliary facts for the statements below *)

Lemma range_max0 n : Py.range (Z.max 0 n) = Py.range n.
Proof. unfold Py.range. f_equal. f_equal. lia. Qed.

Lemma Forall_concat_map {A B} (P : B -> Prop) (g : A -> list B) (xs : list A) :
  Forall (fun x => Forall P (g x)) xs -> Forall P (concat (map g xs)).
Proof.
  induction 1 as [| x xs Hx _ IH]; [constructor |].
  cbn [map concat]. apply Forall_app. now split.
Qed.

Lemma sync_log_omap audios (items : list (Z * section_animation)) :
  flat_map (synced_section_log audios) items
  = omap (fun '(i, a) =>
            if has_audio audios (sa_section_idx a) then None
            else Some (WARNING, No_audio_found_for_section (i + 1))) items.
Proof.
  induction items as [| [i a] items IH]; [reflexivity |].
  cbn [flat_map omap list_omap]. unfold synced_section_log at 1, has_audio at 1.
  cbn [fst snd]. destruct (find_audio (sa_section_idx a) audios); cbn;
    now rewrite IH.
Qed.

Lemma synced_sections_length c audios dir (secs : list section_animation) :
  forall items : list (Z * section_animation),
    map snd items = secs ->
    length (omap (synced_section c audios dir) items)
    = length (List.filter (fun a => has_audio audios (sa_section_idx a)) secs).
Proof.
  induction secs as [| a secs IH]; intros [| [i a'] items] H; try discriminate;
    [reflexivity |].
  cbn [map snd] in H. inversion H; subst.
  cbn [omap list_omap List.filter]. unfold synced_section at 1, has_audio at 1.
  cbn [fst snd]. destruct (find_audio (sa_section_idx a) audios); cbn [length];
    now rewrite (IH items eq_refl).
Qed.

Lemma enumerate_snd {A} (l : list A) : map snd (Py.enumerate l) = l.
Proof.
  unfold Py.enumerate. change (map snd ?x) with (snd <$> x).
  apply snd_zip. pose proof (range_length (Z.of_nat (length l))). lia.
Qed.

(** ** A run over readable slides *)

Lemma caches_hold_images_same w w' :
  heap w' = heap w -> _loaded_cache w' = _loaded_cache w ->
  _fitted_cache w' = _fitted_cache w ->
  caches_hold_images w -> caches_hold_images w'.
Proof.
  intros Hh Hl Hf [H1 H2]. unfold caches_hold_images.
  rewrite Hh, Hl, Hf. split; assumption.
Qed.

Lemma caches_hold_images_alloc w w' x :
  caches_hold_images w ->
  heap w' = <[fresh (dom (heap w)) := x]> (heap w) ->
  _loaded_cache w' = _loaded_cache w -> _fitted_cache w' = _fitted_cache w ->
  caches_hold_images w'.
Proof.
  intros [H1 H2] Eh El Ef. unfold caches_hold_images. rewrite Eh, El, Ef. split.
  - intros path tw th l Hl. destruct (H1 _ _ _ _ Hl) as (c & Hc & Hm & Hs).
    exists c. split; [| auto].
    rewrite lookup_insert_ne; [exact Hc |].
    apply not_eq_sym, fresh_not_allocated. eauto.
  - intros path l Hl. destruct (H2 _ _ Hl) as (img & Hi & Hw & Hh).
    exists img. split; [| auto].
    rewrite lookup_insert_ne; [exact Hi |].
    apply not_eq_sym, fresh_not_allocated. eauto.
Qed.

Lemma caches_hold_images_loaded w w' path l img :
  caches_hold_images w -> heap w !! l = Some img ->
  0 < fst (im_size img) -> 0 < snd (im_size img) ->
  heap w' = heap w -> _loaded_cache w' = <[path := l]> (_loaded_cache w) ->
  _fitted_cache w' = _fitted_cache w ->
  caches_hold_images w'.
Proof.
  intros [H1 H2] Hl Hw Hh Eh El Ef. unfold caches_hold_images.
  rewrite Eh, El, Ef. split; [exact H1 |].
  intros path' l' Hl'.
  destruct (decide (path = path')) as [<- | Hne].
  - rewrite lookup_insert_eq in Hl'. inversion Hl'; subst. eauto.
  - rewrite lookup_insert_ne in Hl' by exact Hne. eauto.
Qed.

Lemma caches_hold_images_fitted w w' path tw th l c :
  caches_hold_images w -> heap w !! l = Some c ->
  im_mode c = RGB -> im_size c = (tw, th) ->
  heap w' = heap w -> _loaded_cache w' = _loaded_cache w ->
  _fitted_cache w' = <[(path, tw, th) := l]> (_fitted_cache w) ->
  caches_hold_images w'.
Proof.
  intros [H1 H2] Hl Hm Hs Eh El Ef. unfold caches_hold_images.
  rewrite Eh, El, Ef. split; [| exact H2].
  intros path' tw' th' l' Hl'.
  destruct (decide ((path, tw, th) = (path', tw', th'))) as [Heq | Hne].
  - rewrite Heq, lookup_insert_eq in Hl'. inversion Hl'; subst.
    inversion Heq; subst. eauto.
  - rewrite lookup_insert_ne in Hl' by exact Hne. eauto.
Qed.

(** A readable file is loaded, from the cache or from the disk. *)
Lemma _load_image_readable p img w :
  caches_hold_images w ->
  disk w !! p = Some (ImageFile img) ->
  0 < fst (im_size img) -> 0 < snd (im_size img) ->
  exists w1 l src,
    _load_image (Some p) w = (w1, Ok l) /\
    heap w1 !! l = Some src /\
    0 < fst (im_size src) /\ 0 < snd (im_size src) /\
    caches_hold_images w1 /\ _fitted_cache w1 = _fitted_cache w /\
    disk w1 = disk w /\ log w1 = log w.
Proof.
  intros Hc Hd Hw Hh.
  destruct (_loaded_cache w !! Some p) as [l |] eqn:Hl.
  - destruct (proj2 Hc _ _ Hl) as (src & Hsrc & Hsw & Hsh).
    exists w, l, src. rewrite (_load_image_hit _ _ _ Hl). auto 10.
  - rewrite (_load_image_miss _ _ Hl), Hd.
    eexists _, _, img. split; [reflexivity |].
    cbn [heap _fitted_cache disk log].
    split; [apply lookup_insert_eq |].
    split; [exact Hw |]. split; [exact Hh |].
    split; [| auto].
    eapply (caches_hold_images_loaded
              (World (disk w) (<[fresh (dom (heap w)) := img]> (heap w))
                 (_loaded_cache w) (_fitted_cache w) (log w)));
      [eapply (caches_hold_images_alloc w); [exact Hc | reflexivity ..]
      | apply lookup_insert_eq | exact Hw | exact Hh | reflexivity ..].
Qed.

(** The fitted canvas of a readable file is always had. *)
Lemma _get_fitted_canvas_readable e p img ts w :
  pillow_resize (_RESAMPLE e) ->
  0 < fst ts -> 0 < snd ts ->
  caches_hold_images w ->
  disk w !! p = Some (ImageFile img) ->
  0 < fst (im_size img) -> 0 < snd (im_size img) ->
  exists w1 l c,
    _get_fitted_canvas e (Some p) ts w = (w1, Ok l) /\
    heap w1 !! l = Some c /\ im_mode c = RGB /\ im_size c = ts /\
    caches_hold_images w1 /\ disk w1 = disk w /\ log w1 = log w.
Proof.
  intros Hres Htw Hth Hc Hd Hw Hh. destruct ts as [tw th].
  cbn [fst snd] in Htw, Hth.
  destruct (_fitted_cache w !! (Some p, tw, th)) as [c0 |] eqn:Hhit.
  - destruct (proj1 Hc _ _ _ _ Hhit) as (c & Hc0 & Hm & Hs).
    rewrite (_get_fitted_canvas_hit e (Some p) (tw, th) w c0 c Hhit Hc0).
    eexists _, _, c. split; [reflexivity |].
    cbn [heap disk log]. split; [apply lookup_insert_eq |].
    split; [exact Hm |]. split; [exact Hs |].
    split; [eapply (caches_hold_images_alloc w); [exact Hc | reflexivity ..]
           | auto].
  - unfold _get_fitted_canvas. cbn [fst snd]. rewrite Hhit.
    destruct (_load_image_readable p img w Hc Hd Hw Hh)
      as (w1 & l & src & Hload & Hsrc & Hsw & Hsh & Hc1 & Hf1 & Hd1 & Hl1).
    rewrite (bind_ok _ _ _ _ _ Hload).
    assert (Hderef : deref l w1 = (w1, Ok src)).
    { unfold deref. now rewrite Hsrc. }
    rewrite (bind_ok _ _ _ _ _ Hderef).
    pose proof (_resize_image_to_fit_cases e src (tw, th) Hres) as Hfit.
    destruct (_resize_image_to_fit e src (tw, th)) as [canvas | ex] eqn:Hr;
      [| cbn [fst snd] in Hfit; lia].
    destruct Hfit as (_ & _ & _ & _ & Hm & Hs).
    assert (Hlift : lift (Ok canvas) w1 = (w1, Ok canvas)) by reflexivity.
    rewrite (bind_ok _ _ _ _ _ Hlift).
    unfold bind, alloc, copy. cbn [heap disk log _loaded_cache _fitted_cache].
    eexists _, _, canvas. split; [reflexivity |].
    cbn [heap disk log]. split; [apply lookup_insert_eq |].
    split; [exact Hm |]. split; [exact Hs |].
    split; [| auto].
    set (l1 := fresh (dom (heap w1))).
    eapply (caches_hold_images_alloc
              (World (disk w1) (<[l1 := canvas]> (heap w1)) (_loaded_cache w1)
                 (<[(Some p, tw, th) := l1]> (_fitted_cache w1)) (log w1)));
      [| reflexivity ..].
    eapply (caches_hold_images_fitted
              (World (disk w1) (<[l1 := canvas]> (heap w1)) (_loaded_cache w1)
                 (_fitted_cache w1) (log w1)));
      [eapply (caches_hold_images_alloc w1); [exact Hc1 | reflexivity ..]
      | apply lookup_insert_eq | exact Hm | exact Hs | reflexivity ..].
Qed.

(** With a base image of the output resolution a frame is made without a
    record in the log; only its file changes. *)
Lemma _generate_frame_based e v rest t sp dir idx l base w :
  pillow_resize (_RESAMPLE e) ->
  0 < fst (output_resolution e) -> 0 < snd (output_resolution e) ->
  heap w !! l = Some base -> good_frame e base ->
  exists img,
    _generate_frame e (v :: rest) t sp dir idx (Some l) w
    = (World (<[frame_file dir idx := ImageFile img]> (disk w)) (heap w)
         (_loaded_cache w) (_fitted_cache w) (log w),
       Ok (frame_file dir idx)) /\
    good_frame e img.
Proof.
  intros Hres Hw Hh Hl [Hm Hs].
  destruct (_apply_animation_effects_shape e base t sp Hres)
    as (out & Hout & Hsize & _); try (rewrite Hs; assumption).
  pose proof (_generate_frame_try_base e v t sp l base out w Hl Hout
                (eq_trans Hsize Hs)) as Htry.
  eexists. split.
  - unfold _generate_frame.
    rewrite (bind_ok _ _ _ _ _ (try_except_ok _ _ _ _ _ Htry)). reflexivity.
  - eapply _generate_frame_try_good, Htry.
Qed.

Lemma readable_slides_step e sl w w' :
  0 < fst (output_resolution e) -> 0 < snd (output_resolution e) ->
  readable_slides sl w -> disk_step e w w' -> readable_slides sl w'.
Proof.
  intros Hw Hh Hsl Hstep. unfold readable_slides in *.
  eapply Forall_impl; [exact Hsl |].
  intros v (p & img & Hp & Hne & Hd & Hiw & Hih).
  destruct (Hstep p) as [Heq | (fr & Hfr & Hm & Hs)].
  - exists p, img. rewrite Heq. auto.
  - exists p, fr. rewrite Hs. auto.
Qed.

(** The frames of a section that has its base image. *)
Lemma _create_section_animation_based e sec idx v rest audio sp l base w :
  pillow_resize (_RESAMPLE e) ->
  0 < fst (output_resolution e) -> 0 < snd (output_resolution e) ->
  heap w !! l = Some base -> good_frame e base ->
  exists w' sa,
    _create_section_animation e sec idx (v :: rest) audio sp (Some l) w
    = (w', Ok sa) /\
    heap w' = heap w /\ _loaded_cache w' = _loaded_cache w /\
    _fitted_cache w' = _fitted_cache w /\ log w' = log w /\
    disk_step e w w'.
Proof.
  intros Hres Hw Hh Hl Hgood. unfold _create_section_animation.
  set (dir := Py.path_join _ _).
  unfold _generate_section_frames.
  set (n := Z.max 1 _).
  destruct (mapM_with_invariant
              (fun w0 => heap w0 = heap w /\
                         _loaded_cache w0 = _loaded_cache w /\
                         _fitted_cache w0 = _fitted_cache w /\
                         log w0 = log w /\ disk_step e w w0)
              (fun frame_idx =>
                 _generate_frame e (v :: rest)
                   (if 1 <? n
                    then (inject_Z frame_idx / inject_Z (n - 1))%Q
                    else 0%Q) sp dir frame_idx (Some l))
              (Py.range n)) with (w := w) as (w' & frames & Hrun & HI).
  - intros i _ w0 (Eh & El & Ef & Elog & Hstep).
    destruct (_generate_frame_based e v rest
                (if 1 <? n then (inject_Z i / inject_Z (n - 1))%Q else 0%Q)
                sp dir i l base w0 Hres Hw Hh) as (img & Hfr & Hg);
      [now rewrite Eh | exact Hgood |].
    eexists _, _. split; [exact Hfr |].
    cbn [heap _loaded_cache _fitted_cache log].
    split; [exact Eh |]. split; [exact El |]. split; [exact Ef |].
    split; [exact Elog |].
    eapply disk_step_trans; [exact Hstep |].
    intros q. cbn [disk].
    destruct (decide (frame_file dir i = q)) as [<- | Hn].
    + right. rewrite lookup_insert_eq. eauto.
    + left. now rewrite lookup_insert_ne.
  - split; [reflexivity |]. split; [reflexivity |]. split; [reflexivity |].
    split; [reflexivity | apply disk_step_refl].
  - eexists w', _. split; [| exact HI].
    apply try_except_ok. rewrite (bind_ok _ _ _ _ _ Hrun). reflexivity.
Qed.

(** The base image of a readable slide is always prepared. *)
Lemma prepare_fitted_base_readable e idx v rest p img w :
  pillow_resize (_RESAMPLE e) ->
  0 < fst (output_resolution e) -> 0 < snd (output_resolution e) ->
  caches_hold_images w ->
  v_path v = Some p -> p <> EmptyString ->
  disk w !! p = Some (ImageFile img) ->
  0 < fst (im_size img) -> 0 < snd (im_size img) ->
  exists w1 l base,
    prepare_fitted_base e idx (v :: rest) w = (w1, Ok (Some l)) /\
    heap w1 !! l = Some base /\ good_frame e base /\
    caches_hold_images w1 /\ disk w1 = disk w /\ log w1 = log w.
Proof.
  intros Hres Hw Hh Hc Hp Hne Hd Hiw Hih.
  destruct (_get_fitted_canvas_readable e p img (output_resolution e) w
              Hres Hw Hh Hc Hd Hiw Hih)
    as (w1 & l & c & Hfit & Hl & Hm & Hs & Hc1 & Hd1 & Hlog1).
  exists w1, l, c. split; [| split; [exact Hl | split; [split |]]]; auto.
  unfold prepare_fitted_base. rewrite Hp.
  replace (String.eqb p EmptyString) with false
    by (symmetry; now apply String.eqb_neq).
  assert (Hex : os_path_exists p w = (w, Ok true)).
  { unfold os_path_exists. rewrite Hd.
    rewrite bool_decide_eq_true_2 by eauto. reflexivity. }
  rewrite (bind_ok _ _ _ _ _ Hex).
  apply try_except_ok. rewrite (bind_ok _ _ _ _ _ Hfit). reflexivity.
Qed.

(** One iteration of the first loop of a run over readable slides. *)
Lemma create_animations_section_readable e sl pg audios sp idx sec w :
  pillow_resize (_RESAMPLE e) ->
  0 < fst (output_resolution e) -> 0 < snd (output_resolution e) ->
  0 <= idx < Z.of_nat (length sl) ->
  caches_hold_images w -> readable_slides sl w ->
  exists w' r,
    create_animations_section e (Visuals (Some sl) pg) audios sp idx sec w
    = (w', Ok r) /\
    (caches_hold_images w' /\ readable_slides sl w') /\
    log w' = log w ++ (if has_audio audios idx then [] else [audio_warning idx]).
Proof.
  intros Hres Hw Hh Hidx Hc Hsl. unfold create_animations_section, has_audio,
    find_audio.
  destruct (Py.next_or_none _ audios) as [au |].
  - destruct (lookup_lt_is_Some_2 sl (Z.to_nat idx)) as [v Hv]; [lia |].
    assert (Hvis : _get_section_visuals sec idx (Visuals (Some sl) pg) w
                   = (w, Ok [v])).
    { unfold _get_section_visuals. cbn [slides].
      replace (0 <=? idx) with true by (symmetry; apply Z.leb_le; lia).
      replace (idx <? Z.of_nat (length sl)) with true
        by (symmetry; apply Z.ltb_lt; lia).
      cbn [andb]. now rewrite Hv. }
    rewrite (bind_ok _ _ _ _ _ Hvis).
    pose proof Hsl as Hall. unfold readable_slides in Hall.
    rewrite Forall_forall in Hall.
    destruct (Hall v (list_elem_of_lookup_2 _ _ _ Hv))
      as (p & img & Hp & Hne & Hd & Hiw & Hih).
    destruct (prepare_fitted_base_readable e idx v [] p img w Hres Hw Hh Hc Hp
                Hne Hd Hiw Hih)
      as (w1 & l & base & Hprep & Hl & Hgood & Hc1 & Hd1 & Hlog1).
    rewrite (bind_ok _ _ _ _ _ Hprep).
    destruct (_create_section_animation_based e sec idx v [] au sp l base w1
                Hres Hw Hh Hl Hgood)
      as (w2 & sa & Hsa & Eh & El & Ef & Elog & Hstep).
    rewrite (bind_ok _ _ _ _ _ Hsa).
    eexists w2, _. split; [reflexivity |]. split; [split |].
    + eapply caches_hold_images_same; [exact Eh | exact El | exact Ef | exact Hc1].
    + eapply readable_slides_step; [exact Hw | exact Hh | | exact Hstep].
      eapply readable_slides_step; [exact Hw | exact Hh | exact Hsl |].
      now apply disk_step_same.
    + rewrite app_nil_r. congruence.
  - eexists _, _. split; [reflexivity |]. split; [split |].
    + eapply caches_hold_images_same; [| | | exact Hc]; reflexivity.
    + exact Hsl.
    + reflexivity.
Qed.

Lemma collectM_with_log {A B} (I : world -> Prop) (f : A -> M (option B))
  (msgs : A -> list log_record) xs :
  (forall x, x ∈ xs -> forall w, I w ->
     exists w' r, f x w = (w', Ok r) /\ I w' /\ log w' = log w ++ msgs x) ->
  forall w, I w ->
    exists w' ys,
      collectM f xs w = (w', Ok ys) /\ I w' /\
      log w' = log w ++ flat_map msgs xs.
Proof.
  induction xs as [| x xs IH]; intros Hf w Hw.
  - exists w, []. split; [reflexivity |]. split; [exact Hw |].
    cbn [flat_map]. now rewrite app_nil_r.
  - destruct (Hf x (list_elem_of_here x xs) w Hw) as (w1 & r & Hr & Hw1 & Hlog1).
    destruct (IH (fun x' Hx' => Hf x' (list_elem_of_further _ _ _ Hx')) w1 Hw1)
      as (w' & ys & Hys & Hw' & Hlog).
    eexists w', _. split.
    { cbn [collectM]. rewrite (bind_ok _ _ _ _ _ Hr), (bind_ok _ _ _ _ _ Hys).
      reflexivity. }
    split; [exact Hw' |].
    cbn [flat_map]. rewrite Hlog, Hlog1. now rewrite app_assoc.
Qed.

Lemma audio_warnings_of_loop audios (xs : list (Z * section)) :
  flat_map (fun x : Z * section =>
              if has_audio audios (fst x) then [] else [audio_warning (fst x)])
           xs
  = map audio_warning
      (List.filter (fun i => negb (has_audio audios i)) (map fst xs)).
Proof.
  induction xs as [| [i s] xs IH]; [reflexivity |].
  cbn [flat_map map List.filter fst]. rewrite IH.
  destruct (has_audio audios i); reflexivity.
Qed.

(** *** Transitions leave the image objects alone *)

Lemma keeps_objects_bind {A B} (m : M A) (k : A -> M B) :
  keeps_objects m -> (forall a, keeps_objects (k a)) -> keeps_objects (bind m k).
Proof.
  intros Hm Hk w w' r H. unfold bind in H.
  destruct (m w) as [w1 [a | ex]] eqn:E.
  - destruct (Hm _ _ _ E) as (E1 & E2 & E3).
    destruct (Hk _ _ _ _ H) as (F1 & F2 & F3).
    split; [| split]; congruence.
  - inversion H; subst. eapply Hm, E.
Qed.

Lemma keeps_objects_try_except {A} (m : M A) (h : exn -> M A) :
  keeps_objects m -> (forall ex, keeps_objects (h ex)) ->
  keeps_objects (try_except m h).
Proof.
  intros Hm Hh w w' r H. unfold try_except in H.
  destruct (m w) as [w1 [a | ex]] eqn:E.
  - inversion H; subst. eapply Hm, E.
  - destruct (Hm _ _ _ E) as (E1 & E2 & E3).
    destruct (Hh _ _ _ _ H) as (F1 & F2 & F3).
    split; [| split]; congruence.
Qed.

Lemma keeps_objects_ret {A} (a : A) : keeps_objects (ret a).
Proof. intros w w' r H. inversion H; subst. auto. Qed.

Lemma keeps_objects_raise {A} ex : keeps_objects (@raise A ex).
Proof. intros w w' r H. inversion H; subst. auto. Qed.

Lemma keeps_objects_logger lv msg : keeps_objects (logger lv msg).
Proof. intros w w' r H. inversion H; subst. auto. Qed.

Lemma keeps_objects_save p img : keeps_objects (save p img).
Proof. intros w w' r H. inversion H; subst. auto. Qed.

Lemma keeps_objects_Image_open path : keeps_objects (Image_open path).
Proof.
  intros w w' r H. unfold Image_open in H.
  destruct path as [p |]; [| inversion H; subst; auto].
  destruct (disk w !! p) as [[img |] |]; inversion H; subst; auto.
Qed.

Lemma keeps_objects_index {A} (xs : list A) i : keeps_objects (index xs i).
Proof.
  unfold index.
  destruct (if 0 <=? i then xs !! Z.to_nat i else None);
    [apply keeps_objects_ret | apply keeps_objects_raise].
Qed.

Lemma keeps_objects_mapM {A B} (f : A -> M B) xs :
  (forall x, keeps_objects (f x)) -> keeps_objects (mapM f xs).
Proof.
  intros Hf. induction xs as [| x xs IH]; [apply keeps_objects_ret |].
  cbn [mapM]. apply keeps_objects_bind; [apply Hf |]. intros y.
  apply keeps_objects_bind; [exact IH |]. intros ys. apply keeps_objects_ret.
Qed.

Lemma keeps_objects_boundary_frame te pick :
  keeps_objects (boundary_frame te pick).
Proof.
  destruct pick; [apply keeps_objects_Image_open | apply keeps_objects_ret].
Qed.

Lemma keeps_objects_log_and_reraise {A} (msg : exn -> message) ex :
  keeps_objects (_ <~ logger ERROR (msg ex) ;~ @raise A ex).
Proof.
  apply keeps_objects_bind; [apply keeps_objects_logger |].
  intros _. apply keeps_objects_raise.
Qed.

Lemma keeps_objects_fade_transition te a b d rate dir :
  keeps_objects (fade_transition te a b d rate dir).
Proof.
  unfold fade_transition. apply keeps_objects_try_except;
    [| intros ex; apply keeps_objects_log_and_reraise].
  apply keeps_objects_bind; [apply keeps_objects_boundary_frame |].
  intros from_img.
  apply keeps_objects_bind; [apply keeps_objects_boundary_frame |].
  intros to_img. apply keeps_objects_mapM. intros i.
  destruct (Image_blend _ _ _); [| apply keeps_objects_raise].
  apply keeps_objects_bind; [apply keeps_objects_save |].
  intros _. apply keeps_objects_ret.
Qed.

Lemma keeps_objects_slide_transition te a b d rate dir :
  keeps_objects (slide_transition te a b d rate dir).
Proof.
  unfold slide_transition. apply keeps_objects_try_except;
    [| intros ex; apply keeps_objects_log_and_reraise].
  apply keeps_objects_bind; [apply keeps_objects_boundary_frame |].
  intros from_img.
  apply keeps_objects_bind; [apply keeps_objects_boundary_frame |].
  intros to_img. destruct (te_output_resolution te) as [width height].
  apply keeps_objects_mapM. intros i.
  apply keeps_objects_bind; [apply keeps_objects_save |].
  intros _. apply keeps_objects_ret.
Qed.

Lemma keeps_objects__create_transition_animation e a b sp :
  keeps_objects (_create_transition_animation e a b sp).
Proof.
  unfold _create_transition_animation. apply keeps_objects_try_except;
    [| intros ex; apply keeps_objects_log_and_reraise].
  apply keeps_objects_bind; [| intros frames; apply keeps_objects_ret].
  destruct (String.eqb _ "fade"); [apply keeps_objects_fade_transition |].
  destruct (String.eqb _ "slide");
    [apply keeps_objects_slide_transition | apply keeps_objects_fade_transition].
Qed.

(** * Further properties of the code *)

(** ** Frames of a section *)

(** X1.  The frames of a section are the files [frame_00000.png],
    [frame_00001.png], ... of its directory, one per frame index and in that
    order; no two of them are the same file; after the loop each holds an
    RGB image of the output resolution, and no other file has changed. *)
Theorem section_frame_files e vc audio sp dir fb w :
  let n := Z.max 1 (Py.round (a_duration audio * inject_Z (fps e))) in
  let paths := map (frame_file dir) (Py.range n) in
  exists w',
    _generate_section_frames e vc audio sp dir fb w = (w', Ok paths) /\
    NoDup paths /\
    (forall p, p ∈ paths ->
       exists img, disk w' !! p = Some (ImageFile img) /\ good_frame e img) /\
    (forall q, q ∉ paths -> disk w' !! q = disk w !! q).
Proof.
  intros n paths. unfold _generate_section_frames. fold n.
  destruct (mapM_saves (fun _ => True) (frame_file dir)
              (fun _ img => good_frame e img)
              (fun frame_idx =>
                 _generate_frame e vc
                   (if 1 <? n then (inject_Z frame_idx / inject_Z (n - 1))%Q
                    else 0%Q) sp dir frame_idx fb)
              (Py.range n)) with (w := w) as (w' & Hm & _ & Hin & Hout).
  - intros x _ w0 _.
    destruct (_generate_frame_writes e vc
                (if 1 <? n then (inject_Z x / inject_Z (n - 1))%Q else 0%Q)
                sp dir x fb w0) as (w1 & img & H1 & H2 & H3).
    exists w1, img. auto.
  - apply frame_files_NoDup.
  - exact I.
  - exists w'. split; [exact Hm |]. split; [apply frame_files_NoDup |].
    split; [| exact Hout].
    intros p Hp. unfold paths in Hp.
    change (p ∈ frame_file dir <$> Py.range n) in Hp.
    apply list_elem_of_fmap in Hp as (x & -> & Hx). now apply Hin.
Qed.

(** X2.  With Pillow's resize the effects never fail and never change the
    size of a frame.  Inside the fade-in window of a known complexity tier
    the result is an RGBA image; from the end of the window on, and at every
    time position for a complexity that is none of low, medium and high,
    the result is the input frame itself. *)
Theorem effects_keep_the_frame_size e img t sp :
  pillow_resize (_RESAMPLE e) ->
  0 < fst (im_size img) -> 0 < snd (im_size img) ->
  exists out,
    _apply_animation_effects e img t sp = Ok out /\
    im_size out = im_size img /\
    match tier_threshold (complexity_of sp) with
    | Some thr =>
        ((t < thr)%Q -> im_mode out = RGBA) /\ ((thr <= t)%Q -> out = img)
    | None => out = img
    end.
Proof. apply _apply_animation_effects_shape. Qed.

Lemma effects_keep_the_frame_size_witness :
  exists out,
    _apply_animation_effects small_engine grey_slide (1 # 4)
      (StyleParams (Some "high"%string) None None) = Ok out /\
    im_size out = (2, 2) /\ im_mode out = RGBA.
Proof.
  destruct (effects_keep_the_frame_size small_engine grey_slide (1 # 4)
              (StyleParams (Some "high"%string) None None))
    as (out & H1 & H2 & H3 & _).
  - exact nearest_resample_pillow.
  - reflexivity.
  - reflexivity.
  - exists out. split; [exact H1 |]. split; [exact H2 |].
    apply H3. reflexivity.
Defined.

(** X3.  A section whose slide was fitted beforehand, under a known
    complexity tier: no frame fails and nothing is logged; the first frame
    (time position 0, where the slide is fully transparent) is white at
    every pixel; when the section has more than one frame its last frame is
    the fitted slide itself.  A section of a single frame therefore shows a
    white frame only. *)
Theorem section_starts_white_and_ends_on_the_slide
  e v rest audio sp dir l base thr w :
  pillow_resize (_RESAMPLE e) ->
  0 < fst (output_resolution e) -> 0 < snd (output_resolution e) ->
  tier_threshold (complexity_of sp) = Some thr ->
  heap w !! l = Some base -> good_frame e base ->
  let n := Z.max 1 (Py.round (a_duration audio * inject_Z (fps e))) in
  exists w' first,
    _generate_section_frames e (v :: rest) audio sp dir (Some l) w
    = (w', Ok (map (frame_file dir) (Py.range n))) /\
    log w' = log w /\
    disk w' !! frame_file dir 0 = Some (ImageFile first) /\
    good_frame e first /\ (forall x y, getpixel first x y = white) /\
    (1 < n -> disk w' !! frame_file dir (n - 1) = Some (ImageFile base)).
Proof.
  intros Hres Hw Hh Htier Hl [Hbm Hbs] n.
  unfold _generate_section_frames. fold n.
  set (time_pos := fun frame_idx : Z =>
         if 1 <? n then (inject_Z frame_idx / inject_Z (n - 1))%Q else 0%Q).
  destruct (mapM_saves
              (fun w0 => heap w0 !! l = Some base /\ log w0 = log w)
              (frame_file dir)
              (fun i img =>
                 good_frame e img /\
                 (i = 0 -> forall x y, getpixel img x y = white) /\
                 (1 < n -> i = n - 1 -> img = base))
              (fun frame_idx =>
                 _generate_frame e (v :: rest) (time_pos frame_idx) sp dir
                   frame_idx (Some l))
              (Py.range n)) with (w := w) as (w' & Hm & [_ Hlog] & Hin & _).
  - intros i Hi w0 [Hl0 Hlog0].
    destruct (_apply_animation_effects_shape e base (time_pos i) sp Hres)
      as (out & Heff & Hsz & _); try (rewrite Hbs; assumption).
    rewrite Hbs in Hsz.
    pose proof (_generate_frame_try_base e v _ sp l base out w0 Hl0 Heff Hsz)
      as Htry.
    eexists _, _. split.
    { unfold _generate_frame.
      rewrite (bind_ok _ _ _ _ _ (try_except_ok _ _ _ _ _ Htry)). reflexivity. }
    split; [reflexivity |]. split; [| split; [exact Hl0 | exact Hlog0]].
    split; [| split].
    + destruct (im_mode out) eqn:Hm; split; auto.
    + intros ->.
      destruct (effects_at_start e base sp thr (time_pos 0) Hres)
        as (out0 & Heff0 & Hm0 & Hs0 & Htr0);
        try (rewrite Hbs; assumption); try assumption.
      { unfold time_pos. destruct (1 <? n); [apply Qdiv_zero | reflexivity]. }
      rewrite Heff in Heff0. injection Heff0 as <-. rewrite Hm0.
      now apply composite_transparent.
    + intros Hn ->.
      assert (Ht : (thr <= time_pos (n - 1)%Z)%Q).
      { unfold time_pos. replace (1 <? n)%Z with true by (symmetry; lia).
        rewrite Qdiv_same by lia.
        apply tier_threshold_cases in Htier as [[_ ->] | [[_ ->] | [_ ->]]];
          discriminate. }
      rewrite (effects_after_window e base sp thr _ Htier Ht) in Heff.
      injection Heff as <-. now rewrite Hbm.
  - apply frame_files_NoDup.
  - split; [exact Hl | reflexivity].
  - assert (H0 : 0 ∈ Py.range n).
    { unfold Py.range. change (0 ∈ Z.of_nat <$> seq 0 (Z.to_nat n)).
      apply list_elem_of_fmap. exists 0%nat. split; [reflexivity |].
      apply elem_of_seq. lia. }
    destruct (Hin 0 H0) as (first & Hf & Hg & Hwhite & _).
    exists w', first. split; [exact Hm |]. split; [exact Hlog |].
    split; [exact Hf |]. split; [exact Hg |]. split; [now apply Hwhite |].
    intros Hn.
    assert (Hlast : n - 1 ∈ Py.range n).
    { unfold Py.range. change (n - 1 ∈ Z.of_nat <$> seq 0 (Z.to_nat n)).
      apply list_elem_of_fmap. exists (Z.to_nat (n - 1)). split; [lia |].
      apply elem_of_seq. lia. }
    destruct (Hin _ Hlast) as (img & Hi & _ & _ & Hb).
    now rewrite Hi, (Hb Hn eq_refl).
Qed.

Lemma section_starts_white_and_ends_on_the_slide_witness :
  exists w' first,
    _generate_section_frames small_engine [slide_visual] (one_second 0)
      minimal_preset "tmp/s" (Some 1%positive) based_world
    = (w', Ok (map (frame_file "tmp/s") (Py.range 2))) /\
    disk w' !! frame_file "tmp/s" 0 = Some (ImageFile first) /\
    (forall x y, getpixel first x y = white) /\
    disk w' !! frame_file "tmp/s" 1 = Some (ImageFile black_canvas).
Proof.
  destruct (section_starts_white_and_ends_on_the_slide small_engine slide_visual
              [] (one_second 0) minimal_preset "tmp/s" 1%positive black_canvas
              (1 # 10) based_world)
    as (w' & first & H1 & _ & H3 & _ & H5 & H6).
  - exact nearest_resample_pillow.
  - reflexivity.
  - reflexivity.
  - reflexivity.
  - reflexivity.
  - split; reflexivity.
  - exists w', first. split; [exact H1 |]. split; [exact H3 |].
    split; [exact H5 |]. apply H6. reflexivity.
Defined.

(** ** Frames of a transition *)

(** X4.  A fade whose two boundary frames are on disk and have the same mode
    and size writes [int(duration * fps)] frames and logs nothing.  With two
    frames or more, its first frame is the last frame of the outgoing
    section and its last frame is the first frame of the incoming section;
    with exactly one frame, that frame is the incoming one; with none,
    nothing at all changes. *)
Theorem fade_runs_between_the_boundary_frames
  te a b d rate dir w pa pb from_img to_img :
  last (sa_frame_paths a) = Some pa ->
  disk w !! pa = Some (ImageFile from_img) ->
  head (sa_frame_paths b) = Some pb ->
  disk w !! pb = Some (ImageFile to_img) ->
  im_mode from_img = im_mode to_img -> im_size from_img = im_size to_img ->
  let n := Py.int (d * inject_Z rate) in
  exists w',
    fade_transition te a b d rate dir w
    = (w', Ok (map (frame_file dir) (Py.range n))) /\
    log w' = log w /\
    (1 < n ->
     disk w' !! frame_file dir 0 = Some (ImageFile from_img) /\
     disk w' !! frame_file dir (n - 1) = Some (ImageFile to_img)) /\
    (n = 1 -> disk w' !! frame_file dir 0 = Some (ImageFile to_img)) /\
    (n <= 0 -> w' = w).
Proof.
  intros Hla Hda Hhb Hdb Hm Hs.
  apply fade_transition_ends; try assumption.
  - rewrite Hla. unfold boundary_frame, Image_open. now rewrite Hda.
  - rewrite Hhb. unfold boundary_frame, Image_open. now rewrite Hdb.
Qed.

Lemma fade_runs_between_the_boundary_frames_witness :
  exists w',
    fade_transition small_effects black_section white_section 1 2 "tmp/t"
      two_frames_world
    = (w', Ok (map (frame_file "tmp/t") (Py.range 2))) /\
    disk w' !! frame_file "tmp/t" 0 = Some (ImageFile black_canvas) /\
    disk w' !! frame_file "tmp/t" 1 = Some (ImageFile white_canvas).
Proof.
  destruct (fade_runs_between_the_boundary_frames small_effects black_section
              white_section 1 2 "tmp/t" two_frames_world
              "tmp/a/frame_00000.png" "tmp/b/frame_00000.png"
              black_canvas white_canvas)
    as (w' & H1 & _ & H3 & _); try reflexivity.
  exists w'. split; [exact H1 |]. apply H3. reflexivity.
Defined.

(** X5.  A slide between two boundary frames of the output resolution
    writes [int(duration * fps)] frames and logs nothing.  With two frames
    or more, its first frame shows the outgoing frame and its last frame the
    incoming frame, pixel for pixel; with exactly one frame, that frame
    shows the incoming one. *)
Theorem slide_runs_between_the_boundary_frames
  te a b d rate dir w pa pb from_img to_img :
  last (sa_frame_paths a) = Some pa ->
  disk w !! pa = Some (ImageFile from_img) ->
  head (sa_frame_paths b) = Some pb ->
  disk w !! pb = Some (ImageFile to_img) ->
  im_size from_img = te_output_resolution te ->
  im_size to_img = te_output_resolution te ->
  let n := Py.int (d * inject_Z rate) in
  let width := fst (te_output_resolution te) in
  let height := snd (te_output_resolution te) in
  exists w',
    slide_transition te a b d rate dir w
    = (w', Ok (map (frame_file dir) (Py.range n))) /\
    log w' = log w /\
    (1 < n ->
     exists first final,
       disk w' !! frame_file dir 0 = Some (ImageFile first) /\
       disk w' !! frame_file dir (n - 1) = Some (ImageFile final) /\
       forall x y, 0 <= x < width -> 0 <= y < height ->
         getpixel first x y = opaque (getpixel from_img x y) /\
         getpixel final x y = opaque (getpixel to_img x y)) /\
    (n = 1 ->
     exists only,
       disk w' !! frame_file dir 0 = Some (ImageFile only) /\
       forall x y, 0 <= x < width -> 0 <= y < height ->
         getpixel only x y = opaque (getpixel to_img x y)).
Proof.
  intros Hla Hda Hhb Hdb Hsf Hst n width height.
  destruct (slide_transition_files te a b d rate dir w from_img to_img)
    as (w' & Hrun & Hlog & Hin & _).
  { rewrite Hla. unfold boundary_frame, Image_open. now rewrite Hda. }
  { rewrite Hhb. unfold boundary_frame, Image_open. now rewrite Hdb. }
  fold n width height in Hrun, Hin.
  assert (Hsf' : im_size from_img = (width, height))
    by (rewrite Hsf; subst width height; now destruct (te_output_resolution te)).
  assert (Hst' : im_size to_img = (width, height))
    by (rewrite Hst; subst width height; now destruct (te_output_resolution te)).
  exists w'. split; [exact Hrun |]. split; [exact Hlog |]. split.
  - intros Hn.
    pose proof (Hin 0 (range_first n ltac:(lia))) as H0.
    pose proof (Hin (n - 1) (range_last n ltac:(lia))) as H1.
    cbv zeta in H0, H1.
    replace (1 <? n) with true in H0, H1 by (symmetry; lia).
    eexists _, _. split; [exact H0 |]. split; [exact H1 |].
    intros x y Hx Hy. split.
    + apply slide_frame_start; [apply Qdiv_zero | exact Hsf' | lia | lia].
    + apply slide_frame_end; [apply Qdiv_same; lia | exact Hst' | lia | lia].
  - intros Hn.
    pose proof (Hin 0 (range_first n ltac:(lia))) as H0. cbv zeta in H0.
    replace (1 <? n) with false in H0 by (symmetry; lia).
    eexists. split; [exact H0 |].
    intros x y Hx Hy.
    apply slide_frame_end; [reflexivity | exact Hst' | lia | lia].
Qed.

Lemma slide_runs_between_the_boundary_frames_witness :
  exists w' first final,
    slide_transition small_effects black_section white_section 1 2 "tmp/t"
      two_frames_world
    = (w', Ok (map (frame_file "tmp/t") (Py.range 2))) /\
    disk w' !! frame_file "tmp/t" 0 = Some (ImageFile first) /\
    disk w' !! frame_file "tmp/t" 1 = Some (ImageFile final) /\
    getpixel first 3 1 = (0, 0, 0, 255) /\ getpixel final 3 1 = white.
Proof.
  destruct (slide_runs_between_the_boundary_frames small_effects black_section
              white_section 1 2 "tmp/t" two_frames_world
              "tmp/a/frame_00000.png" "tmp/b/frame_00000.png"
              black_canvas white_canvas)
    as (w' & H1 & _ & H3 & _); try reflexivity.
  destruct (H3 eq_refl) as (first & final & Hf & Hl & Hpix).
  exists w', first, final. split; [exact H1 |]. split; [exact Hf |].
  split; [exact Hl |]. apply (Hpix 3 1); split; reflexivity || discriminate.
Defined.

(** ** A whole run of the engine *)

(** X6.  [create_animations] always returns, and the animation data it
    returns is the same whatever the visuals are and whatever the disk and
    the caches hold: the sections kept, their frame counts, durations and
    frame paths, the transitions and the metadata depend on the engine's
    settings, the number of sections and the audio segments only.  A slide
    that is missing or cannot be read changes pixels and log records, never
    the data. *)
Theorem animation_data_ignores_the_visuals
  e visuals visuals' sections audios w w' :
  exists w1 w2 d,
    create_animations e visuals sections audios w = (w1, Ok d) /\
    create_animations e visuals' sections audios w' = (w2, Ok d).
Proof.
  destruct (create_animations_total e visuals sections audios w)
    as (w1 & d & H1).
  destruct (create_animations_total e visuals' sections audios w')
    as (w2 & d' & H2).
  exists w1, w2, d. split; [exact H1 |].
  rewrite H2. f_equal. f_equal.
  rewrite (create_animations_plan _ _ _ _ _ _ _ H1).
  apply (create_animations_plan _ _ _ _ _ _ _ H2).
Qed.

(** X7.  The records of a run.  Every section record belongs to an audio
    segment of its section index: its duration is that segment's, its frame
    count is [max(1, round(duration * fps))], its directory is
    [section_<index + 1>_frames] under the engine's temporary directory and
    its frame paths are the files [frame_%05d.png] of that directory for the
    indices below the frame count.  Every transition record has the duration
    and the type of the style (1.0 and "fade" when the style has none), the
    frame count [max(0, int(duration * fps))], the directory
    [transition_<from>_to_<to>_frames] and the frame files of that directory.
    The metadata counts the section records and sums their durations. *)
Theorem records_of_a_run e visuals sections audios w :
  exists w' d,
    create_animations e visuals sections audios w = (w', Ok d) /\
    Forall (fun sa =>
              exists au,
                find_audio (sa_section_idx sa) (audio_sections audios) = Some au /\
                sa_duration sa = a_duration au /\
                sa_frame_count sa
                = Z.max 1 (Py.round (a_duration au * inject_Z (fps e))) /\
                sa_frames_dir sa
                = Py.path_join (temp_dir e)
                    ("section_" +:+ pretty (sa_section_idx sa + 1) +:+ "_frames") /\
                sa_frame_paths sa
                = map (frame_file (sa_frames_dir sa))
                    (Py.range (sa_frame_count sa)) /\
                sa_fps sa = fps e /\ sa_style sa = animation_style e)
           (ad_sections d) /\
    Forall (fun t =>
              ta_duration t
              = default 1%Q (sp_transition_duration (apply_animation_style e)) /\
              ta_transition_type t
              = default "fade"%string
                  (sp_transition_type (apply_animation_style e)) /\
              ta_frame_count t
              = Z.max 0 (Py.int (ta_duration t * inject_Z (fps e))) /\
              ta_frames_dir t
              = Py.path_join (temp_dir e)
                  ("transition_" +:+ pretty (ta_from_section_idx t) +:+ "_to_"
                   +:+ pretty (ta_to_section_idx t) +:+ "_frames") /\
              ta_frame_paths t
              = map (frame_file (ta_frames_dir t)) (Py.range (ta_frame_count t)) /\
              ta_fps t = fps e)
           (ad_transitions d) /\
    ad_style d = animation_style e /\
    md_section_count (ad_metadata d) = Z.of_nat (length (ad_sections d)) /\
    md_total_duration (ad_metadata d) = Py.sum (map sa_duration (ad_sections d)) /\
    md_resolution (ad_metadata d) = output_resolution e /\
    md_fps (ad_metadata d) = fps e.
Proof.
  destruct (create_animations_total e visuals sections audios w)
    as (w' & d & Hrun).
  exists w', d. split; [exact Hrun |].
  rewrite (create_animations_plan _ _ _ _ _ _ _ Hrun).
  cbn [ad_sections ad_transitions ad_style ad_metadata md_section_count
       md_total_duration md_resolution md_fps].
  split; [| split; [| auto]].
  - apply Forall_forall. intros sa Hsa.
    apply planned_sections_elem in Hsa as (au & Hau & Hrec).
    exists au. split; [exact Hau |]. rewrite Hrec.
    cbn [section_record sa_duration sa_frame_count sa_frames_dir sa_frame_paths
         sa_fps sa_style sa_section_idx]. auto 10.
  - apply Forall_forall. intros t Ht.
    apply list_elem_of_lookup_1 in Ht as [i Ht].
    apply planned_transitions_lookup in Ht as (a & b & _ & _ & ->).
    cbn [transition_record ta_duration ta_transition_type ta_frame_count
         ta_frames_dir ta_frame_paths ta_fps ta_from_section_idx
         ta_to_section_idx].
    rewrite range_max0. auto 10.
Qed.

(** X8.  The files of a run.  No two frames of a run share a file: the
    frame paths of all its section and transition records are pairwise
    distinct.  When [create_animations] returns, every one of these files
    holds an RGB image of the output resolution, and every other file is as
    it was before the run or holds such an image. *)
Theorem frames_of_a_run_are_on_disk e visuals sections audios w :
  exists w' d,
    create_animations e visuals sections audios w = (w', Ok d) /\
    NoDup (run_frame_paths d) /\
    Forall (fun p => exists img,
              disk w' !! p = Some (ImageFile img) /\ good_frame e img)
           (run_frame_paths d) /\
    disk_step e w w'.
Proof.
  destruct (create_animations_files e visuals sections audios w)
    as (w' & d & Hrun & Hsec & Htr & Hstep).
  exists w', d. split; [exact Hrun |]. split; [| split; [| exact Hstep]].
  - rewrite (create_animations_plan _ _ _ _ _ _ _ Hrun).
    apply planned_frame_paths_NoDup.
  - unfold run_frame_paths. apply Forall_app. split.
    + apply Forall_concat_map. exact Hsec.
    + apply Forall_concat_map. exact Htr.
Qed.

(** ** The compositor *)

(** X9.  Steps 6 and 7 of the pipeline, where the compositor receives the
    audio segments that the animations were made from.  The two steps always
    return; the compositor logs nothing and changes nothing; every section
    and every transition of the engine appears in the composition, in the
    engine's order; the elements alternate, starting with a section, so that
    no transition is left without the section after it; and every section
    element lasts exactly as long as its narration and has
    [max(1, round(duration * fps))] frames. *)
Theorem narrated_sections_reach_the_composition
  e c visuals sections audios w :
  exists w' d fc,
    create_animations e visuals sections audios w = (w', Ok d) /\
    create_and_compose e c visuals sections audios w = (w', Ok fc) /\
    map sc_animation (element_segments (fc_elements fc)) = ad_sections d /\
    map tc_animation (element_transitions (fc_elements fc)) = ad_transitions d /\
    (ad_sections d <> [] -> first_section_then_pairs (fc_elements fc) = true) /\
    (forall s, s ∈ element_segments (fc_elements fc) ->
               sc_duration s = a_duration (sc_audio s) /\
               sa_duration (sc_animation s) = a_duration (sc_audio s) /\
               sc_frame_count s
               = Z.max 1 (Py.round (a_duration (sc_audio s) * inject_Z (fps e)))).
Proof.
  destruct (create_animations_total e visuals sections audios w)
    as (w' & d & Hrun).
  pose proof (create_animations_plan _ _ _ _ _ _ _ Hrun) as Hd.
  cbv zeta in Hd.
  destruct (sync_of_narrated c e (Z.of_nat (length sections)) audios
              (ad_transitions d) w') with (anims := d)
    as (fc & Hsync & H1 & H2 & H3 & H4).
  - rewrite Hd. cbn [ad_transitions]. apply planned_transitions_length.
  - rewrite Hd. reflexivity.
  - reflexivity.
  - exists w', d, fc. split; [exact Hrun |]. split.
    { unfold create_and_compose. rewrite (bind_ok _ _ _ _ _ Hrun). exact Hsync. }
    assert (Hsecs : ad_sections d
                    = planned_sections e (Z.of_nat (length sections))
                        (audio_sections audios)).
    { rewrite Hd. reflexivity. }
    rewrite Hsecs. auto.
Qed.

(** X10.  Whatever the lengths of the two lists are,
    [assemble_video_segments] keeps every transition, in the order of the
    transition indices, but only the first [len(transitions) + 1] segments
    in the order of the section indices.  The segment count of the result
    counts all the segments, also those that are in no element. *)
Theorem assemble_keeps_every_transition c segs trans dir :
  let fc := assemble_video_segments c segs trans dir in
  element_transitions (fc_elements fc) = Py.sorted tc_transition_idx trans /\
  element_segments (fc_elements fc)
  = take (S (length trans)) (Py.sorted sc_section_idx segs) /\
  length (fc_elements fc)
  = (length trans + Nat.min (length segs) (S (length trans)))%nat /\
  fc_segment_count fc = Z.of_nat (length segs) /\
  fc_transition_count fc = Z.of_nat (length trans).
Proof.
  intros fc.
  destruct (assemble_elements_general c segs trans dir) as [Ht Hs].
  fold fc in Ht, Hs.
  split; [exact Ht |]. split; [exact Hs |]. split.
  - rewrite elements_length, Ht, Hs, length_take, !sorted_length. lia.
  - subst fc. unfold assemble_video_segments.
    cbn [fc_segment_count fc_transition_count].
    rewrite !sorted_length. auto.
Qed.

(** X11.  When the section indices of the segments are pairwise distinct,
    and so are the transition indices of the transitions, the composition
    does not depend on the order in which the two lists are passed. *)
Theorem assemble_ignores_the_order_of_its_lists c segs segs' trans trans' dir :
  Permutation segs segs' -> Permutation trans trans' ->
  NoDup (map sc_section_idx segs) -> NoDup (map tc_transition_idx trans) ->
  assemble_video_segments c segs trans dir
  = assemble_video_segments c segs' trans' dir.
Proof.
  intros Hs Ht Hns Hnt. unfold assemble_video_segments.
  now rewrite (sorted_Permutation _ _ _ Hs Hns), (sorted_Permutation _ _ _ Ht Hnt).
Qed.

Lemma assemble_ignores_the_order_of_its_lists_witness :
  assemble_video_segments small_compositor two_segments one_transition
    "tmp/composition"
  = assemble_video_segments small_compositor (rev two_segments) one_transition
      "tmp/composition".
Proof.
  apply assemble_ignores_the_order_of_its_lists.
  - apply Permutation_rev.
  - reflexivity.
  - cbn. apply NoDup_cons. split; [| apply NoDup_singleton].
    intros H. apply list_elem_of_singleton in H. discriminate.
  - apply NoDup_singleton.
Defined.

(** X12.  [sync_audio_with_visuals] never fails and changes nothing but the
    log: it appends one warning for every animated section that has no audio
    segment of its section index, numbered by the section's position in the
    list, and no other record.  The composition counts every transition, and
    as segments the sections that have such an audio segment. *)
Theorem sync_changes_only_the_log c anims audios w :
  exists fc,
    sync_audio_with_visuals c anims audios w
    = (add_log w
         (omap (fun '(i, a) =>
                  if has_audio (audio_sections audios) (sa_section_idx a)
                  then None
                  else Some (WARNING, No_audio_found_for_section (i + 1)))
               (Py.enumerate (ad_sections anims))),
       Ok fc) /\
    fc_transition_count fc = Z.of_nat (length (ad_transitions anims)) /\
    fc_segment_count fc
    = Z.of_nat (length (List.filter
                          (fun a => has_audio (audio_sections audios)
                                      (sa_section_idx a))
                          (ad_sections anims))).
Proof.
  rewrite sync_audio_with_visuals_eq, sync_log_omap.
  eexists. split; [reflexivity |].
  unfold assemble_video_segments.
  cbn [fc_transition_count fc_segment_count]. rewrite !sorted_length.
  split.
  - rewrite length_map. unfold Py.enumerate. rewrite length_combine.
    pose proof (range_length (Z.of_nat (length (ad_transitions anims)))). lia.
  - f_equal. apply synced_sections_length. apply enumerate_snd.
Qed.

(** ** Frame counts and narration *)

(** X13.  The frame count of a section follows its narration: a longer
    narration never gives fewer frames, and from half a frame of narration
    on, the number of frames differs from [duration * fps] by at most one
    half. *)
Theorem section_frames_follow_the_narration e vc sp dir fb a1 a2 w :
  0 <= fps e -> (a_duration a1 <= a_duration a2)%Q ->
  exists w1 w2 f1 f2,
    _generate_section_frames e vc a1 sp dir fb w = (w1, Ok f1) /\
    _generate_section_frames e vc a2 sp dir fb w = (w2, Ok f2) /\
    (length f1 <= length f2)%nat /\
    ((1 # 2 <= a_duration a1 * inject_Z (fps e))%Q ->
     (a_duration a1 * inject_Z (fps e) - (1 # 2)
      <= inject_Z (Z.of_nat (length f1)))%Q /\
     (inject_Z (Z.of_nat (length f1))
      <= a_duration a1 * inject_Z (fps e) + (1 # 2))%Q).
Proof.
  intros Hfps Hd.
  destruct (_generate_section_frames_total e vc a1 sp dir fb w)
    as (w1 & f1 & H1 & L1).
  destruct (_generate_section_frames_total e vc a2 sp dir fb w)
    as (w2 & f2 & H2 & L2).
  destruct (section_frame_count_bounds e a1 a2 Hfps Hd) as [Hle Hacc].
  exists w1, w2, f1, f2. split; [exact H1 |]. split; [exact H2 |].
  split; [lia |]. rewrite L1. exact Hacc.
Qed.

Lemma section_frames_follow_the_narration_witness :
  exists w1 w2 f1 f2,
    _generate_section_frames small_engine [] (one_second 0) minimal_preset
      "tmp/s" None empty_world = (w1, Ok f1) /\
    _generate_section_frames small_engine [] (plain_audio 0) minimal_preset
      "tmp/s" None empty_world = (w2, Ok f2) /\
    (length f1 <= length f2)%nat.
Proof.
  destruct (section_frames_follow_the_narration small_engine [] minimal_preset
              "tmp/s" None (one_second 0) (plain_audio 0) empty_world)
    as (w1 & w2 & f1 & f2 & H1 & H2 & H3 & _).
  - discriminate.
  - discriminate.
  - exists w1, w2, f1, f2. auto.
Defined.

(** ** Caching and fitting *)

(** X14.  [_load_image] hands out the cached object itself.  Once a path
    has been loaded, a later call returns the same object without looking at
    the disk, whatever has become of the file, and if a caller has changed
    the object in the meantime the later call sees the change. *)
Theorem loaded_images_are_shared path w w1 l :
  _load_image path w = (w1, Ok l) ->
  disk w1 = disk w /\
  forall (disk' : gmap string file) (m : image),
    let w2 := World disk' (<[l := m]> (heap w1)) (_loaded_cache w1)
                (_fitted_cache w1) (log w1) in
    _load_image path w2 = (w2, Ok l) /\ heap w2 !! l = Some m.
Proof.
  intros H.
  assert (Hc : _loaded_cache w1 !! path = Some l /\ disk w1 = disk w).
  { destruct (_loaded_cache w !! path) as [l0 |] eqn:E.
    - rewrite (_load_image_hit _ _ _ E) in H. inversion H; subst. auto.
    - rewrite (_load_image_miss _ _ E) in H.
      destruct path as [p |]; [| discriminate].
      destruct (disk w !! p) as [[img |] |]; try discriminate.
      inversion H; subst. cbn [_loaded_cache disk].
      split; [apply lookup_insert_eq | reflexivity]. }
  destruct Hc as [Hc Hd]. split; [exact Hd |].
  intros disk' m w2. split.
  - apply _load_image_hit. exact Hc.
  - apply lookup_insert_eq.
Qed.

Lemma loaded_images_are_shared_witness :
  exists w1 l,
    _load_image (Some "slide.png"%string) one_slide_world = (w1, Ok l) /\
    let w2 := World ∅ (<[l := black_canvas]> (heap w1)) (_loaded_cache w1)
                (_fitted_cache w1) (log w1) in
    _load_image (Some "slide.png"%string) w2 = (w2, Ok l) /\
    heap w2 !! l = Some black_canvas.
Proof.
  eexists _, _. split; [reflexivity |].
  apply (loaded_images_are_shared (Some "slide.png"%string) one_slide_world).
  reflexivity.
Defined.

(** X15.  With Pillow's resize, [_resize_image_to_fit] fails exactly when
    the source or the target has a side that is not positive, and then with
    the ValueError that names both sizes; otherwise it returns an RGB canvas
    of the target size. *)
Theorem fitting_fails_on_empty_sizes_only e img ts :
  pillow_resize (_RESAMPLE e) ->
  ((exists ex, _resize_image_to_fit e img ts = Raise ex) <->
   (fst (im_size img) <= 0 \/ snd (im_size img) <= 0 \/
    fst ts <= 0 \/ snd ts <= 0)) /\
  (forall ex, _resize_image_to_fit e img ts = Raise ex ->
              ex = ValueError_invalid_sizes (im_size img) ts) /\
  (forall canvas, _resize_image_to_fit e img ts = Ok canvas ->
                  im_mode canvas = RGB /\ im_size canvas = ts).
Proof.
  intros Hres. pose proof (_resize_image_to_fit_cases e img ts Hres) as H.
  destruct (_resize_image_to_fit e img ts) as [canvas | ex].
  - destruct H as (H1 & H2 & H3 & H4 & H5 & H6).
    split; [split; [intros [ex Hex]; discriminate | lia] |].
    split; [discriminate |]. intros c Hc. inversion Hc; subst. auto.
  - destruct H as [-> H]. split; [split; [auto | eauto] |].
    split; [intros ex' Hex; now inversion Hex | discriminate].
Qed.

Lemma fitting_fails_on_empty_sizes_only_witness :
  _resize_image_to_fit small_engine grey_slide (0, 2)
  = Raise (ValueError_invalid_sizes (2, 2) (0, 2)).
Proof.
  destruct (fitting_fails_on_empty_sizes_only small_engine grey_slide (0, 2)
              nearest_resample_pillow) as (Hiff & H & _).
  destruct (proj2 Hiff) as [ex Hex].
  - right. right. left. discriminate.
  - rewrite Hex. now rewrite (H ex Hex).
Defined.

(** ** The visual of a section *)

(** X16.  [_get_section_visuals] never fails and changes nothing but the
    log.  The list it looks in is the slides when the visuals have slides
    and the pages otherwise: pages are never consulted when there are
    slides, also when the slides are too few.  It returns the entry of the
    section's index when the list has one, and then logs nothing; otherwise
    it returns no visual and logs one warning. *)
Theorem section_visual_is_looked_up_in_one_list sec idx visuals w :
  let source :=
    match slides visuals with Some sl => Some sl | None => pages visuals end in
  let found :=
    match source with
    | Some l => if 0 <=? idx then l !! Z.to_nat idx else None
    | None => None
    end in
  exists msgs,
    _get_section_visuals sec idx visuals w
    = (add_log w msgs, Ok (option_list found)) /\
    (is_Some found -> msgs = []) /\
    (found = None -> exists m, msgs = [(WARNING, m)]).
Proof.
  assert (Hlook : forall (l : list visual),
            (if (0 <=? idx) && (idx <? Z.of_nat (length l))
             then l !! Z.to_nat idx else None)
            = (if 0 <=? idx then l !! Z.to_nat idx else None)).
  { intros l. destruct (0 <=? idx) eqn:H0; [| reflexivity].
    destruct (idx <? Z.of_nat (length l)) eqn:H1; [reflexivity |].
    cbn [andb]. symmetry. apply lookup_ge_None. lia. }
  unfold _get_section_visuals.
  destruct (slides visuals) as [sl |].
  - cbv zeta. rewrite Hlook.
    destruct (if 0 <=? idx then sl !! Z.to_nat idx else None) as [v |].
    + exists []. rewrite add_log_nil. split; [reflexivity |].
      split; [reflexivity | discriminate].
    + eexists. split; [reflexivity |].
      split; [intros [? ?]; discriminate | eauto].
  - destruct (pages visuals) as [pg |].
    + cbv zeta. rewrite Hlook.
      destruct (if 0 <=? idx then pg !! Z.to_nat idx else None) as [v |].
      * exists []. rewrite add_log_nil. split; [reflexivity |].
        split; [reflexivity | discriminate].
      * eexists. split; [reflexivity |].
        split; [intros [? ?]; discriminate | eauto].
    + eexists. split; [reflexivity |].
      split; [intros [? ?]; discriminate | eauto].
Qed.

(** ** Transparency *)

(** X17.  The two ways of making a frame transparent.  On an RGB image
    [_apply_opacity] and [_apply_alpha] give the same pixels.  On an RGBA
    image [_apply_alpha] replaces the alpha of every pixel by the clamped
    value, whatever it was, while [_apply_opacity] scales it: the alpha
    never grows, opacity 255 or more keeps it and opacity 0 or less clears
    it.  Both keep the colour channels and the size and return RGBA. *)
Theorem opacity_scales_where_alpha_overwrites img o :
  im_mode (_apply_opacity img o) = RGBA /\
  im_size (_apply_opacity img o) = im_size img /\
  im_mode (_apply_alpha img o) = RGBA /\
  im_size (_apply_alpha img o) = im_size img /\
  (im_mode img = RGB ->
   forall x y,
     getpixel (_apply_opacity img o) x y = getpixel (_apply_alpha img o) x y) /\
  (im_mode img = RGBA ->
   forall x y r g b a,
     getpixel img x y = (r, g, b, a) ->
     exists a',
       getpixel (_apply_opacity img o) x y = (r, g, b, a') /\
       (0 <= a -> 0 <= a' <= a) /\
       (255 <= o -> a' = a) /\ (o <= 0 -> a' = 0) /\
       getpixel (_apply_alpha img o) x y = (r, g, b, Z.max 0 (Z.min 255 o))).
Proof.
  destruct (_apply_opacity_shape img o) as [H1 H2].
  destruct (_apply_alpha_shape img o) as [H3 H4].
  repeat (split; [assumption |]). split.
  - intros Hm x y. now apply _apply_opacity_RGB.
  - intros Hm x y r g b a Hp. now apply _apply_opacity_RGBA.
Qed.

(** ** Styles and configuration *)

(** X18.  The engine of the stock configuration, for any style named on
    the command line.  The style name is kept as given; a name outside the
    catalog falls back to the "standard" preset with one warning, a name of
    the catalog gives no warning.  The transition type and duration are the
    preset's: the type is "fade" or "slide" and the duration is positive.
    The complexity is not the preset's: the configuration's "medium" always
    replaces it, so the fade-in window of every style ends at 0.2. *)
Theorem stock_configuration_fixes_the_complexity style_name tmp rs :
  style_name <> EmptyString ->
  let init := AnimationEngine_init (Config_init (Some style_name)) tmp rs in
  let e := snd init in
  let p := snd (get_animation_preset style_name) in
  animation_style e = style_name /\
  (fst init = [] <-> is_Some (dict_get ANIMATION_PRESETS style_name)) /\
  (fst init = [] \/ fst init = [(WARNING, Unknown_animation_style style_name)]) /\
  (dict_get ANIMATION_PRESETS style_name = None ->
   dict_get ANIMATION_PRESETS "standard" = Some p) /\
  (forall q, dict_get ANIMATION_PRESETS style_name = Some q -> p = q) /\
  apply_animation_style e
  = StyleParams (Some "medium"%string) (Some (p_transition_type p))
      (Some (p_transition_duration p)) /\
  tier_threshold (complexity_of (apply_animation_style e)) = Some (2 # 10)%Q /\
  (p_transition_type p = "fade"%string \/ p_transition_type p = "slide"%string) /\
  (0 < p_transition_duration p)%Q /\
  output_resolution e = (1920, 1080) /\ fps e = 30.
Proof.
  intros Hne init e p.
  destruct (engine_of_default_config style_name tmp rs Hne)
    as (Hw & Hs & Hsp & Ht & Hr & Hf).
  destruct (preset_fields style_name) as (Hty & Hd & _).
  fold init in Hw. fold init e in Hs, Hsp, Ht, Hr, Hf. fold p in Hsp, Hty, Hd.
  split; [exact Hs |]. rewrite Hw. subst p.
  destruct (get_animation_preset_cases style_name)
    as [(q & Hq & Hg) | [Hq Hg]]; rewrite Hg in *; rewrite Hq; cbn [fst snd].
  - split; [split; eauto |]. split; [auto |].
    split; [discriminate |]. split; [intros q' E; now inversion E |].
    auto 10.
  - split; [split; [discriminate | intros [? ?]; discriminate] |].
    split; [auto |]. split; [reflexivity |]. split; [discriminate |].
    auto 10.
Qed.

Lemma stock_configuration_fixes_the_complexity_witness :
  let e := snd (AnimationEngine_init (Config_init (Some "dynamic"%string))
                  "tmp" nearest_resample) in
  p_complexity (snd (get_animation_preset "dynamic")) = "high"%string /\
  apply_animation_style e
  = StyleParams (Some "medium"%string) (Some "slide"%string) (Some (12 # 10)%Q).
Proof.
  split; [reflexivity |].
  apply (stock_configuration_fixes_the_complexity "dynamic" "tmp"
           nearest_resample).
  discriminate.
Defined.

(** ** Transitions outside a run *)

(** X19.  A transition whose outgoing section names a last frame that is
    not on disk, or is not an image, fails with the OSError of that path.
    Nothing is written; the error is logged twice, first by the effect (as a
    slide error for the type "slide", as a fade error for every other type)
    and then by the engine, and it is raised again. *)
Theorem transition_without_its_boundary_frame e a b sp p w :
  last (sa_frame_paths a) = Some p ->
  match disk w !! p with Some (ImageFile _) => False | _ => True end ->
  let ex := OSError (Some p) in
  let ttype := default "fade"%string (sp_transition_type sp) in
  _create_transition_animation e a b sp w
  = (add_log w
       [(ERROR, if String.eqb ttype "slide"
                then Error_creating_slide_transition ex
                else Error_creating_fade_transition ex);
        (ERROR, Error_creating_transition_animation ex)],
     Raise ex).
Proof.
  intros Hlast Hmiss ex ttype.
  assert (Hopen : forall te,
            boundary_frame te (last (sa_frame_paths a)) w = (w, Raise ex)).
  { intros te. rewrite Hlast. unfold boundary_frame, Image_open.
    destruct (disk w !! p) as [[img |] |]; [contradiction | |]; reflexivity. }
  unfold _create_transition_animation. fold ttype.
  set (d := default 1%Q (sp_transition_duration sp)).
  set (dir := Py.path_join _ _).
  assert (Hfade : fade_transition (transitions e) a b d (fps e) dir w
                  = (add_log w [(ERROR, Error_creating_fade_transition ex)],
                     Raise ex)).
  { unfold fade_transition.
    erewrite try_except_raise; [reflexivity |].
    apply bind_raise. apply Hopen. }
  assert (Hslide : slide_transition (transitions e) a b d (fps e) dir w
                   = (add_log w [(ERROR, Error_creating_slide_transition ex)],
                      Raise ex)).
  { unfold slide_transition.
    erewrite try_except_raise; [reflexivity |].
    apply bind_raise. apply Hopen. }
  destruct (String.eqb ttype "fade") eqn:Ef.
  - replace (String.eqb ttype "slide") with false
      by (apply String.eqb_eq in Ef; now rewrite Ef).
    erewrite try_except_raise; [| apply bind_raise; exact Hfade].
    unfold bind, logger, raise. now rewrite add_log_app.
  - destruct (String.eqb ttype "slide").
    + erewrite try_except_raise; [| apply bind_raise; exact Hslide].
      unfold bind, logger, raise. now rewrite add_log_app.
    + erewrite try_except_raise; [| apply bind_raise; exact Hfade].
      unfold bind, logger, raise. now rewrite add_log_app.
Qed.

Lemma transition_without_its_boundary_frame_witness :
  _create_transition_animation small_engine black_section white_section
    minimal_preset empty_world
  = (add_log empty_world
       [(ERROR, Error_creating_fade_transition
                  (OSError (Some "tmp/a/frame_00000.png"%string)));
        (ERROR, Error_creating_transition_animation
                  (OSError (Some "tmp/a/frame_00000.png"%string)))],
     Raise (OSError (Some "tmp/a/frame_00000.png"%string))).
Proof.
  apply (transition_without_its_boundary_frame small_engine black_section
           white_section minimal_preset "tmp/a/frame_00000.png" empty_world).
  - reflexivity.
  - exact I.
Defined.

(** X20.  [generate_slide_transitions] returns no transition, and changes
    nothing, for a list of at most one animation.  For animations that all
    have frames, and these on disk, it returns one transition for every
    animation but the last, each from an animation to the next one of the
    list; it logs nothing, and the frames of every transition it returns are
    on disk. *)
Theorem transitions_between_consecutive_animations e animations sp w :
  ((length animations <= 1)%nat ->
   generate_slide_transitions e animations sp w = (w, Ok [])) /\
  (Forall (section_ready e w) animations ->
   exists w' ts,
     generate_slide_transitions e animations sp w = (w', Ok ts) /\
     length ts = (length animations - 1)%nat /\
     log w' = log w /\
     forall (i : nat) t,
       ts !! i = Some t ->
       exists a b,
         animations !! i = Some a /\ animations !! S i = Some b /\
         ta_from_section_idx t = sa_section_idx a /\
         ta_to_section_idx t = sa_section_idx b /\
         frames_on_disk e (ta_frame_paths t) w').
Proof.
  split; [apply generate_slide_transitions_short |].
  intros Hall.
  destruct (generate_slide_transitions_ready e animations sp w Hall)
    as (w' & Hrun & Hlog & _ & Hon).
  eexists w', _. split; [exact Hrun |].
  split; [apply planned_transitions_length |]. split; [exact Hlog |].
  intros i t Ht.
  rewrite Forall_forall in Hon.
  pose proof (Hon t (list_elem_of_lookup_2 _ _ _ Ht)) as Hd.
  apply planned_transitions_lookup in Ht as (a & b & Ha & Hb & ->).
  exists a, b. auto.
Qed.

Lemma transitions_between_consecutive_animations_witness :
  exists w' t,
    generate_slide_transitions small_engine [black_section; white_section]
      minimal_preset two_frames_world = (w', Ok [t]) /\
    ta_from_section_idx t = 0 /\ ta_to_section_idx t = 1.
Proof.
  destruct (transitions_between_consecutive_animations small_engine
              [black_section; white_section] minimal_preset two_frames_world)
    as [_ H].
  destruct H as (w' & ts & Hrun & Hlen & _ & Hts).
  - repeat constructor; try discriminate; eexists; (split; [reflexivity |]);
      split; reflexivity.
  - destruct ts as [| t [| t' ts]]; try discriminate.
    destruct (Hts 0%nat t eq_refl) as (a & b & Ha & Hb & Hf & Ht & _).
    inversion Ha; inversion Hb; subst.
    exists w', t. auto.
Defined.

(** X21.  For zoom factors between 1/2 and 1, on an image of at least 2x2
    pixels and with Pillow's resize, [zoom_effect] returns an image of the
    size and the mode of its input. *)
Theorem zoom_keeps_size_and_mode LANCZOS img (zf : Q) :
  pillow_resize LANCZOS ->
  2 <= fst (im_size img) -> 2 <= snd (im_size img) ->
  (1 # 2 <= zf)%Q -> (zf <= 1)%Q ->
  exists out,
    zoom_effect LANCZOS img zf = Ok out /\
    im_mode out = im_mode img /\ im_size out = im_size img.
Proof. apply zoom_effect_ok. Qed.

Lemma zoom_keeps_size_and_mode_witness :
  exists out,
    zoom_effect nearest_resample black_canvas (3 # 4) = Ok out /\
    im_mode out = RGB /\ im_size out = (4, 2).
Proof.
  apply (zoom_keeps_size_and_mode nearest_resample black_canvas (3 # 4)).
  - exact nearest_resample_pillow.
  - discriminate.
  - discriminate.
  - discriminate.
  - discriminate.
Defined.

(** X22.  [create_transition_frames], between two images of the same mode
    and size, at least 2x2 pixels, with Pillow's resize.  For every
    transition type and every frame count it returns the files
    [frame_%05d.png] of the output directory for the indices below the
    count, in order, and nothing for a count that is not positive; each of
    them then holds an image of the size of the two images, and no other
    file has changed.  The types "fade", "slide" and "zoom" log nothing;
    every other type logs one warning and gives the frames of a fade. *)
Theorem transition_frames_of_every_type
  LANCZOS from_img to_img transition_type frame_count output_dir w :
  pillow_resize LANCZOS ->
  im_mode from_img = im_mode to_img -> im_size from_img = im_size to_img ->
  2 <= fst (im_size from_img) -> 2 <= snd (im_size from_img) ->
  let r := create_transition_frames LANCZOS from_img to_img transition_type
             frame_count output_dir in
  let paths := map (frame_file output_dir) (Py.range frame_count) in
  (fst r = [] <->
   transition_type = "fade"%string \/ transition_type = "slide"%string \/
   transition_type = "zoom"%string) /\
  (fst r = [] \/ fst r = [(WARNING, Unknown_transition_type transition_type)]) /\
  (fst r <> [] ->
   snd r = snd (create_transition_frames LANCZOS from_img to_img "fade"
                  frame_count output_dir)) /\
  exists w',
    snd r w = (w', Ok paths) /\ log w' = log w /\
    (forall p, p ∈ paths ->
       exists img,
         disk w' !! p = Some (ImageFile img) /\ im_size img = im_size from_img) /\
    (forall q, q ∉ paths -> disk w' !! q = disk w !! q).
Proof.
  intros Hres Hm Hs Hw Hh r paths.
  assert (Hfiles : forall (m : M (list string)),
            (exists w',
               m w = (w', Ok paths) /\ log w' = log w /\
               (forall i, i ∈ Py.range frame_count ->
                  exists img,
                    disk w' !! frame_file output_dir i = Some (ImageFile img) /\
                    im_size img = im_size from_img) /\
               (forall q, q ∉ paths -> disk w' !! q = disk w !! q)) ->
            exists w',
              m w = (w', Ok paths) /\ log w' = log w /\
              (forall p, p ∈ paths ->
                 exists img,
                   disk w' !! p = Some (ImageFile img) /\
                   im_size img = im_size from_img) /\
              (forall q, q ∉ paths -> disk w' !! q = disk w !! q)).
  { intros m (w' & H1 & H2 & H3 & H4). exists w'.
    split; [exact H1 |]. split; [exact H2 |]. split; [| exact H4].
    intros p Hp. unfold paths in Hp.
    change (p ∈ frame_file output_dir <$> Py.range frame_count) in Hp.
    apply list_elem_of_fmap in Hp as (i & -> & Hi). now apply H3. }
  assert (Hfade : exists w',
            fade_frames from_img to_img frame_count output_dir w
            = (w', Ok paths) /\ log w' = log w /\
            (forall i, i ∈ Py.range frame_count ->
               exists img,
                 disk w' !! frame_file output_dir i = Some (ImageFile img) /\
                 im_size img = im_size from_img) /\
            (forall q, q ∉ paths -> disk w' !! q = disk w !! q)).
  { destruct (fade_frames_files from_img to_img frame_count output_dir w Hm Hs)
      as (w' & H1 & H2 & H3 & H4).
    exists w'. split; [exact H1 |]. split; [exact H2 |]. split; [| exact H4].
    intros i Hi. destruct (H3 i Hi) as (img & Hd & _ & Hsz). eauto. }
  subst r. unfold create_transition_frames.
  destruct (String.eqb transition_type "fade") eqn:Ef.
  { apply String.eqb_eq in Ef. cbn [fst snd].
    split; [split; auto |]. split; [auto |]. split; [congruence |].
    apply Hfiles, Hfade. }
  destruct (String.eqb transition_type "slide") eqn:Esl.
  { apply String.eqb_eq in Esl. cbn [fst snd].
    split; [split; auto |]. split; [auto |]. split; [congruence |].
    apply Hfiles.
    destruct (slide_frames_files from_img to_img frame_count output_dir w)
      as (w' & H1 & H2 & H3 & H4).
    exists w'. split; [exact H1 |]. split; [exact H2 |]. split; [| exact H4].
    intros i Hi. destruct (H3 i Hi) as (img & Hd & _ & Hsz). eauto. }
  destruct (String.eqb transition_type "zoom") eqn:Ez.
  { apply String.eqb_eq in Ez. cbn [fst snd].
    split; [split; auto |]. split; [auto |]. split; [congruence |].
    apply Hfiles.
    destruct (zoom_frames_files LANCZOS from_img to_img frame_count output_dir w
                Hres Hs Hw Hh) as (w' & H1 & H2 & H3 & H4).
    exists w'. split; [exact H1 |]. split; [exact H2 |]. split; [| exact H4].
    intros i Hi. destruct (H3 i Hi) as (img & Hd & _ & Hsz). eauto. }
  apply String.eqb_neq in Ef, Esl, Ez. cbn [fst snd].
  split; [split; [discriminate | intros [E | [E | E]]; congruence] |].
  split; [auto |]. split; [reflexivity |].
  apply Hfiles, Hfade.
Qed.

Lemma transition_frames_of_every_type_witness :
  let r := create_transition_frames nearest_resample black_canvas white_canvas
             "wipe" 3 "tmp/t" in
  fst r = [(WARNING, Unknown_transition_type "wipe")] /\
  exists w',
    snd r empty_world = (w', Ok (map (frame_file "tmp/t") (Py.range 3))) /\
    log w' = [].
Proof.
  destruct (transition_frames_of_every_type nearest_resample black_canvas
              white_canvas "wipe" 3 "tmp/t" empty_world)
    as (_ & _ & _ & w' & H1 & H2 & _).
  - exact nearest_resample_pillow.
  - reflexivity.
  - reflexivity.
  - discriminate.
  - discriminate.
  - split; [reflexivity |]. exists w'. split; [exact H1 | exact H2].
Defined.

(** X23.  A run over readable slides.  When every section has a slide,
    every slide names a file that holds a non-empty image, the output
    resolution is positive and Pillow's resize works, [create_animations]
    returns and logs no error: its only records are the warnings of the
    sections without narration, in the order of the sections.  The slides
    are readable after the run as before it and the caches still hold
    images of the right kind, so that the same is true of a run that
    follows. *)
Theorem readable_slides_are_animated_without_errors e sl pg sections audios w :
  pillow_resize (_RESAMPLE e) ->
  0 < fst (output_resolution e) -> 0 < snd (output_resolution e) ->
  (length sections <= length sl)%nat ->
  readable_slides sl w -> caches_hold_images w ->
  exists w' d,
    create_animations e (Visuals (Some sl) pg) sections audios w = (w', Ok d) /\
    log w'
    = log w ++
      map audio_warning
        (List.filter (fun i => negb (has_audio (audio_sections audios) i))
           (Py.range (Z.of_nat (length sections)))) /\
    readable_slides sl w' /\ caches_hold_images w'.
Proof.
  intros Hres Hw Hh Hlen Hsl Hc. unfold create_animations.
  set (sp := apply_animation_style e).
  destruct (collectM_with_log
              (fun w0 => caches_hold_images w0 /\ readable_slides sl w0)
              (fun '(section_idx, sec) =>
                 create_animations_section e (Visuals (Some sl) pg)
                   (audio_sections audios) sp section_idx sec)
              (fun x : Z * section =>
                 if has_audio (audio_sections audios) (fst x) then []
                 else [audio_warning (fst x)])
              (Py.enumerate sections)) with (w := w)
    as (w1 & segs & Hsegs & [Hc1 Hsl1] & Hlog1); [| split; assumption |].
  { intros [idx sec] Hin w0 [Hc0 Hsl0].
    apply enumerate_spec in Hin as [Hge Hlk].
    apply lookup_lt_Some in Hlk.
    apply create_animations_section_readable; auto. cbn [fst]. lia. }
  destruct (create_animations_sections_post e (Visuals (Some sl) pg)
              (audio_sections audios) sp sections w)
    as (w1' & segs' & Hsegs' & Hall).
  unfold create_animations_sections in Hsegs'. rewrite Hsegs in Hsegs'.
  inversion Hsegs'; subst w1' segs'. clear Hsegs'.
  change (create_animations_sections e (Visuals (Some sl) pg)
            (audio_sections audios) sp sections w = (w1, Ok segs)) in Hsegs.
  rewrite (bind_ok _ _ _ _ _ Hsegs).
  set (loop := mapM _ _).
  destruct (mapM_ready e
              (fun w0 => Forall (section_ready e w0) segs)
              ta_frame_paths
              (fun section_idx =>
                 a <~ index segs section_idx ;~
                 b <~ index segs (section_idx + 1) ;~
                 _create_transition_animation e a b sp)
              (Py.range (Z.of_nat (length segs) - 1)))
    with (w := w1) as (w2 & ts & Hts & Hlog2 & Hs2 & _); [| | exact Hall |].
  - intros w0 w0' H0 Hs. apply Forall_forall. intros sa Hsa.
    rewrite Forall_forall in H0.
    eapply section_ready_step; [now apply H0 | exact Hs].
  - intros x Hx w0 Hw0. apply range_elem in Hx.
    destruct (index_ok segs x w0) as (a & Ha & Hla); [lia |].
    destruct (index_ok segs (x + 1) w0) as (b & Hb & Hlb); [lia |].
    rewrite Forall_forall in Hw0.
    destruct (_create_transition_animation_ready e a b sp w0)
      as (w' & t & Ht & Hlog & Hs & Hon).
    { apply Hw0. eapply list_elem_of_lookup_2, Hla. }
    { apply Hw0. eapply list_elem_of_lookup_2, Hlb. }
    exists w', t. split; [| auto].
    rewrite (bind_ok _ _ _ _ _ Ha), (bind_ok _ _ _ _ _ Hb). exact Ht.
  - assert (Hobj : keeps_objects loop).
    { apply keeps_objects_mapM. intros i.
      apply keeps_objects_bind; [apply keeps_objects_index |]. intros a.
      apply keeps_objects_bind; [apply keeps_objects_index |]. intros b.
      apply keeps_objects__create_transition_animation. }
    destruct (Hobj _ _ _ Hts) as (Eh & El & Ef).
    rewrite (bind_ok _ _ _ _ _ Hts). eexists w2, _.
    split; [reflexivity |]. split; [| split].
    + rewrite Hlog2, Hlog1, audio_warnings_of_loop, enumerate_fst. reflexivity.
    + eapply readable_slides_step; [exact Hw | exact Hh | exact Hsl1 | exact Hs2].
    + eapply caches_hold_images_same; [exact Eh | exact El | exact Ef | exact Hc1].
Qed.

Lemma readable_slides_are_animated_without_errors_witness :
  exists w' d,
    create_animations small_engine scenario_visuals three_plain_sections
      audio_for_0_and_2 one_slide_world = (w', Ok d) /\
    log w' = [audio_warning 1].
Proof.
  destruct (readable_slides_are_animated_without_errors small_engine
              [slide_visual; slide_visual; slide_visual] None
              three_plain_sections audio_for_0_and_2 one_slide_world)
    as (w' & d & Hrun & Hlog & _).
  - apply nearest_resample_pillow.
  - reflexivity.
  - reflexivity.
  - cbn [length three_plain_sections]. lia.
  - repeat constructor; exists "slide.png"%string, grey_slide;
      (split; [reflexivity |]); (split; [discriminate |]);
      (split; [reflexivity |]); split; reflexivity.
  - split.
    + intros path tw th l H. cbn [one_slide_world _fitted_cache] in H.
      rewrite lookup_empty in H. discriminate.
    + intros path l H. cbn [one_slide_world _loaded_cache] in H.
      rewrite lookup_empty in H. discriminate.
  - exists w', d. split; [exact Hrun | exact Hlog].
Defined.

(** X24.  What transitions never touch.  Whether
    [generate_slide_transitions] returns or raises, and whatever the frames
    of the animations are, the image objects of the engine and its two
    caches are after the call what they were before it: transitions only
    write files and log records. *)
Theorem transitions_leave_the_image_objects_alone e animations sp w w' r :
  generate_slide_transitions e animations sp w = (w', r) ->
  heap w' = heap w /\ _loaded_cache w' = _loaded_cache w /\
  _fitted_cache w' = _fitted_cache w.
Proof.
  revert w w' r.
  change (keeps_objects (generate_slide_transitions e animations sp)).
  unfold generate_slide_transitions. apply keeps_objects_mapM. intros i.
  apply keeps_objects_bind; [apply keeps_objects_index |]. intros a.
  apply keeps_objects_bind; [apply keeps_objects_index |]. intros b.
  apply keeps_objects__create_transition_animation.
Qed.

Lemma transitions_leave_the_image_objects_alone_witness :
  exists w' r,
    generate_slide_transitions small_engine [black_section; white_section]
      minimal_preset two_frames_world = (w', r) /\
    heap w' = heap two_frames_world /\
    _loaded_cache w' = _loaded_cache two_frames_world /\
    _fitted_cache w' = _fitted_cache two_frames_world.
Proof.
  eexists _, _. split; [apply surjective_pairing |].
  eapply (transitions_leave_the_image_objects_alone small_engine
            [black_section; white_section] minimal_preset two_frames_world).
  apply surjective_pairing.
Defined.
